(** * Forgotten Hall team search: a shallow embedding

    The definitions below follow [src/sr/app/routine/forgotten_hall_app.py]:
    the team modules, the per-node teams, the mission team with its
    add / pop operations, the tiered score model and the depth-first
    search [search_best_mission_team] with its pruning test.

    Conventions.
    - Python [int] counters and phase markers are [nat] (they are only
      ever incremented from 0 or set to 0..3).
    - Python [float] scores are exact rationals [Q].  On every node that
      holds at most four characters all the values the score model
      produces are integers far below 2^53, where binary64 arithmetic is
      exact.
    - A Python [set] is a [gset]; the order in which a [for] loop meets
      its elements is a parameter, [SetIteration].
    - [l[i]] on a list raises IndexError out of range: functions that
      index are written in the [outcome] monad.
    - Mutation of the mission team is explicit state passing. *)

From Stdlib Require Import QArith Lqa.
From stdpp Require Import gmap strings list sorting.

Open Scope Q_scope.
Open Scope nat_scope.

(** ** Outcomes: a returned value or a raised IndexError *)

Inductive outcome (A : Type) : Type :=
  | Return (a : A)
  | IndexError.
Arguments Return {A} a.
Arguments IndexError {A}.

#[export] Instance outcome_ret : MRet outcome := fun _ a => Return a.
#[export] Instance outcome_bind : MBind outcome := fun _ _ f c =>
  match c with
  | Return a => f a
  | IndexError => IndexError
  end.

(** [l[i]] *)
Definition index {A} (l : list A) (i : nat) : outcome A :=
  match l !! i with
  | Some a => Return a
  | None => IndexError
  end.

(** [list.remove(x)]: drops the first element equal to [x]; [None] is the
    ValueError raised when there is none. *)
Fixpoint list_remove `{EqDecision A} (x : A) (l : list A) : option (list A) :=
  match l with
  | [] => None
  | y :: l' => if decide (y = x) then Some l' else cons y <$> list_remove x l'
  end.

(** ** The character registry

    [sr/const/character_const.py] is not part of the sources at hand: the
    enumerations of combat types and paths, the three path lists, the
    registry lookup and the Silverwolf constant are parameters of the
    development. *)

Class CharacterTypes := {
  CharacterCombatType : Type;
  CharacterCombatType_eq_dec :: EqDecision CharacterCombatType;
  CharacterCombatType_countable :: Countable CharacterCombatType;
  CharacterPath : Type;
  CharacterPath_eq_dec :: EqDecision CharacterPath;
}.

Record Character `{CharacterTypes} := {
  id : string;
  path : CharacterPath;
  combat_type : CharacterCombatType;
}.

#[export] Instance Character_eq_dec `{CharacterTypes} : EqDecision Character.
Proof. solve_decision. Defined.

(** The registry is total: the ids of the configured modules are
    validated by the configuration layer before the search runs. *)
Class CharacterConst `{CharacterTypes} := {
  get_character_by_id : string -> Character;
  SILVERWOLF : Character;
  ATTACK_PATH_LIST : list CharacterPath;
  SURVIVAL_PATH_LIST : list CharacterPath;
  SUPPORT_PATH_LIST : list CharacterPath;
}.

(** The order in which a [for] loop meets the elements of a Python set
    follows the hashes of the elements, which for strings and for the
    members of an enumeration change from one interpreter process to the
    next.  It is a parameter of the development: any enumeration of the
    elements, each of them once. *)
Class SetIteration `{CharacterTypes} := {
  iter_ids : gset string -> list string;
  iter_ids_elements : forall s, iter_ids s ≡ₚ elements s;
  iter_combat_types : gset CharacterCombatType -> list CharacterCombatType;
  iter_combat_types_elements : forall s, iter_combat_types s ≡ₚ elements s;
}.

(** Modelled from the spec: [is_attack_character], [is_survival_character]
    and [is_support_character] of [character_const], which classify a
    character id by the role path of the registered character. *)
Definition is_attack_character `{CharacterConst} (character_id : string) : bool :=
  bool_decide (path (get_character_by_id character_id) ∈ ATTACK_PATH_LIST).

Definition is_survival_character `{CharacterConst} (character_id : string) : bool :=
  bool_decide (path (get_character_by_id character_id) ∈ SURVIVAL_PATH_LIST).

Definition is_support_character `{CharacterConst} (character_id : string) : bool :=
  bool_decide (path (get_character_by_id character_id) ∈ SUPPORT_PATH_LIST).

(** ** Team modules *)

Record ForgottenHallTeamModule := {
  module_name : string;
  module_combat_type : string;   (* field [combat_type], unused by the search *)
  module_type : string;
  character_id_list : list string;
}.

#[export] Instance ForgottenHallTeamModule_eq_dec : EqDecision ForgottenHallTeamModule.
Proof. solve_decision. Defined.

(** ** Node teams *)

Record ForgottenHallNodeTeam := {
  module_list : list ForgottenHallTeamModule;
  character_id_set : gset string;
  node_dfs_phase : nat;
}.

(** [ForgottenHallNodeTeam()] *)
Definition new_node_team : ForgottenHallNodeTeam :=
  {| module_list := []; character_id_set := ∅; node_dfs_phase := 0 |}.

Definition set_node_dfs_phase (p : nat) (nt : ForgottenHallNodeTeam) : ForgottenHallNodeTeam :=
  {| module_list := module_list nt;
     character_id_set := character_id_set nt;
     node_dfs_phase := p |}.

(** [ForgottenHallNodeTeam.existed_characters] *)
Fixpoint node_existed_characters (nt : ForgottenHallNodeTeam)
    (ids : list string) : bool :=
  match ids with
  | [] => false
  | character_id :: ids' =>
      if decide (character_id ∈ character_id_set nt) then true
      else node_existed_characters nt ids'
  end.

(** [ForgottenHallNodeTeam.character_cnt] *)
Definition node_character_cnt (nt : ForgottenHallNodeTeam) : nat :=
  size (character_id_set nt).

(** [ForgottenHallNodeTeam.add_module] *)
Definition add_module (nt : ForgottenHallNodeTeam)
    (module : ForgottenHallTeamModule) : ForgottenHallNodeTeam :=
  {| module_list := module_list nt ++ [module];
     character_id_set :=
       foldl (fun s character_id => s ∪ {[character_id]})
             (character_id_set nt) (character_id_list module);
     node_dfs_phase := node_dfs_phase nt |}.

(** The loop [for character_id in ...: self.character_id_set.remove(character_id)];
    [set.remove] raises KeyError on an absent element, which leaves the
    loop with the removals made so far: the boolean tells whether the
    loop ran to its end. *)
Fixpoint remove_ids (s : gset string) (ids : list string) : bool * gset string :=
  match ids with
  | [] => (true, s)
  | character_id :: ids' =>
      if decide (character_id ∈ s) then remove_ids (s ∖ {[character_id]}) ids'
      else (false, s)
  end.

(** [ForgottenHallNodeTeam.pop_module]: both exceptions are caught and
    turned into [False]. *)
Definition pop_module (nt : ForgottenHallNodeTeam)
    (module : ForgottenHallTeamModule) : bool * ForgottenHallNodeTeam :=
  match list_remove module (module_list nt) with
  | None => (false, nt)
  | Some ml =>
      let '(ok, s) := remove_ids (character_id_set nt) (character_id_list module) in
      (ok, {| module_list := ml; character_id_set := s;
              node_dfs_phase := node_dfs_phase nt |})
  end.

(** ** Mission teams *)

Section Mission.

Context `{CharacterConst} {set_iteration : SetIteration}.

Record ForgottenHallMissionTeam := {
  total_node_cnt : nat;
  node_combat_types : list (list CharacterCombatType);
  node_team_list : list ForgottenHallNodeTeam;
  cnt_score : Q;
  attack_score : Q;
  survival_score : Q;
  support_score : Q;
  combat_type_score : Q;
  total_score : Q;
}.

Definition set_node_team_list (l : list ForgottenHallNodeTeam)
    (mt : ForgottenHallMissionTeam) : ForgottenHallMissionTeam :=
  {| total_node_cnt := total_node_cnt mt;
     node_combat_types := node_combat_types mt;
     node_team_list := l;
     cnt_score := cnt_score mt;
     attack_score := attack_score mt;
     survival_score := survival_score mt;
     support_score := support_score mt;
     combat_type_score := combat_type_score mt;
     total_score := total_score mt |}.

(** [ForgottenHallMissionTeam.__init__] *)
Definition new_mission_team (ncts : list (list CharacterCombatType)) : ForgottenHallMissionTeam :=
  {| total_node_cnt := length ncts;
     node_combat_types := ncts;
     node_team_list := replicate (length ncts) new_node_team;
     cnt_score := 0; attack_score := 0; survival_score := 0;
     support_score := 0; combat_type_score := 0; total_score := 0 |}.

(** [ForgottenHallMissionTeam.existed_characters] *)
Fixpoint existed_characters_in (nts : list ForgottenHallNodeTeam)
    (ids : list string) : bool :=
  match nts with
  | [] => false
  | node_team :: nts' =>
      if node_existed_characters node_team ids then true
      else existed_characters_in nts' ids
  end.

Definition existed_characters (mt : ForgottenHallMissionTeam)
    (ids : list string) : bool :=
  existed_characters_in (node_team_list mt) ids.

(** [ForgottenHallMissionTeam.add_to_node], at a node number from 0 on,
    as the search passes it; [add_to_node_int] below takes any Python
    int. *)
Definition add_to_node (mt : ForgottenHallMissionTeam) (node_num : nat)
    (module : ForgottenHallTeamModule) : outcome (bool * ForgottenHallMissionTeam) :=
  node_team ← index (node_team_list mt) node_num;
  if 4 <? size (character_id_set node_team) + length (character_id_list module)
  then Return (false, mt)
  else if existed_characters mt (character_id_list module)
  then Return (false, mt)
  else Return (true,
               set_node_team_list
                 (<[node_num := add_module node_team module]> (node_team_list mt)) mt).

(** [ForgottenHallMissionTeam.pop_from_node], at a node number from 0
    on; [pop_from_node_int] below takes any Python int. *)
Definition pop_from_node (mt : ForgottenHallMissionTeam) (node_num : nat)
    (module : ForgottenHallTeamModule) : bool * ForgottenHallMissionTeam :=
  match node_team_list mt !! node_num with
  | None => (false, mt)
  | Some node_team =>
      let '(ok, node_team') := pop_module node_team module in
      (ok, set_node_team_list (<[node_num := node_team']> (node_team_list mt)) mt)
  end.

(** The position that [l[i]] reads for a Python int [i]: a negative [i]
    counts from the end, [-1] being the last element; [None] is the
    IndexError raised below [-len(l)] and from [len(l)] on. *)
Definition position {A} (l : list A) (i : Z) : option nat :=
  let len := Z.of_nat (length l) in
  if (0 <=? i)%Z then
    if (i <? len)%Z then Some (Z.to_nat i) else None
  else
    if (- len <=? i)%Z then Some (Z.to_nat (len + i)) else None.

(** [ForgottenHallMissionTeam.add_to_node] at any Python int: both
    places that index the node list read the same position. *)
Definition add_to_node_int (mt : ForgottenHallMissionTeam) (node_num : Z)
    (module : ForgottenHallTeamModule) : outcome (bool * ForgottenHallMissionTeam) :=
  match position (node_team_list mt) node_num with
  | Some k => add_to_node mt k module
  | None => IndexError
  end.

(** [ForgottenHallMissionTeam.pop_from_node] at any Python int: the guard
    [node_num >= len(self.node_team_list)] stops the numbers past the
    end only. *)
Definition pop_from_node_int (mt : ForgottenHallMissionTeam) (node_num : Z)
    (module : ForgottenHallTeamModule) : outcome (bool * ForgottenHallMissionTeam) :=
  if (Z.of_nat (length (node_team_list mt)) <=? node_num)%Z then Return (false, mt)
  else match position (node_team_list mt) node_num with
       | Some k => Return (pop_from_node mt k module)
       | None => IndexError
       end.

(** [ForgottenHallMissionTeam.valid_mission_team] *)
Fixpoint all_nodes_filled (nts : list ForgottenHallNodeTeam) : bool :=
  match nts with
  | [] => true
  | node_team :: nts' =>
      if node_character_cnt node_team =? 0 then false
      else all_nodes_filled nts'
  end.

Definition valid_mission_team (mt : ForgottenHallMissionTeam) : bool :=
  all_nodes_filled (node_team_list mt).

(** [ForgottenHallMissionTeam.character_cnt] *)
Definition character_cnt (mt : ForgottenHallMissionTeam) : nat :=
  foldl (fun total_cnt node_team => total_cnt + node_character_cnt node_team)
        0 (node_team_list mt).

(** [ForgottenHallTeamModule.with_attack], [with_silver], [with_survival]
    and [with_support]: loops with an early [return True]. *)
Fixpoint any_character (p : string -> bool) (ids : list string) : bool :=
  match ids with
  | [] => false
  | character_id :: ids' => if p character_id then true else any_character p ids'
  end.

Definition with_attack (module : ForgottenHallTeamModule) : bool :=
  any_character is_attack_character (character_id_list module).

Definition with_silver (module : ForgottenHallTeamModule) : bool :=
  bool_decide (id SILVERWOLF ∈ character_id_list module).

Definition with_survival (module : ForgottenHallTeamModule) : bool :=
  any_character is_survival_character (character_id_list module).

Definition with_support (module : ForgottenHallTeamModule) : bool :=
  any_character is_support_character (character_id_list module).

(** [ForgottenHallNodeTeam.character_list] *)
Definition node_character_list (nt : ForgottenHallNodeTeam) : list Character :=
  map get_character_by_id (iter_ids (character_id_set nt)).

(** [ForgottenHallMissionTeam.character_list] *)
Definition character_list (mt : ForgottenHallMissionTeam) : list (list Character) :=
  map node_character_list (node_team_list mt).

(** ** The score of one node *)

Definition Qnat (n : nat) : Q := inject_Z (Z.of_nat n).

Record ForgottenHallNodeTeamScore := mkScore {
  attack_cnt : nat;
  support_cnt : nat;
  survival_cnt : nat;
  combat_type_not_need_cnt : nat;
  combat_type_attack_cnt : nat;
  combat_type_attack_cnt_under_silver : nat;
  combat_type_other_cnt : nat;
  combat_type_other_cnt_under_silver : nat;
  node_cnt_score : Q;
  node_attack_score : Q;
  node_survival_score : Q;
  node_support_score : Q;
  node_combat_type_score : Q;
  node_total_score : Q;
}.

(** The field defaults of the class. *)
Definition new_score : ForgottenHallNodeTeamScore :=
  mkScore 0 0 0 0 0 0 0 0 0%Q 0%Q 0%Q 0%Q 0%Q 0%Q.

(** Field updates [self.f += 1] and [self.f = v]. *)
Definition incr_attack_cnt (self : ForgottenHallNodeTeamScore) :=
  let '(mkScore a p s n ca cas co cos q1 q2 q3 q4 q5 q6) := self in
  mkScore (a + 1) p s n ca cas co cos q1 q2 q3 q4 q5 q6.
Definition incr_support_cnt (self : ForgottenHallNodeTeamScore) :=
  let '(mkScore a p s n ca cas co cos q1 q2 q3 q4 q5 q6) := self in
  mkScore a (p + 1) s n ca cas co cos q1 q2 q3 q4 q5 q6.
Definition incr_survival_cnt (self : ForgottenHallNodeTeamScore) :=
  let '(mkScore a p s n ca cas co cos q1 q2 q3 q4 q5 q6) := self in
  mkScore a p (s + 1) n ca cas co cos q1 q2 q3 q4 q5 q6.
Definition set_combat_type_not_need_cnt (v : nat) (self : ForgottenHallNodeTeamScore) :=
  let '(mkScore a p s n ca cas co cos q1 q2 q3 q4 q5 q6) := self in
  mkScore a p s v ca cas co cos q1 q2 q3 q4 q5 q6.
Definition incr_combat_type_attack_cnt (self : ForgottenHallNodeTeamScore) :=
  let '(mkScore a p s n ca cas co cos q1 q2 q3 q4 q5 q6) := self in
  mkScore a p s n (ca + 1) cas co cos q1 q2 q3 q4 q5 q6.
Definition incr_combat_type_attack_cnt_under_silver (self : ForgottenHallNodeTeamScore) :=
  let '(mkScore a p s n ca cas co cos q1 q2 q3 q4 q5 q6) := self in
  mkScore a p s n ca (cas + 1) co cos q1 q2 q3 q4 q5 q6.
Definition incr_combat_type_other_cnt (self : ForgottenHallNodeTeamScore) :=
  let '(mkScore a p s n ca cas co cos q1 q2 q3 q4 q5 q6) := self in
  mkScore a p s n ca cas (co + 1) cos q1 q2 q3 q4 q5 q6.
Definition incr_combat_type_other_cnt_under_silver (self : ForgottenHallNodeTeamScore) :=
  let '(mkScore a p s n ca cas co cos q1 q2 q3 q4 q5 q6) := self in
  mkScore a p s n ca cas co (cos + 1) q1 q2 q3 q4 q5 q6.
Definition set_scores (c a s p t tot : Q) (self : ForgottenHallNodeTeamScore) :=
  let '(mkScore a0 p0 s0 n ca cas co cos _ _ _ _ _ _) := self in
  mkScore a0 p0 s0 n ca cas co cos c a s p t tot.

(** [ForgottenHallNodeTeamScore._cal_need_combat_type]: returns the updated
    object and the list it returns.  [team_combat_type_not_in_need] is a
    Python set. *)
Definition _cal_need_combat_type (self : ForgottenHallNodeTeamScore)
    (character_list : list Character)
    (need_combat_type_list : list CharacterCombatType)
    : ForgottenHallNodeTeamScore * list CharacterCombatType :=
  if decide (SILVERWOLF ∈ character_list) then
    let team_combat_type_not_in_need : gset CharacterCombatType :=
      foldl (fun acc c =>
               if decide (combat_type c ∈ need_combat_type_list) then acc
               else acc ∪ {[combat_type c]})
            ∅ character_list in
    let self := set_combat_type_not_need_cnt (size team_combat_type_not_in_need) self in
    let cal := foldl (fun cal ct => cal ++ [ct]) [] need_combat_type_list in
    let cal := foldl (fun cal ct => cal ++ [ct]) cal (iter_combat_types team_combat_type_not_in_need) in
    (self, cal)
  else (self, need_combat_type_list).

(** One iteration of the loop of [_cal_character_cnt]. *)
Definition count_character (origin_combat_type_list cal_combat_type_list : list CharacterCombatType)
    (self : ForgottenHallNodeTeamScore) (c : Character) : ForgottenHallNodeTeamScore :=
  if decide (path c ∈ ATTACK_PATH_LIST) then
    let self := incr_attack_cnt self in
    if decide (combat_type c ∈ origin_combat_type_list) then incr_combat_type_attack_cnt self
    else if decide (combat_type c ∈ cal_combat_type_list)
         then incr_combat_type_attack_cnt_under_silver self
         else self
  else if decide (path c ∈ SURVIVAL_PATH_LIST) then
    let self := incr_survival_cnt self in
    if decide (combat_type c ∈ origin_combat_type_list) then incr_combat_type_other_cnt self
    else if decide (combat_type c ∈ cal_combat_type_list)
         then incr_combat_type_other_cnt_under_silver self
         else self
  else if decide (path c ∈ SUPPORT_PATH_LIST) then
    let self := incr_support_cnt self in
    if decide (combat_type c ∈ origin_combat_type_list) then incr_combat_type_other_cnt self
    else if decide (combat_type c ∈ cal_combat_type_list)
         then incr_combat_type_other_cnt_under_silver self
         else self
  else self.

(** [ForgottenHallNodeTeamScore._cal_character_cnt] *)
Definition _cal_character_cnt (self : ForgottenHallNodeTeamScore)
    (character_list : list Character)
    (origin_combat_type_list cal_combat_type_list : list CharacterCombatType)
    : ForgottenHallNodeTeamScore :=
  foldl (count_character origin_combat_type_list cal_combat_type_list) self character_list.

(** [ForgottenHallNodeTeamScore._cal_total_score] *)
Definition _cal_total_score (self : ForgottenHallNodeTeamScore) : ForgottenHallNodeTeamScore :=
  let cnt_base := 1e8%Q in
  let cnt_score := (Qnat (attack_cnt self + survival_cnt self + support_cnt self) * cnt_base)%Q in
  let attack_combat_type_base := 1e7%Q in
  let attack_normal_base := 1e6%Q in
  let attack_score := 0%Q in
  let attack_score :=
    if 0 <? attack_cnt self then (attack_score + attack_normal_base)%Q else attack_score in
  let attack_score :=
    if 0 <? combat_type_attack_cnt self then (attack_score + attack_combat_type_base)%Q
    else if (0 <? combat_type_attack_cnt_under_silver self) && (0 <? combat_type_not_need_cnt self)
    then (attack_score + 0.9 * attack_combat_type_base / Qnat (combat_type_not_need_cnt self))%Q
    else attack_score in
  let survival_base := 1e5%Q in
  let survival_score :=
    if 0 <? survival_cnt self then (node_survival_score self + survival_base)%Q
    else node_survival_score self in
  let support_base := 1e4%Q in
  let support_score := (Qnat (support_cnt self) * support_base)%Q in
  let combat_type_base := 1e3%Q in
  let combat_type_score :=
    (Qnat (combat_type_attack_cnt self + combat_type_other_cnt self) * combat_type_base)%Q in
  let combat_type_score :=
    if 0 <? combat_type_not_need_cnt self
    then (combat_type_score
          + 0.9 * Qnat (combat_type_attack_cnt_under_silver self
                        + combat_type_other_cnt_under_silver self)
            * combat_type_base / Qnat (combat_type_not_need_cnt self))%Q
    else combat_type_score in
  set_scores cnt_score attack_score survival_score support_score combat_type_score
    (cnt_score + attack_score + survival_score + support_score + combat_type_score)%Q
    self.

(** [ForgottenHallNodeTeamScore.__init__] *)
Definition node_team_score (node_team : ForgottenHallNodeTeam)
    (combat_type_list : list CharacterCombatType) : ForgottenHallNodeTeamScore :=
  let self := new_score in
  let character_list := node_character_list node_team in
  let '(self, cal_combat_type_list) :=
    _cal_need_combat_type self character_list combat_type_list in
  let self := _cal_character_cnt self character_list combat_type_list cal_combat_type_list in
  _cal_total_score self.

(** ** The score of a mission team *)

Definition set_scores_of_team (c a s p t tot : Q)
    (mt : ForgottenHallMissionTeam) : ForgottenHallMissionTeam :=
  {| total_node_cnt := total_node_cnt mt;
     node_combat_types := node_combat_types mt;
     node_team_list := node_team_list mt;
     cnt_score := c; attack_score := a; survival_score := s;
     support_score := p; combat_type_score := t; total_score := tot |}.

(** A [for] loop over a list, in the [outcome] monad. *)
Fixpoint for_each {A S : Type} (body : S -> A -> outcome S) (l : list A) (s : S)
    : outcome S :=
  match l with
  | [] => Return s
  | x :: l' => s' ← body s x; for_each body l' s'
  end.

(** [range(n)] *)
Definition range (n : nat) : list nat := seq 0 n.

(** The body of the loop of [update_score]. *)
Definition add_node_score (self : ForgottenHallMissionTeam) (i : nat)
    : outcome ForgottenHallMissionTeam :=
  node_team ← index (node_team_list self) i;
  combat_types ← index (node_combat_types self) i;
  let node := node_team_score node_team combat_types in
  Return (set_scores_of_team
            (cnt_score self + node_cnt_score node)%Q
            (attack_score self + node_attack_score node)%Q
            (survival_score self + node_survival_score node)%Q
            (support_score self + node_support_score node)%Q
            (combat_type_score self + node_combat_type_score node)%Q
            (total_score self + node_total_score node)%Q
            self).

(** [ForgottenHallMissionTeam.update_score] *)
Definition update_score (self : ForgottenHallMissionTeam)
    : outcome ForgottenHallMissionTeam :=
  let self := set_scores_of_team 0 0 0 0 0 0 self in
  if negb (valid_mission_team self) then Return self
  else for_each add_node_score (range (length (node_combat_types self))) self.

(** ** The search *)

(** [x < y] on floats. *)
Definition Qltb (x y : Q) : bool := negb (Qle_bool y x).

(** The body of the phase loop of [impossibly_greater]: the two flags
    [all_node_after_attack_and_silver] and [all_node_after_survival]. *)
Definition check_node_phase (current_mission_team : ForgottenHallMissionTeam)
    (flags : bool * bool) (i : nat) : outcome (bool * bool) :=
  node_team ← index (node_team_list current_mission_team) i;
  let '(all_node_after_attack_and_silver, all_node_after_survival) := flags in
  let all_node_after_attack_and_silver :=
    if node_dfs_phase node_team <=? 1 then false else all_node_after_attack_and_silver in
  let all_node_after_survival :=
    if node_dfs_phase node_team <=? 2 then false else all_node_after_survival in
  Return (all_node_after_attack_and_silver, all_node_after_survival).

(** [(8 - current_mission_team.character_cnt) * w]: the difference is a
    Python int and may be negative. *)
Definition remaining_bound (current_mission_team : ForgottenHallMissionTeam) (w : Q) : Q :=
  (inject_Z (8 - Z.of_nat (character_cnt current_mission_team)) * w)%Q.

(** [impossibly_greater]; [n] is the enclosing [total_node_cnt] and [best]
    the enclosing [best_mission_team].  It returns its verdict and the
    current team, whose score fields [update_score] may have rewritten. *)
Definition impossibly_greater (n : nat) (best_mission_team : option ForgottenHallMissionTeam)
    (current_mission_team : ForgottenHallMissionTeam)
    : outcome (bool * ForgottenHallMissionTeam) :=
  if negb (valid_mission_team current_mission_team) then Return (false, current_mission_team)
  else match best_mission_team with
  | None => Return (false, current_mission_team)
  | Some best =>
      current ← update_score current_mission_team;
      flags ← for_each (check_node_phase current) (range n) (true, true);
      let '(all_node_after_attack_and_silver, all_node_after_survival) := flags in
      if all_node_after_attack_and_silver
         && Qltb (attack_score current) (attack_score best)
      then Return (true, current)
      else if (all_node_after_survival : bool) then
        if Qltb (survival_score current) (survival_score best) then Return (true, current)
        else if Qltb (support_score current + remaining_bound current 1e4)%Q
                     (support_score best)
        then Return (true, current)
        else if Qeq_bool (support_score current + remaining_bound current 1e4)%Q
                         (support_score best)
        then
          if Qltb (combat_type_score current + remaining_bound current 1e3)%Q
                  (combat_type_score best)
          then Return (true, current)
          else Return (false, current)
        else Return (false, current)
      else Return (false, current)
  end.

(** The phase a module stamps on the node it joins. *)
Definition next_node_phase_of (module : ForgottenHallTeamModule) : nat :=
  let attack := with_attack module in
  let with_silver := with_silver module in
  let survival := with_survival module in
  let next_node_phase := 0 in
  let next_node_phase := if negb attack then 1 else next_node_phase in
  let next_node_phase := if negb attack && negb with_silver then 2 else next_node_phase in
  let next_node_phase :=
    if negb attack && negb with_silver && negb survival then 3 else next_node_phase in
  next_node_phase.

(** [node_team.node_dfs_phase = p] for the node at [node_idx]. *)
Definition set_phase_at (node_idx p : nat) (mt : ForgottenHallMissionTeam)
    : ForgottenHallMissionTeam :=
  set_node_team_list
    (alter (set_node_dfs_phase p) node_idx (node_team_list mt)) mt.

(** The calls of [dfs], as a tree: the team each call was entered with,
    its module index, and the calls it made in turn.  The tree is not
    part of the program; it is what the statements about search paths
    and about the order of the scored teams speak of. *)
#[local] Unset Elimination Schemes.
Inductive CallTree :=
  | Scored (idx : nat) (entered scored : ForgottenHallMissionTeam)
  | Unfilled (idx : nat) (entered : ForgottenHallMissionTeam)
  | Pruned (idx : nat) (entered : ForgottenHallMissionTeam)
  | Branch (idx : nat) (entered : ForgottenHallMissionTeam) (calls : list CallTree).
#[local] Set Elimination Schemes.

(** The state threaded through [dfs]: the team being built, the nonlocal
    [best_mission_team], and the calls made so far by the running call. *)
Definition SearchState : Type :=
  ForgottenHallMissionTeam * option ForgottenHallMissionTeam * list CallTree.

(** The base case of [dfs]: keep a deep copy of the current team when
    there is no best yet or its total score is strictly greater. *)
Definition update_best (best_mission_team : option ForgottenHallMissionTeam)
    (current_mission_team : ForgottenHallMissionTeam) : option ForgottenHallMissionTeam :=
  match best_mission_team with
  | None => Some current_mission_team
  | Some best =>
      if Qltb (total_score best) (total_score current_mission_team)
      then Some current_mission_team
      else Some best
  end.

(** One iteration of the loop [for node_idx in range(total_node_cnt)] of
    [dfs]; [recurse] is the call [dfs(current_mission_team,
    current_module_idx + 1)]. *)
Definition try_node
    (recurse : ForgottenHallMissionTeam -> option ForgottenHallMissionTeam ->
               outcome (ForgottenHallMissionTeam * option ForgottenHallMissionTeam * CallTree))
    (module : ForgottenHallTeamModule) (next_node_phase : nat)
    (st : SearchState) (node_idx : nat) : outcome SearchState :=
  let '(current, best, calls) := st in
  node_team ← index (node_team_list current) node_idx;
  if node_dfs_phase node_team <=? next_node_phase then
    '(added, current) ← add_to_node current node_idx module;
    if (added : bool) then
      let temp_phase := node_dfs_phase node_team in
      let current := set_phase_at node_idx next_node_phase current in
      '(current, best, call) ← recurse current best;
      let current := (pop_from_node current node_idx module).2 in
      let current := set_phase_at node_idx temp_phase current in
      Return (current, best, calls ++ [call])
    else Return (current, best, calls)
  else Return (current, best, calls).

(** [dfs].  The recursion is on the modules from [current_module_idx] on:
    [rest] is [config_module_list[current_module_idx:]], empty exactly
    when [current_module_idx == len(config_module_list)]. *)
Fixpoint dfs (n : nat) (rest : list ForgottenHallTeamModule) (current_module_idx : nat)
    (current_mission_team : ForgottenHallMissionTeam)
    (best_mission_team : option ForgottenHallMissionTeam)
    : outcome (ForgottenHallMissionTeam * option ForgottenHallMissionTeam * CallTree) :=
  match rest with
  | [] =>
      if valid_mission_team current_mission_team then
        current ← update_score current_mission_team;
        Return (current, update_best best_mission_team current,
                Scored current_module_idx current_mission_team current)
      else Return (current_mission_team, best_mission_team,
                   Unfilled current_module_idx current_mission_team)
  | module :: rest' =>
      '(pruned, current) ← impossibly_greater n best_mission_team current_mission_team;
      if (pruned : bool)
      then Return (current, best_mission_team, Pruned current_module_idx current_mission_team)
      else
        let next_node_phase := next_node_phase_of module in
        '(current, best, calls) ←
          for_each (try_node (dfs n rest' (current_module_idx + 1)) module next_node_phase)
                   (range n) (current, best_mission_team, []);
        '(current, best, call) ← dfs n rest' (current_module_idx + 1) current best;
        Return (current, best,
                Branch current_module_idx current_mission_team (calls ++ [call]))
  end.

(** [ForgottenHallApp.search_best_mission_team] *)
Definition search_best_mission_team
    (node_combat_types : list (list CharacterCombatType))
    (config_module_list : list ForgottenHallTeamModule)
    : outcome (option (list (list Character))) :=
  let total_node_cnt := length node_combat_types in
  '(_, best_mission_team, _) ←
    dfs total_node_cnt config_module_list 0 (new_mission_team node_combat_types) None;
  match best_mission_team with
  | None => Return None
  | Some best => Return (Some (character_list best))
  end.

End Mission.


(** * The score model as described

    The tallies and tiers of one node in the words of the description of
    the score model, over the characters of the node and the affinities
    the node requires; the properties below relate them to what the
    score object computes. *)

Section Description.

Context `{CharacterConst} {set_iteration : SetIteration}.

(** The registry hands out, under each id, the character of that id, and
    Silverwolf under her own. *)
Definition registry_coherent : Prop :=
  (forall i, id (get_character_by_id i) = i) /\
  get_character_by_id (id SILVERWOLF) = SILVERWOLF.

(** The three role categories are disjoint. *)
Definition roles_disjoint : Prop :=
  forall p : CharacterPath,
    ~ (p ∈ ATTACK_PATH_LIST /\ p ∈ SURVIVAL_PATH_LIST) /\
    ~ (p ∈ ATTACK_PATH_LIST /\ p ∈ SUPPORT_PATH_LIST) /\
    ~ (p ∈ SURVIVAL_PATH_LIST /\ p ∈ SUPPORT_PATH_LIST).

Definition is_attacker (c : Character) : bool :=
  bool_decide (path c ∈ ATTACK_PATH_LIST).
Definition is_survivor (c : Character) : bool :=
  bool_decide (path c ∈ SURVIVAL_PATH_LIST).
Definition is_supporter (c : Character) : bool :=
  bool_decide (path c ∈ SUPPORT_PATH_LIST).
Definition is_other (c : Character) : bool := is_survivor c || is_supporter c.

(** The number of characters with a property. *)
Definition count_where (p : Character -> bool) (chars : list Character) : nat :=
  length (List.filter p chars).

Definition attacker_count := count_where is_attacker.
Definition survivor_count := count_where is_survivor.
Definition support_count := count_where is_supporter.

(** The affinities Silverwolf grants: the distinct affinities of the
    node's characters that the node does not require; none without her. *)
Definition novel_affinities (chars : list Character)
    (need : list CharacterCombatType) : list CharacterCombatType :=
  remove_dups
    (List.filter (fun ct => negb (bool_decide (ct ∈ need))) (map combat_type chars)).

Definition extra_affinities (chars : list Character)
    (need : list CharacterCombatType) : list CharacterCombatType :=
  if bool_decide (SILVERWOLF ∈ chars) then novel_affinities chars need else [].

Definition extra_affinity_count (chars : list Character)
    (need : list CharacterCombatType) : nat :=
  length (extra_affinities chars need).

Definition in_original (need : list CharacterCombatType) (c : Character) : bool :=
  bool_decide (combat_type c ∈ need).
Definition in_extra (chars : list Character) (need : list CharacterCombatType)
    (c : Character) : bool :=
  bool_decide (combat_type c ∈ extra_affinities chars need).

Definition matched_original_attacker chars need :=
  count_where (fun c => is_attacker c && in_original need c) chars.
Definition matched_original_other chars need :=
  count_where (fun c => is_other c && in_original need c) chars.
Definition matched_extra_attacker chars need :=
  count_where (fun c => is_attacker c && in_extra chars need c) chars.
Definition matched_extra_other chars need :=
  count_where (fun c => is_other c && in_extra chars need c) chars.

Definition described_count_score (chars : list Character) : Q :=
  (Qnat (attacker_count chars + survivor_count chars + support_count chars) * 1e8)%Q.

Definition described_attack_score chars need : Q :=
  ((if 0 <? attacker_count chars then 1e6 else 0)
   + (if existsb (fun c => is_attacker c && in_original need c) chars then 1e7
      else if existsb (fun c => is_attacker c && in_extra chars need c) chars
              && (0 <? extra_affinity_count chars need)
      then 0.9 * 1e7 / Qnat (extra_affinity_count chars need)
      else 0))%Q.

Definition described_survival_score (chars : list Character) : Q :=
  if 0 <? survivor_count chars then 1e5%Q else 0%Q.

Definition described_support_score (chars : list Character) : Q :=
  (Qnat (support_count chars) * 1e4)%Q.

Definition described_affinity_score chars need : Q :=
  (Qnat (matched_original_attacker chars need + matched_original_other chars need) * 1e3
   + (if 0 <? extra_affinity_count chars need
      then 0.9 * Qnat (matched_extra_attacker chars need + matched_extra_other chars need)
           * 1e3 / Qnat (extra_affinity_count chars need)
      else 0))%Q.

Definition described_total_score chars need : Q :=
  (described_count_score chars + described_attack_score chars need
   + described_survival_score chars + described_support_score chars
   + described_affinity_score chars need)%Q.

(** The sum of a tier over the nodes of a mission. *)
Definition sum_over_nodes (tier : list Character -> list CharacterCombatType -> Q)
    (mt : ForgottenHallMissionTeam) : Q :=
  foldr Qplus 0%Q
    (zip_with (fun nt need => tier (node_character_list nt) need)
              (node_team_list mt) (node_combat_types mt)).

(** No character of [ids] occupies a node of [mt]. *)
Definition unplaced (mt : ForgottenHallMissionTeam) (ids : list string) : Prop :=
  forall nt i, nt ∈ node_team_list mt -> i ∈ ids -> i ∉ character_id_set nt.

(** The team after a successful [add_to_node]. *)
Definition added (mt : ForgottenHallMissionTeam) (node_num : nat)
    (nt : ForgottenHallNodeTeam) (module : ForgottenHallTeamModule)
    : ForgottenHallMissionTeam :=
  set_node_team_list (<[node_num := add_module nt module]> (node_team_list mt)) mt.

(** The six score fields, of a mission team, of the score object of a
    node, and as described. *)
Inductive Tier := CountTier | AttackTier | SurvivalTier | SupportTier | AffinityTier | Total.

Definition mission_tier (t : Tier) (mt : ForgottenHallMissionTeam) : Q :=
  match t with
  | CountTier => cnt_score mt
  | AttackTier => attack_score mt
  | SurvivalTier => survival_score mt
  | SupportTier => support_score mt
  | AffinityTier => combat_type_score mt
  | Total => total_score mt
  end.

Definition node_tier (t : Tier) (score : ForgottenHallNodeTeamScore) : Q :=
  match t with
  | CountTier => node_cnt_score score
  | AttackTier => node_attack_score score
  | SurvivalTier => node_survival_score score
  | SupportTier => node_support_score score
  | AffinityTier => node_combat_type_score score
  | Total => node_total_score score
  end.

Definition described_tier (t : Tier) (chars : list Character)
    (need : list CharacterCombatType) : Q :=
  match t with
  | CountTier => described_count_score chars
  | AttackTier => described_attack_score chars need
  | SurvivalTier => described_survival_score chars
  | SupportTier => described_support_score chars
  | AffinityTier => described_affinity_score chars need
  | Total => described_total_score chars need
  end.

(** Every node holds a character; some node holds none. *)
Definition every_node_filled (mt : ForgottenHallMissionTeam) : Prop :=
  forall nt, nt ∈ node_team_list mt -> character_id_set nt <> ∅.
Definition some_node_empty (mt : ForgottenHallMissionTeam) : Prop :=
  exists nt, nt ∈ node_team_list mt /\ character_id_set nt = ∅.

(** The class invariant set up by the constructor: one team and one
    requirement list per node. *)
Definition well_formed (mt : ForgottenHallMissionTeam) : Prop :=
  length (node_team_list mt) = length (node_combat_types mt).

(** Every node's phase marker is at least [p]. *)
Definition phases_at_least (p : nat) (mt : ForgottenHallMissionTeam) : Prop :=
  Forall (fun nt => p <= node_dfs_phase nt) (node_team_list mt).

(** The pruning condition as described, on a scored current team and the
    best team so far. *)
Definition prune_condition (best current : ForgottenHallMissionTeam) : Prop :=
  (phases_at_least 2 current /\ (attack_score current < attack_score best)%Q) \/
  (phases_at_least 3 current /\
   ((survival_score current < survival_score best)%Q \/
    (support_score current + inject_Z (8 - Z.of_nat (character_cnt current)) * 1e4
     < support_score best)%Q \/
    ((support_score current + inject_Z (8 - Z.of_nat (character_cnt current)) * 1e4
      == support_score best)%Q /\
     (combat_type_score current + inject_Z (8 - Z.of_nat (character_cnt current)) * 1e3
      < combat_type_score best)%Q))).

(** ** The calls of the search *)

(** The phase markers of the nodes of a team. *)
Definition phases (mt : ForgottenHallMissionTeam) : list nat :=
  map node_dfs_phase (node_team_list mt).

Definition root_idx (t : CallTree) : nat :=
  match t with
  | Scored idx _ _ | Unfilled idx _ | Pruned idx _ | Branch idx _ _ => idx
  end.

Definition root_team (t : CallTree) : ForgottenHallMissionTeam :=
  match t with
  | Scored _ entered _ | Unfilled _ entered | Pruned _ entered | Branch _ entered _ =>
      entered
  end.

(** The teams scored at the base case, in the order the search met them. *)
Fixpoint leaves (t : CallTree) : list ForgottenHallMissionTeam :=
  match t with
  | Scored _ _ scored => [scored]
  | Unfilled _ _ | Pruned _ _ => []
  | Branch _ _ calls => List.concat (List.map leaves calls)
  end.

(** [b] was called, directly or not, from within [a]. *)
Inductive descends : CallTree -> CallTree -> Prop :=
  | descends_here t : descends t t
  | descends_call idx entered calls c d :
      c ∈ calls -> descends c d -> descends (Branch idx entered calls) d.

(** A team within the capacity and uniqueness constraints: one team and
    one requirement list per node, at most four characters in a node, no
    character in two nodes. *)
Definition sound (n : nat) (mt : ForgottenHallMissionTeam) : Prop :=
  length (node_team_list mt) = n /\
  length (node_combat_types mt) = n /\
  Forall (fun nt => size (character_id_set nt) <= 4) (node_team_list mt) /\
  forall i j nti ntj, i <> j ->
    node_team_list mt !! i = Some nti -> node_team_list mt !! j = Some ntj ->
    character_id_set nti ## character_id_set ntj.

(** A module of category [cat] joins one node, whose phase marker is not
    above [cat] and becomes [cat]; or the module is skipped. *)
Definition placement (cat : nat) (parent child : list nat) : Prop :=
  child = parent \/
  exists k p, parent !! k = Some p /\ p <= cat /\ child = <[k := cat]> parent.

(** The shape of the calls of a search over [modules] with [n] nodes. *)
#[local] Unset Elimination Schemes.
Inductive search_tree (n : nat) (modules : list ForgottenHallTeamModule)
    : CallTree -> Prop :=
  | search_scored idx entered scored :
      idx = length modules ->
      sound n entered -> every_node_filled entered ->
      update_score entered = Return scored ->
      search_tree n modules (Scored idx entered scored)
  | search_unfilled idx entered :
      idx = length modules ->
      some_node_empty entered ->
      search_tree n modules (Unfilled idx entered)
  | search_pruned idx entered :
      idx < length modules ->
      search_tree n modules (Pruned idx entered)
  | search_branch idx module entered calls :
      modules !! idx = Some module ->
      Forall (fun c =>
                root_idx c = idx + 1 /\
                placement (next_node_phase_of module)
                          (phases entered) (phases (root_team c)) /\
                search_tree n modules c) calls ->
      search_tree n modules (Branch idx entered calls).
#[local] Set Elimination Schemes.

(** The first team of a list with the greatest total score. *)
Definition first_maximum (l : list ForgottenHallMissionTeam)
    (b : ForgottenHallMissionTeam) : Prop :=
  exists before after,
    l = before ++ b :: after /\
    (forall x, x ∈ before -> (total_score x < total_score b)%Q) /\
    (forall x, x ∈ after -> (total_score x <= total_score b)%Q).

(** ** Auxiliary notions of the proofs *)

(** What one character adds to each tally. *)
Definition tallies (self : ForgottenHallNodeTeamScore) : list nat :=
  [attack_cnt self; survival_cnt self; support_cnt self;
   combat_type_attack_cnt self; combat_type_attack_cnt_under_silver self;
   combat_type_other_cnt self; combat_type_other_cnt_under_silver self].

Definition first_role_survivor (c : Character) : bool :=
  negb (is_attacker c) && is_survivor c.
Definition first_role_supporter (c : Character) : bool :=
  negb (is_attacker c) && negb (is_survivor c) && is_supporter c.
Definition first_role_other (c : Character) : bool :=
  negb (is_attacker c) && is_other c.
Definition in_derived (need cal : list CharacterCombatType) (c : Character) : bool :=
  negb (in_original need c) && bool_decide (combat_type c ∈ cal).

Definition tally_of (need cal : list CharacterCombatType) (chars : list Character)
    : list nat :=
  [count_where is_attacker chars;
   count_where first_role_survivor chars;
   count_where first_role_supporter chars;
   count_where (fun c => is_attacker c && in_original need c) chars;
   count_where (fun c => is_attacker c && in_derived need cal c) chars;
   count_where (fun c => first_role_other c && in_original need c) chars;
   count_where (fun c => first_role_other c && in_derived need cal c) chars].

Definition untouched (self self' : ForgottenHallNodeTeamScore) : Prop :=
  combat_type_not_need_cnt self' = combat_type_not_need_cnt self /\
  node_cnt_score self' = node_cnt_score self /\
  node_attack_score self' = node_attack_score self /\
  node_survival_score self' = node_survival_score self /\
  node_support_score self' = node_support_score self /\
  node_combat_type_score self' = node_combat_type_score self /\
  node_total_score self' = node_total_score self.

Definition not_needed (need : list CharacterCombatType) (chars : list Character)
    : list CharacterCombatType :=
  List.filter (fun ct => negb (bool_decide (ct ∈ need))) (map combat_type chars).

(** Two teams with the same nodes: only the score fields may differ. *)
Definition same_nodes (mt mt' : ForgottenHallMissionTeam) : Prop :=
  total_node_cnt mt' = total_node_cnt mt /\
  node_combat_types mt' = node_combat_types mt /\
  node_team_list mt' = node_team_list mt.

(** The sum, over the nodes from [k] on, of a tier of the score objects. *)
Definition node_sum (t : Tier) (k : nat) (mt : ForgottenHallMissionTeam) : Q :=
  foldr Qplus 0%Q
    (zip_with (fun nt need => node_tier t (node_team_score nt need))
              (drop k (node_team_list mt)) (drop k (node_combat_types mt))).

(** The nodes are replaced by nodes with the same phase markers and
    fewer characters. *)
Definition shrinks (mt mt' : ForgottenHallMissionTeam) : Prop :=
  node_combat_types mt' = node_combat_types mt /\
  Forall2 (fun nt nt' => node_dfs_phase nt' = node_dfs_phase nt /\
                         character_id_set nt' ⊆ character_id_set nt)
          (node_team_list mt) (node_team_list mt').

(** A scored team that respects the constraints and fills every node. *)
Definition complete (n : nat) (mt : ForgottenHallMissionTeam) : Prop :=
  sound n mt /\ every_node_filled mt.

(** What a call of [dfs] at module index [idx] does. *)
Definition runs (n : nat) (modules : list ForgottenHallTeamModule) (idx : nat)
    (recurse : ForgottenHallMissionTeam -> option ForgottenHallMissionTeam ->
               outcome (ForgottenHallMissionTeam * option ForgottenHallMissionTeam * CallTree))
    : Prop :=
  forall mt best, sound n mt ->
    exists mt' best' tree,
      recurse mt best = Return (mt', best', tree) /\
      sound n mt' /\ phases mt' = phases mt /\
      root_idx tree = idx /\ root_team tree = mt /\
      search_tree n modules tree /\
      Forall (complete n) (leaves tree) /\
      best' = foldl update_best best (leaves tree).

(** The invariant of the loop over the nodes. *)
Definition loop_inv (n : nat) (modules : list ForgottenHallTeamModule) (idx : nat)
    (module : ForgottenHallTeamModule) (entered : ForgottenHallMissionTeam)
    (best0 : option ForgottenHallMissionTeam) (st : SearchState) : Prop :=
  sound n st.1.1 /\ phases st.1.1 = phases entered /\
  Forall (fun c =>
            root_idx c = idx + 1 /\
            placement (next_node_phase_of module)
                      (phases entered) (phases (root_team c)) /\
            search_tree n modules c) st.2 /\
  Forall (complete n) (List.concat (List.map leaves st.2)) /\
  st.1.2 = foldl update_best best0 (List.concat (List.map leaves st.2)).

End Description.

(** ** A roster to run the search on

    A small registry in the shape of [character_const]: the seven combat
    types, the seven paths split into the three role lists, and a few
    characters.  An id outside the roster is registered as a Destruction
    character of Physical type. *)

Module Roster.

Inductive combat := Physical | Fire | Ice | Lightning | Wind | Quantum | Imaginary.
Inductive role :=
  Destruction | Hunt | Erudition | Harmony | Nihility | Preservation | Abundance.

#[export] Instance combat_eq_dec : EqDecision combat.
Proof. solve_decision. Defined.
#[export] Instance role_eq_dec : EqDecision role.
Proof. solve_decision. Defined.

Definition combat_code (c : combat) : nat :=
  match c with
  | Physical => 0 | Fire => 1 | Ice => 2 | Lightning => 3
  | Wind => 4 | Quantum => 5 | Imaginary => 6
  end.

Definition combat_of_code (k : nat) : option combat :=
  match k with
  | 0 => Some Physical | 1 => Some Fire | 2 => Some Ice | 3 => Some Lightning
  | 4 => Some Wind | 5 => Some Quantum | 6 => Some Imaginary | _ => None
  end.

#[export] Instance combat_countable : Countable combat.
Proof. by apply (inj_countable combat_code combat_of_code); intros []. Defined.

#[export] Instance types : CharacterTypes :=
  {| CharacterCombatType := combat; CharacterPath := role |}.

Definition role_of (character_id : string) : role :=
  if String.eqb character_id "silverwolf" then Nihility
  else if String.eqb character_id "seele" then Hunt
  else if String.eqb character_id "himeko" then Erudition
  else if String.eqb character_id "yanqing" then Hunt
  else if String.eqb character_id "gepard" then Preservation
  else if String.eqb character_id "bailu" then Abundance
  else if String.eqb character_id "bronya" then Harmony
  else if String.eqb character_id "tingyun" then Harmony
  else if String.eqb character_id "asta" then Harmony
  else if String.eqb character_id "pela" then Nihility
  else Destruction.

Definition combat_of (character_id : string) : combat :=
  if String.eqb character_id "silverwolf" then Quantum
  else if String.eqb character_id "seele" then Quantum
  else if String.eqb character_id "himeko" then Fire
  else if String.eqb character_id "yanqing" then Ice
  else if String.eqb character_id "gepard" then Ice
  else if String.eqb character_id "bailu" then Lightning
  else if String.eqb character_id "bronya" then Wind
  else if String.eqb character_id "tingyun" then Lightning
  else if String.eqb character_id "asta" then Fire
  else if String.eqb character_id "pela" then Ice
  else Physical.

Definition lookup_character (character_id : string) : Character :=
  {| id := character_id; path := role_of character_id;
     combat_type := combat_of character_id |}.

#[export] Instance const : CharacterConst :=
  {| get_character_by_id := lookup_character;
     SILVERWOLF := lookup_character "silverwolf";
     ATTACK_PATH_LIST := [Destruction; Hunt; Erudition];
     SURVIVAL_PATH_LIST := [Preservation; Abundance];
     SUPPORT_PATH_LIST := [Harmony; Nihility] |}.

(** One iteration order, the one of the elements of the sets as [gset]
    lists them. *)
#[export] Instance iteration : SetIteration :=
  {| iter_ids := elements;
     iter_ids_elements := fun s => reflexivity (elements s);
     iter_combat_types := elements;
     iter_combat_types_elements := fun s => reflexivity (elements s) |}.

(** Another one, which meets the elements the other way round. *)
Definition reversed : SetIteration :=
  {| iter_ids := fun s => reverse (elements s);
     iter_ids_elements := fun s => reverse_Permutation (elements s);
     iter_combat_types := fun s => reverse (elements s);
     iter_combat_types_elements := fun s => reverse_Permutation (elements s) |}.

Definition team (name : string) (ids : list string) : ForgottenHallTeamModule :=
  {| module_name := name; module_combat_type := ""; module_type := "";
     character_id_list := ids |}.

(** Three modules in the order attack, survival, support, and a mission
    of one node that requires Fire. *)
Definition attack_team : ForgottenHallTeamModule := team "attack" ["himeko"; "yanqing"].
Definition survival_team : ForgottenHallTeamModule := team "survival" ["gepard"].
Definition support_team : ForgottenHallTeamModule :=
  team "support" ["bronya"; "tingyun"; "asta"].
Definition teams : list ForgottenHallTeamModule :=
  [attack_team; survival_team; support_team].
Definition fire_node : list (list CharacterCombatType) := [[Fire]].

(** The node after the survival module has joined it. *)
Definition gepard_node : ForgottenHallNodeTeam :=
  set_node_dfs_phase 2 (add_module new_node_team survival_team).
Definition gepard_placed : ForgottenHallMissionTeam :=
  set_phase_at 0 2 (added (new_mission_team fire_node) 0 new_node_team survival_team).

(** A node that holds Silverwolf and an Ice attacker. *)
Definition silverwolf_node : ForgottenHallNodeTeam :=
  add_module new_node_team (team "silver" ["silverwolf"; "yanqing"]).

End Roster.

(** * The rest of the team model *)

Section NodeTeamPredicates.

Context `{CharacterConst} {set_iteration : SetIteration}.

(** The nested loops of [ForgottenHallNodeTeam.with_attack],
    [with_survival] and [with_support], over the modules of the node and
    the ids of each module. *)
Fixpoint any_module_character (p : string -> bool)
    (modules : list ForgottenHallTeamModule) : bool :=
  match modules with
  | [] => false
  | module :: modules' =>
      if any_character p (character_id_list module) then true
      else any_module_character p modules'
  end.

(** [ForgottenHallNodeTeam.with_attack] *)
Definition node_with_attack (nt : ForgottenHallNodeTeam) : bool :=
  any_module_character is_attack_character (module_list nt).

(** [ForgottenHallNodeTeam.with_silver]: a loop over the id set. *)
Definition node_with_silver (nt : ForgottenHallNodeTeam) : bool :=
  any_character (fun character_id => bool_decide (character_id = id SILVERWOLF))
                (iter_ids (character_id_set nt)).

(** [ForgottenHallNodeTeam.with_survival] *)
Definition node_with_survival (nt : ForgottenHallNodeTeam) : bool :=
  any_module_character is_survival_character (module_list nt).

(** [ForgottenHallNodeTeam.with_support] *)
Definition node_with_support (nt : ForgottenHallNodeTeam) : bool :=
  any_module_character is_support_character (module_list nt).

(** The ids of the modules of a node, and the nodes whose id set is made
    of exactly those. *)
Definition module_ids (nt : ForgottenHallNodeTeam) : list string :=
  concat (map character_id_list (module_list nt)).

Definition tidy (nt : ForgottenHallNodeTeam) : Prop :=
  character_id_set nt = list_to_set (module_ids nt).

(** A module as the configuration is meant to hold it: at least one
    character, none twice. *)
Definition well_formed_module (module : ForgottenHallTeamModule) : Prop :=
  character_id_list module <> [] /\ NoDup (character_id_list module).

(** The category of the last module of a node, 0 for a node without
    modules. *)
Definition last_category (nt : ForgottenHallNodeTeam) : nat :=
  default 0 (next_node_phase_of <$> last (module_list nt)).

(** A node as the search builds it from the first [idx] modules of
    [modules]: its id set is made of the ids of its modules, which are
    taken from those first modules in their order, with categories that
    do not decrease, and its phase marker is the category of its last
    module. *)
Definition built_from (modules : list ForgottenHallTeamModule) (idx : nat)
    (nt : ForgottenHallNodeTeam) : Prop :=
  tidy nt /\
  sublist (module_list nt) (take idx modules) /\
  Sorted le (map next_node_phase_of (module_list nt)) /\
  node_dfs_phase nt = last_category nt.

(** What a call of [dfs] at module index [idx] does to the team it is
    given, for well-formed modules. *)
Definition restores (n : nat) (modules : list ForgottenHallTeamModule) (idx : nat)
    (recurse : ForgottenHallMissionTeam -> option ForgottenHallMissionTeam ->
               outcome (ForgottenHallMissionTeam * option ForgottenHallMissionTeam * CallTree))
    : Prop :=
  forall mt best,
    sound n mt -> Forall (built_from modules idx) (node_team_list mt) ->
    exists mt' best' tree,
      recurse mt best = Return (mt', best', tree) /\
      node_team_list mt' = node_team_list mt /\
      node_combat_types mt' = node_combat_types mt /\
      Forall (fun scored => Forall (built_from modules (length modules))
                                   (node_team_list scored))
             (leaves tree).

(** The invariant of the loop over the nodes, for well-formed modules. *)
Definition loop_restores (modules : list ForgottenHallTeamModule)
    (entered : ForgottenHallMissionTeam) (st : SearchState) : Prop :=
  node_team_list st.1.1 = node_team_list entered /\
  node_combat_types st.1.1 = node_combat_types entered /\
  Forall (fun scored => Forall (built_from modules (length modules))
                               (node_team_list scored))
         (List.concat (List.map leaves st.2)).

(** ** The calls of the search, as described *)

(** The node [k] of a team can take a module: its phase marker is not
    above the category of the module, the module fits in beside the
    characters of the node, and none of its characters is in a node of
    the team. *)
Definition placeable (module : ForgottenHallTeamModule)
    (entered : ForgottenHallMissionTeam) (k : nat) : Prop :=
  exists nt, node_team_list entered !! k = Some nt /\
    node_dfs_phase nt <= next_node_phase_of module /\
    size (character_id_set nt) + length (character_id_list module) <= 4 /\
    unplaced entered (character_id_list module).

(** The nodes of a team after a module has been placed in node [k]: the
    node holds the module and its characters, and its phase marker is
    the category of the module; the other nodes are as they were. *)
Definition placed_nodes (module : ForgottenHallTeamModule)
    (entered : ForgottenHallMissionTeam) (k : nat) : list ForgottenHallNodeTeam :=
  alter (fun nt =>
           {| module_list := module_list nt ++ [module];
              character_id_set :=
                character_id_set nt ∪ list_to_set (character_id_list module);
              node_dfs_phase := next_node_phase_of module |})
        k (node_team_list entered).

(** The calls made from a call entered with [entered], for the module at
    its index: one for each node that can take the module, in the order
    of the nodes, with the module placed there; and a last one with the
    nodes as they were at the entry, which skips the module. *)
Definition calls_as_described (n : nat) (module : ForgottenHallTeamModule)
    (entered : ForgottenHallMissionTeam) (calls : list CallTree) : Prop :=
  exists ks,
    sublist ks (range n) /\
    (forall k, k ∈ ks <-> placeable module entered k) /\
    map (fun c => node_team_list (root_team c)) calls
    = map (placed_nodes module entered) ks ++ [node_team_list entered].

(** What the search does at a call and below it, given the best team
    [best] found before the call, and the best team after it.  At the
    module count a team that fills every node is scored and compared
    with the best; a team that leaves a node empty is not.  Before the
    module count the call is cut when [impossibly_greater] says so of
    the best so far; otherwise it makes the calls described above, one
    after the other, each from the best team the one before left. *)
#[local] Unset Elimination Schemes.
Inductive visits (n : nat) (modules : list ForgottenHallTeamModule)
    : option ForgottenHallMissionTeam -> CallTree ->
      option ForgottenHallMissionTeam -> Prop :=
  | visits_scored best idx entered scored :
      idx = length modules ->
      every_node_filled entered ->
      update_score entered = Return scored ->
      visits n modules best (Scored idx entered scored) (update_best best scored)
  | visits_unfilled best idx entered :
      idx = length modules ->
      some_node_empty entered ->
      visits n modules best (Unfilled idx entered) best
  | visits_pruned best idx entered current :
      idx < length modules ->
      impossibly_greater n best entered = Return (true, current) ->
      visits n modules best (Pruned idx entered) best
  | visits_branch best idx module entered current calls best' :
      modules !! idx = Some module ->
      impossibly_greater n best entered = Return (false, current) ->
      calls_as_described n module entered calls ->
      Forall (fun c => root_idx c = idx + 1 /\
                       node_combat_types (root_team c) = node_combat_types entered)
             calls ->
      visits_calls n modules best calls best' ->
      visits n modules best (Branch idx entered calls) best'
with visits_calls (n : nat) (modules : list ForgottenHallTeamModule)
    : option ForgottenHallMissionTeam -> list CallTree ->
      option ForgottenHallMissionTeam -> Prop :=
  | visits_calls_nil best : visits_calls n modules best [] best
  | visits_calls_cons best call best1 calls best2 :
      visits n modules best call best1 ->
      visits_calls n modules best1 calls best2 ->
      visits_calls n modules best (call :: calls) best2.
#[local] Set Elimination Schemes.

(** What a call of [dfs] at module index [idx] does, for well-formed
    modules. *)
Definition explores (n : nat) (modules : list ForgottenHallTeamModule) (idx : nat)
    (recurse : ForgottenHallMissionTeam -> option ForgottenHallMissionTeam ->
               outcome (ForgottenHallMissionTeam * option ForgottenHallMissionTeam * CallTree))
    : Prop :=
  forall mt best mt' best' tree,
    sound n mt -> Forall (built_from modules idx) (node_team_list mt) ->
    recurse mt best = Return (mt', best', tree) ->
    visits n modules best tree best'.

(** The invariant of the loop over the nodes when it is about to try
    node [j], for well-formed modules. *)
Definition loop_explores (n : nat) (modules : list ForgottenHallTeamModule) (idx : nat)
    (module : ForgottenHallTeamModule) (entered : ForgottenHallMissionTeam)
    (best0 : option ForgottenHallMissionTeam) (j : nat) (st : SearchState) : Prop :=
  (exists ks,
     sublist ks (seq 0 j) /\
     (forall k, k ∈ ks <-> k < j /\ placeable module entered k) /\
     map (fun c => node_team_list (root_team c)) st.2
     = map (placed_nodes module entered) ks) /\
  Forall (fun c => root_idx c = idx + 1 /\
                   node_combat_types (root_team c) = node_combat_types entered)
         st.2 /\
  visits_calls n modules best0 st.2 st.1.2.

End NodeTeamPredicates.

(** * The run record, the application view and the mini map position *)

(** ** [ForgottenHallRecord]

    The two entries of the record's data that the class reads and writes:
    ['star'] and ['mission_stars'], each present or absent. *)
Record ForgottenHallRecord := {
  data_star : option Z;
  data_mission_stars : option (gmap Z Z);
}.

(** Modelled from the spec: [AppRunRecord.get] and [AppRunRecord.update],
    of the absent [sr.app], as the lookup with a default and the store of
    a key-value storage; [save] writes the data out and leaves them as
    they are. *)
Definition get_star (self : ForgottenHallRecord) (default_value : Z) : Z :=
  default default_value (data_star self).

Definition get_mission_stars (self : ForgottenHallRecord)
    (default_value : gmap Z Z) : gmap Z Z :=
  default default_value (data_mission_stars self).

Definition update_star (value : Z) (self : ForgottenHallRecord) : ForgottenHallRecord :=
  {| data_star := Some value; data_mission_stars := data_mission_stars self |}.

Definition update_mission_stars (value : gmap Z Z) (self : ForgottenHallRecord)
    : ForgottenHallRecord :=
  {| data_star := data_star self; data_mission_stars := Some value |}.

(** The property [star] and its setter. *)
Definition star (self : ForgottenHallRecord) : Z := get_star self 0.
Definition set_star (new_value : Z) (self : ForgottenHallRecord) : ForgottenHallRecord :=
  update_star new_value self.

(** The property [mission_stars]. *)
Definition mission_stars (self : ForgottenHallRecord) : gmap Z Z :=
  get_mission_stars self ∅.

(** [ForgottenHallRecord.get_mission_star] *)
Definition get_mission_star (self : ForgottenHallRecord) (mission_num : Z) : Z :=
  let stars := mission_stars self in
  match stars !! mission_num with
  | Some v => v
  | None => 0%Z
  end.

(** The loop [for v in stars.values(): total_star += v]. *)
Definition total_of (stars : gmap Z Z) : Z :=
  map_fold (fun _ v total_star => (total_star + v)%Z) 0%Z stars.

(** [ForgottenHallRecord.update_mission_star].  [stars[mission_num] = star]
    writes into the dictionary held by the data when there is one, and
    into a fresh one, stored afterwards, when there is none: either way
    the data hold the dictionary with the new entry. *)
Definition update_mission_star (self : ForgottenHallRecord) (mission_num star_value : Z)
    : ForgottenHallRecord :=
  let stars := mission_stars self in
  let stars := <[mission_num := star_value]> stars in
  let self :=
    match data_mission_stars self with
    | Some _ => update_mission_stars stars self
    | None => update_mission_stars stars self
    end in
  let total_star := total_of stars in
  let self := if (star self <? total_star)%Z then set_star total_star self else self in
  self.

(** [ForgottenHallRecord._should_reset_by_dt].  The date helpers
    [get_sunday_dt] and [dt_day_diff] of the absent [basic.os_utils] and
    the current date are taken as they come; [//] is the floor division
    of Python, which [Z.div] is for a positive divisor. *)
Definition _should_reset_by_dt
    (get_sunday_dt : string -> string) (dt_day_diff : string -> string -> Z)
    (self_dt current_dt : string) : bool :=
  let base_sunday := "20231126"%string in
  let old_sunday := get_sunday_dt self_dt in
  let old_sunday_day_diff := dt_day_diff old_sunday base_sunday in
  let old_sunday_week_diff := (old_sunday_day_diff / 7)%Z in
  let old_turn := (old_sunday_week_diff / 2)%Z in
  let current_sunday := get_sunday_dt current_dt in
  let current_sunday_day_diff := dt_day_diff current_sunday base_sunday in
  let current_sunday_week_diff := (current_sunday_day_diff / 7)%Z in
  let current_turn := (current_sunday_week_diff / 2)%Z in
  (old_turn <? current_turn)%Z.

(** ** [SrAppView]: the controls of the application card *)

Inductive RunningStatus := NotStarted | Running | Paused.

Record SrAppView := {
  running_status : RunningStatus;   (* the text of [running_status] *)
  running_visible : bool;           (* [running.visible], the progress ring *)
  start_btn_visible : bool;
  pause_btn_visible : bool;
  resume_btn_visible : bool;
  stop_btn_disabled : bool;
  shutdown_check : bool;            (* [shutdown_check.value] *)
}.

(** What a handler asks of its collaborators. *)
Inductive ViewEffect :=
  | ShowMessage | Update | RegisterStop | RegisterPause | StartThread
  | Unregister | ShutdownSys (seconds : Z) | ClearOutdatedDebugFiles (days : Z)
  | CancelShutdownSys.

(** [SrAppView.__init__] *)
Definition new_view : SrAppView :=
  {| running_status := NotStarted; running_visible := false;
     start_btn_visible := true; pause_btn_visible := false;
     resume_btn_visible := false; stop_btn_disabled := true;
     shutdown_check := false |}.

Definition set_controls (status : RunningStatus) (ring start pause resume stop : bool)
    (self : SrAppView) : SrAppView :=
  {| running_status := status; running_visible := ring;
     start_btn_visible := start; pause_btn_visible := pause;
     resume_btn_visible := resume; stop_btn_disabled := stop;
     shutdown_check := shutdown_check self |}.

(** [SrAppView.start]; [ctx_running] is [self.sr_ctx.running]. *)
Definition view_start (ctx_running : Z) (self : SrAppView) : SrAppView * list ViewEffect :=
  if negb (ctx_running =? 0)%Z then (self, [ShowMessage])
  else (set_controls Running true false true false false self,
        [Update; RegisterStop; RegisterPause; StartThread]).

(** [SrAppView.on_pause] *)
Definition view_on_pause (self : SrAppView) : SrAppView * list ViewEffect :=
  (set_controls Paused false false false true false self, [Update]).

(** [SrAppView.on_resume] *)
Definition view_on_resume (self : SrAppView) : SrAppView * list ViewEffect :=
  (set_controls Running true false true false false self, [Update]).

(** [SrAppView.after_stop] *)
Definition view_after_stop (self : SrAppView) : SrAppView * list ViewEffect :=
  (set_controls NotStarted false true false false true self,
   [Update; Unregister]
   ++ (if shutdown_check self then [ShutdownSys 60] else [])
   ++ [ClearOutdatedDebugFiles 3]).

(** The checkbox is set by the user, then [SrAppView.on_shutdown_changed]
    runs. *)
Definition view_on_shutdown_changed (value : bool) (self : SrAppView)
    : SrAppView * list ViewEffect :=
  let self :=
    {| running_status := running_status self; running_visible := running_visible self;
       start_btn_visible := start_btn_visible self;
       pause_btn_visible := pause_btn_visible self;
       resume_btn_visible := resume_btn_visible self;
       stop_btn_disabled := stop_btn_disabled self;
       shutdown_check := value |} in
  if negb (shutdown_check self) then (self, [CancelShutdownSys]) else (self, []).

(** The calls that reach the view. *)
Inductive ViewEvent :=
  | Start (ctx_running : Z) | OnPause | OnResume | AfterStop
  | ShutdownChanged (value : bool).

Definition handle (self : SrAppView) (e : ViewEvent) : SrAppView * list ViewEffect :=
  match e with
  | Start ctx_running => view_start ctx_running self
  | OnPause => view_on_pause self
  | OnResume => view_on_resume self
  | AfterStop => view_after_stop self
  | ShutdownChanged value => view_on_shutdown_changed value self
  end.

(** The view and the effects after a sequence of calls. *)
Definition handle_all (self : SrAppView) (events : list ViewEvent)
    : SrAppView * list ViewEffect :=
  foldl (fun st e => let '(view, effects) := handle st.1 e in (view, st.2 ++ effects))
        (self, []) events.

(** ** [cal_little_map_pos]: the largest circle *)

(** Modelled from the spec: [MiniMapPos] of the absent
    [sr.config.game_config], as the three numbers it is built from. *)
Record MiniMapPos := { mm_x : Z; mm_y : Z; mm_r : Z }.

(** The loop that keeps the circle of the greatest radius; [circles] is
    the array [circles[0, :]] of rounded (x, y, radius) rows. *)
Definition largest_circle (circles : list (Z * Z * Z)) : Z * Z * Z :=
  foldl (fun '(tx, ty, tr) '(x, y, r) =>
           if (tr <? r)%Z then (x, y, r) else (tx, ty, tr))
        (0, 0, 0)%Z circles.

(** [cal_little_map_pos], from the result of the circle detection:
    [None] when no circle was found. *)
Definition cal_little_map_pos (circles : option (list (Z * Z * Z)))
    : option MiniMapPos :=
  match circles with
  | Some circles =>
      let '(tx, ty, tr) := largest_circle circles in
      Some {| mm_x := tx; mm_y := ty; mm_r := tr |}
  | None => None
  end.

(** * Properties *)

Section Properties.

Context `{CharacterConst} {set_iteration : SetIteration}.

(** ** The iteration of sets *)

Lemma elem_of_iter_ids (s : gset string) i : i ∈ iter_ids s <-> i ∈ s.
Proof. by rewrite (iter_ids_elements s), elem_of_elements. Qed.

Lemma NoDup_iter_ids (s : gset string) : NoDup (iter_ids s).
Proof. rewrite (iter_ids_elements s). apply NoDup_elements. Qed.

Lemma length_iter_ids (s : gset string) : length (iter_ids s) = size s.
Proof. by rewrite (iter_ids_elements s). Qed.

Lemma elem_of_iter_combat_types (s : gset CharacterCombatType) ct :
  ct ∈ iter_combat_types s <-> ct ∈ s.
Proof. by rewrite (iter_combat_types_elements s), elem_of_elements. Qed.


Implicit Types (mt : ForgottenHallMissionTeam) (nt : ForgottenHallNodeTeam).
Implicit Types (module : ForgottenHallTeamModule) (ids : list string).

(** ** Outcomes *)

Lemma bind_Return {A B} (c : outcome A) (f : A -> outcome B) (b : B) :
  c ≫= f = Return b <-> exists a, c = Return a /\ f a = Return b.
Proof.
  destruct c as [a|]; simpl; split.
  - intros Hf. by exists a.
  - by intros (a' & [= <-] & Hf).
  - discriminate.
  - by intros (a' & [=] & _).
Qed.

Lemma index_Return {A} (l : list A) (i : nat) (a : A) :
  index l i = Return a <-> l !! i = Some a.
Proof. unfold index. destruct (l !! i); split; congruence. Qed.

Lemma index_lt {A} (l : list A) (i : nat) :
  i < length l -> exists a, index l i = Return a /\ l !! i = Some a.
Proof.
  intros Hi. destruct (lookup_lt_is_Some_2 l i Hi) as [a Ha].
  exists a. split; [by apply index_Return | done].
Qed.

(** ** Occupied characters *)

Lemma node_existed_characters_true nt ids :
  node_existed_characters nt ids = true <->
  exists i, i ∈ ids /\ i ∈ character_id_set nt.
Proof.
  induction ids as [|i ids IH]; simpl.
  - split; [discriminate | intros (i & Hi & _); by apply elem_of_nil in Hi].
  - destruct (decide (i ∈ character_id_set nt)) as [Hin|Hout].
    + split; [intros _; exists i; split; [left | done] | done].
    + rewrite IH. split.
      * intros (j & Hj & Hs). exists j. split; [by right | done].
      * intros (j & Hj & Hs). apply elem_of_cons in Hj as [-> | Hj]; [done |].
        by exists j.
Qed.

Lemma existed_characters_in_true (nts : list ForgottenHallNodeTeam) ids :
  existed_characters_in nts ids = true <->
  exists nt i, nt ∈ nts /\ i ∈ ids /\ i ∈ character_id_set nt.
Proof.
  induction nts as [|nt nts IH]; simpl.
  - split; [discriminate | intros (nt & i & Hnt & _); by apply elem_of_nil in Hnt].
  - destruct (node_existed_characters nt ids) eqn:E.
    + apply node_existed_characters_true in E as (i & Hi & Hs).
      split; [intros _ | done]. exists nt, i. split; [left | done].
    + rewrite IH. split.
      * intros (nt' & i & Hnt & Hi & Hs). exists nt', i. split; [by right | done].
      * intros (nt' & i & Hnt & Hi & Hs).
        apply elem_of_cons in Hnt as [-> | Hnt]; [| by exists nt', i].
        assert (node_existed_characters nt ids = true) as E'
          by (apply node_existed_characters_true; by exists i).
        congruence.
Qed.

Lemma existed_characters_false mt ids :
  existed_characters mt ids = false <-> unplaced mt ids.
Proof.
  unfold existed_characters, unplaced.
  destruct (existed_characters_in (node_team_list mt) ids) eqn:E.
  - apply existed_characters_in_true in E as (nt & i & Hnt & Hi & Hs).
    split; [discriminate | intros Hu; by destruct (Hu nt i)].
  - split; [intros _ nt i Hnt Hi Hs | done].
    assert (existed_characters_in (node_team_list mt) ids = true) as E'
      by (apply existed_characters_in_true; by exists nt, i).
    congruence.
Qed.

Lemma add_to_node_cases mt node_num module nt :
  node_team_list mt !! node_num = Some nt ->
  add_to_node mt node_num module =
    if 4 <? size (character_id_set nt) + length (character_id_list module)
    then Return (false, mt)
    else if existed_characters mt (character_id_list module)
    then Return (false, mt)
    else Return (true, added mt node_num nt module).
Proof.
  intros Hnt. unfold add_to_node.
  apply index_Return in Hnt. by rewrite Hnt.
Qed.

(** C6. A module none of whose characters occupies a node is rejected by
    [add_to_node] whenever the node's character count [c] and the module's
    size [k] have [c + k > 4] (so at [c + k = 5], and for a module of four
    when the node holds anyone), and the team is left as it was; at
    [c + k = 4] it is accepted, and the node receives the module. *)
Theorem add_to_node_capacity_boundary mt node_num module nt :
  node_team_list mt !! node_num = Some nt ->
  unplaced mt (character_id_list module) ->
  let c := size (character_id_set nt) in
  let k := length (character_id_list module) in
  (c + k > 4 -> add_to_node mt node_num module = Return (false, mt)) /\
  (c + k = 5 -> add_to_node mt node_num module = Return (false, mt)) /\
  (k = 4 -> c >= 1 -> add_to_node mt node_num module = Return (false, mt)) /\
  (c + k = 4 ->
   add_to_node mt node_num module = Return (true, added mt node_num nt module)).
Proof.
  intros Hnt Hfree c k.
  assert (c + k > 4 -> add_to_node mt node_num module = Return (false, mt)) as Hover.
  { intros Hck. rewrite (add_to_node_cases _ _ _ _ Hnt).
    fold c k. by destruct (Nat.ltb_spec 4 (c + k)); [| lia]. }
  repeat split.
  - exact Hover.
  - intros Hck. apply Hover. lia.
  - intros Hk Hc. apply Hover. lia.
  - intros Hck. rewrite (add_to_node_cases _ _ _ _ Hnt). fold c k.
    destruct (Nat.ltb_spec 4 (c + k)); [lia |].
    apply existed_characters_false in Hfree. by rewrite Hfree.
Qed.

(** C10. Whenever [add_to_node] returns false, the mission team it returns
    is the one it was given: no module list, character set or phase marker
    has changed.  It returns false exactly when the capacity would be
    exceeded or a character of the module occupies some node. *)
Theorem add_to_node_rejected_unchanged mt node_num module nt :
  node_team_list mt !! node_num = Some nt ->
  (forall mt', add_to_node mt node_num module = Return (false, mt') -> mt' = mt) /\
  ((exists mt', add_to_node mt node_num module = Return (false, mt')) <->
   size (character_id_set nt) + length (character_id_list module) > 4 \/
   ~ unplaced mt (character_id_list module)).
Proof.
  intros Hnt. rewrite (add_to_node_cases _ _ _ _ Hnt).
  rewrite <- existed_characters_false.
  destruct (Nat.ltb_spec 4 (size (character_id_set nt) + length (character_id_list module)))
    as [Hlt|Hge].
  - split; [by intros mt' [= <-] |]. split; [intros _; left; lia | by exists mt].
  - destruct (existed_characters mt (character_id_list module)).
    + split; [by intros mt' [= <-] |].
      split; [intros _; right; congruence | by exists mt].
    + split; [by intros mt' [=] |].
      split; [by intros (mt' & [=]) | intros [Hc | Hc]; [lia | done]].
Qed.

(** ** The tallies of [_cal_character_cnt] *)

Lemma count_where_cons (p : Character -> bool) c chars :
  count_where p (c :: chars) = (if p c then 1 else 0) + count_where p chars.
Proof. unfold count_where. simpl. by destruct (p c). Qed.

Lemma count_where_nil (p : Character -> bool) : count_where p [] = 0.
Proof. done. Qed.

Lemma count_where_pos (p : Character -> bool) chars :
  (0 <? count_where p chars) = existsb p chars.
Proof.
  induction chars as [|c chars IH]; [done |].
  rewrite count_where_cons. simpl. destruct (p c); simpl; [done | exact IH].
Qed.

Lemma count_character_tallies need cal self c :
  tallies (count_character need cal self c)
  = zip_with Nat.add (tallies self) (tally_of need cal [c]) /\
  untouched self (count_character need cal self c).
Proof.
  unfold count_character, tally_of, tallies, untouched.
  rewrite !count_where_cons. unfold count_where; simpl.
  unfold first_role_survivor, first_role_supporter, first_role_other, in_derived,
    is_other, is_attacker, is_survivor, is_supporter, in_original.
  rewrite !decide_bool_decide.
  destruct self; simpl.
  destruct (bool_decide (path c ∈ ATTACK_PATH_LIST)),
    (bool_decide (path c ∈ SURVIVAL_PATH_LIST)),
    (bool_decide (path c ∈ SUPPORT_PATH_LIST)),
    (bool_decide (combat_type c ∈ need)),
    (bool_decide (combat_type c ∈ cal));
    simpl; (split; [repeat f_equal; lia | done]).
Qed.

Lemma _cal_character_cnt_tallies need cal chars self :
  tallies (_cal_character_cnt self chars need cal)
  = zip_with Nat.add (tallies self) (tally_of need cal chars) /\
  untouched self (_cal_character_cnt self chars need cal).
Proof.
  unfold _cal_character_cnt.
  revert self. induction chars as [|c chars IH]; intros self.
  - simpl. split; [| done]. unfold tallies, tally_of, count_where. simpl.
    repeat f_equal; lia.
  - simpl. destruct (IH (count_character need cal self c)) as [IHt IHu].
    destruct (count_character_tallies need cal self c) as [Ht Hu].
    split.
    + rewrite IHt, Ht. unfold tally_of, tallies.
      rewrite !count_where_cons, !count_where_nil. simpl.
      repeat (apply (f_equal2 cons); [lia |]). done.
    + unfold untouched in *. intuition congruence.
Qed.

(** ** The derived affinity list of [_cal_need_combat_type] *)

Lemma foldl_append {A} (acc l : list A) :
  foldl (fun cal ct => cal ++ [ct]) acc l = acc ++ l.
Proof.
  revert acc. induction l as [|x l IH]; intros acc; simpl.
  - by rewrite app_nil_r.
  - rewrite IH. by rewrite <- app_assoc.
Qed.

Lemma foldl_not_in_need need chars (acc : gset CharacterCombatType) :
  foldl (fun acc c =>
           if decide (combat_type c ∈ need) then acc else acc ∪ {[combat_type c]})
        acc chars
  = acc ∪ list_to_set (not_needed need chars).
Proof.
  revert acc. induction chars as [|c chars IH]; intros acc; simpl.
  - unfold not_needed. simpl. by rewrite (right_id_L ∅ (∪)).
  - rewrite IH. unfold not_needed. simpl.
    destruct (decide (combat_type c ∈ need)) as [Hin|Hout].
    + by rewrite (bool_decide_eq_true_2 _ Hin).
    + rewrite (bool_decide_eq_false_2 _ Hout). simpl. by rewrite (assoc_L (∪)).
Qed.

Lemma elements_list_to_set_remove_dups (l : list CharacterCombatType) :
  (iter_combat_types (list_to_set l : gset CharacterCombatType)) ≡ₚ (remove_dups l).
Proof.
  rewrite iter_combat_types_elements.
  apply NoDup_Permutation.
  - apply NoDup_elements.
  - apply NoDup_remove_dups.
  - intros x. rewrite elem_of_elements, elem_of_list_to_set, elem_of_remove_dups. done.
Qed.

Lemma elem_of_not_needed need chars ct :
  ct ∈ not_needed need chars <->
  (ct ∉ need) /\ exists c, c ∈ chars /\ combat_type c = ct.
Proof.
  unfold not_needed. rewrite list_elem_of_In, filter_In, <- list_elem_of_In.
  rewrite list_elem_of_fmap. rewrite negb_true_iff, bool_decide_eq_false.
  split.
  - intros [(c & -> & Hc) Hn]. split; [done | by exists c].
  - intros [Hn (c & Hc & <-)]. split; [by exists c | done].
Qed.

Lemma _cal_need_combat_type_unfold self chars need :
  _cal_need_combat_type self chars need =
  if decide (SILVERWOLF ∈ chars)
  then (set_combat_type_not_need_cnt
          (size (list_to_set (not_needed need chars) : gset CharacterCombatType)) self,
        need ++ iter_combat_types
                  (list_to_set (not_needed need chars) : gset CharacterCombatType))
  else (self, need).
Proof.
  unfold _cal_need_combat_type. destruct (decide (SILVERWOLF ∈ chars)); [| done].
  rewrite !foldl_append, foldl_not_in_need. simpl.
  by rewrite (left_id_L ∅ (∪)).
Qed.

Lemma SILVERWOLF_in_node nt :
  registry_coherent ->
  SILVERWOLF ∈ node_character_list nt <-> id SILVERWOLF ∈ character_id_set nt.
Proof.
  intros [Hid Hsw]. unfold node_character_list.
  rewrite list_elem_of_fmap. setoid_rewrite elem_of_iter_ids. split.
  - intros (i & Heq & Hi). by rewrite Heq, Hid.
  - intros Hi. by exists (id SILVERWOLF).
Qed.

Lemma count_where_ext (p q : Character -> bool) chars :
  (forall c, c ∈ chars -> p c = q c) -> count_where p chars = count_where q chars.
Proof.
  induction chars as [|c chars IH]; intros Hpq; [done |].
  rewrite !count_where_cons, (Hpq c) by left.
  rewrite IH; [done |]. intros c' Hc'. apply Hpq. by right.
Qed.

(** The extra affinities are the derived list without the required ones. *)
Lemma in_derived_in_extra chars need c :
  in_derived need (_cal_need_combat_type new_score chars need).2 c
  = in_extra chars need c.
Proof.
  unfold in_derived, in_extra, in_original, extra_affinities, novel_affinities.
  rewrite _cal_need_combat_type_unfold.
  destruct (decide (SILVERWOLF ∈ chars)) as [Hs|Hs].
  - rewrite (bool_decide_eq_true_2 _ Hs). simpl.
    fold (not_needed need chars).
    destruct (decide (combat_type c ∈ need)) as [Hin|Hout].
    + rewrite (bool_decide_eq_true_2 _ Hin). simpl. symmetry.
      apply bool_decide_eq_false. rewrite elem_of_remove_dups, elem_of_not_needed.
      by intros [Hn _].
    + rewrite (bool_decide_eq_false_2 _ Hout). simpl.
      apply bool_decide_ext.
      rewrite elem_of_app, elem_of_iter_combat_types, elem_of_list_to_set,
        elem_of_remove_dups.
      tauto.
  - rewrite (bool_decide_eq_false_2 _ Hs). simpl.
    destruct (decide (combat_type c ∈ need)) as [Hin|Hout].
    + by rewrite (bool_decide_eq_true_2 _ Hin).
    + by rewrite (bool_decide_eq_false_2 _ Hout).
Qed.

Lemma not_need_cnt_extra chars need :
  combat_type_not_need_cnt (_cal_need_combat_type new_score chars need).1
  = extra_affinity_count chars need.
Proof.
  unfold extra_affinity_count, extra_affinities, novel_affinities.
  rewrite _cal_need_combat_type_unfold.
  destruct (decide (SILVERWOLF ∈ chars)) as [Hs|Hs].
  - rewrite (bool_decide_eq_true_2 _ Hs). simpl.
    fold (not_needed need chars).
    rewrite <- (Permutation_length (elements_list_to_set_remove_dups _)).
    by rewrite (iter_combat_types_elements _).
  - by rewrite (bool_decide_eq_false_2 _ Hs).
Qed.

(** ** The fields of the score object *)

Lemma _cal_total_score_fields self :
  let self' := _cal_total_score self in
  tallies self' = tallies self /\
  combat_type_not_need_cnt self' = combat_type_not_need_cnt self /\
  node_cnt_score self'
  = (Qnat (attack_cnt self + survival_cnt self + support_cnt self) * 1e8)%Q /\
  node_attack_score self'
  = (let a := if 0 <? attack_cnt self then (0 + 1e6)%Q else 0%Q in
     if 0 <? combat_type_attack_cnt self then (a + 1e7)%Q
     else if (0 <? combat_type_attack_cnt_under_silver self)
             && (0 <? combat_type_not_need_cnt self)
     then (a + 0.9 * 1e7 / Qnat (combat_type_not_need_cnt self))%Q
     else a) /\
  node_survival_score self'
  = (if 0 <? survival_cnt self then (node_survival_score self + 1e5)%Q
     else node_survival_score self) /\
  node_support_score self' = (Qnat (support_cnt self) * 1e4)%Q /\
  node_combat_type_score self'
  = (let t := (Qnat (combat_type_attack_cnt self + combat_type_other_cnt self) * 1e3)%Q in
     if 0 <? combat_type_not_need_cnt self
     then (t + 0.9 * Qnat (combat_type_attack_cnt_under_silver self
                           + combat_type_other_cnt_under_silver self)
               * 1e3 / Qnat (combat_type_not_need_cnt self))%Q
     else t) /\
  node_total_score self'
  = (node_cnt_score self' + node_attack_score self' + node_survival_score self'
     + node_support_score self' + node_combat_type_score self')%Q.
Proof. destruct self. cbv zeta. unfold _cal_total_score, tallies. cbn -[Qplus Qmult Qdiv Qnat Nat.ltb].
  repeat split; reflexivity.
Qed.

Lemma first_role_other_is_other c :
  roles_disjoint -> first_role_other c = is_other c.
Proof.
  intros Hd. unfold first_role_other, is_other, is_attacker, is_survivor, is_supporter.
  destruct (Hd (path c)) as (Has & Hap & _).
  repeat case_bool_decide; simpl; try done; tauto.
Qed.

Lemma first_role_survivor_is_survivor c :
  roles_disjoint -> first_role_survivor c = is_survivor c.
Proof.
  intros Hd. unfold first_role_survivor, is_attacker, is_survivor.
  destruct (Hd (path c)) as (Has & _).
  repeat case_bool_decide; simpl; try done; tauto.
Qed.

Lemma first_role_supporter_is_supporter c :
  roles_disjoint -> first_role_supporter c = is_supporter c.
Proof.
  intros Hd. unfold first_role_supporter, is_attacker, is_survivor, is_supporter.
  destruct (Hd (path c)) as (_ & Hap & Hsp).
  repeat case_bool_decide; simpl; try done; tauto.
Qed.

(** The tallies of the score object of a node are the described ones. *)
Lemma node_team_score_tallies nt need :
  roles_disjoint ->
  let chars := node_character_list nt in
  let score := node_team_score nt need in
  attack_cnt score = attacker_count chars /\
  survival_cnt score = survivor_count chars /\
  support_cnt score = support_count chars /\
  combat_type_attack_cnt score = matched_original_attacker chars need /\
  combat_type_attack_cnt_under_silver score = matched_extra_attacker chars need /\
  combat_type_other_cnt score = matched_original_other chars need /\
  combat_type_other_cnt_under_silver score = matched_extra_other chars need /\
  combat_type_not_need_cnt score = extra_affinity_count chars need.
Proof.
  intros Hd chars score. unfold score, node_team_score. fold chars.
  pose proof (not_need_cnt_extra chars need) as Hn.
  pose proof (in_derived_in_extra chars need) as Hx.
  destruct (_cal_need_combat_type new_score chars need) as [self cal] eqn:E.
  simpl in Hn, Hx.
  destruct (_cal_total_score_fields (_cal_character_cnt self chars need cal))
    as (Ht & Hc & _).
  destruct (_cal_character_cnt_tallies need cal chars self) as (Hf & Hu & _).
  assert (tallies self = [0; 0; 0; 0; 0; 0; 0]) as Hz.
  { revert E. rewrite _cal_need_combat_type_unfold.
    destruct (decide (SILVERWOLF ∈ chars)); by intros [= <- _]. }
  rewrite Hf, Hz in Ht. unfold tallies, tally_of in Ht. simpl in Ht.
  injection Ht as H1 H2 H3 H4 H5 H6 H7.
  rewrite Hc, Hu, Hn.
  unfold attacker_count, survivor_count, support_count, matched_original_attacker,
    matched_extra_attacker, matched_original_other, matched_extra_other.
  rewrite H1, H2, H3, H4, H5, H6, H7.
  repeat split.
  - apply count_where_ext. intros c _. by apply first_role_survivor_is_survivor.
  - apply count_where_ext. intros c _. by apply first_role_supporter_is_supporter.
  - apply count_where_ext. intros c _. by rewrite Hx.
  - apply count_where_ext. intros c _. by rewrite first_role_other_is_other.
  - apply count_where_ext. intros c _. by rewrite first_role_other_is_other, Hx.
Qed.

Lemma node_team_score_survival nt need :
  node_survival_score (node_team_score nt need)
  = if 0 <? survival_cnt (node_team_score nt need) then (0 + 1e5)%Q else 0%Q.
Proof.
  unfold node_team_score.
  destruct (_cal_need_combat_type new_score (node_character_list nt) need)
    as [self cal] eqn:E.
  set (counted := _cal_character_cnt self (node_character_list nt) need cal).
  destruct (_cal_total_score_fields counted) as (Ht & _ & _ & _ & Hs & _).
  assert (node_survival_score counted = 0%Q) as Hz.
  { destruct (_cal_character_cnt_tallies need cal (node_character_list nt) self)
      as (_ & _ & _ & _ & Hsv & _).
    unfold counted. rewrite Hsv. revert E. rewrite _cal_need_combat_type_unfold.
    destruct (decide (SILVERWOLF ∈ node_character_list nt)); by intros [= <- _]. }
  rewrite Hs, Hz.
  unfold tallies in Ht. by injection Ht as _ -> _.
Qed.

(** The score fields of the score object, from its own tallies. *)
Lemma node_team_score_scores nt need :
  let score := node_team_score nt need in
  node_cnt_score score
  = (Qnat (attack_cnt score + survival_cnt score + support_cnt score) * 1e8)%Q /\
  node_attack_score score
  = (let a := if 0 <? attack_cnt score then (0 + 1e6)%Q else 0%Q in
     if 0 <? combat_type_attack_cnt score then (a + 1e7)%Q
     else if (0 <? combat_type_attack_cnt_under_silver score)
             && (0 <? combat_type_not_need_cnt score)
     then (a + 0.9 * 1e7 / Qnat (combat_type_not_need_cnt score))%Q
     else a) /\
  node_support_score score = (Qnat (support_cnt score) * 1e4)%Q /\
  node_combat_type_score score
  = (let t := (Qnat (combat_type_attack_cnt score + combat_type_other_cnt score) * 1e3)%Q in
     if 0 <? combat_type_not_need_cnt score
     then (t + 0.9 * Qnat (combat_type_attack_cnt_under_silver score
                           + combat_type_other_cnt_under_silver score)
               * 1e3 / Qnat (combat_type_not_need_cnt score))%Q
     else t) /\
  node_total_score score
  = (node_cnt_score score + node_attack_score score + node_survival_score score
     + node_support_score score + node_combat_type_score score)%Q.
Proof.
  intros score. unfold score, node_team_score.
  destruct (_cal_need_combat_type new_score (node_character_list nt) need)
    as [self cal].
  destruct (_cal_total_score_fields
              (_cal_character_cnt self (node_character_list nt) need cal))
    as (Ht & Hc & H1 & H2 & _ & H4 & H5 & H6).
  unfold tallies in Ht. injection Ht as -> -> -> -> -> -> ->. rewrite Hc.
  done.
Qed.

(** Each tier of the score object of a node is the described one. *)
Lemma node_tier_described nt need t :
  roles_disjoint ->
  (node_tier t (node_team_score nt need)
   == described_tier t (node_character_list nt) need)%Q.
Proof.
  intros Hd.
  destruct (node_team_score_tallies nt need Hd)
    as (Ha & Hs & Hp & Hca & Hcas & Hco & Hcos & Hn).
  destruct (node_team_score_scores nt need) as (Hcnt & Hatt & Hsup & Haff & Htot).
  pose proof (node_team_score_survival nt need) as Hsur.
  set (chars := node_character_list nt) in *.
  set (score := node_team_score nt need) in *.
  assert (node_cnt_score score == described_count_score chars)%Q as Ecnt.
  { rewrite Hcnt, Ha, Hs, Hp. reflexivity. }
  assert (node_attack_score score == described_attack_score chars need)%Q as Eatt.
  { rewrite Hatt, Ha, Hca, Hcas, Hn. unfold described_attack_score. cbv zeta.
    unfold attacker_count, matched_original_attacker, matched_extra_attacker.
    rewrite !count_where_pos.
    destruct (existsb is_attacker chars),
      (existsb (fun c => is_attacker c && in_original need c) chars),
      (existsb (fun c => is_attacker c && in_extra chars need c) chars),
      (0 <? extra_affinity_count chars need); simpl; ring. }
  assert (node_survival_score score == described_survival_score chars)%Q as Esur.
  { rewrite Hsur, Hs. unfold described_survival_score.
    destruct (0 <? survivor_count chars); [ring | reflexivity]. }
  assert (node_support_score score == described_support_score chars)%Q as Esup.
  { rewrite Hsup, Hp. reflexivity. }
  assert (node_combat_type_score score == described_affinity_score chars need)%Q as Eaff.
  { rewrite Haff, Hca, Hcas, Hco, Hcos, Hn. unfold described_affinity_score. cbv zeta.
    destruct (0 <? extra_affinity_count chars need); [reflexivity | ring]. }
  destruct t; simpl; try done.
  rewrite Htot, Ecnt, Eatt, Esur, Esup, Eaff. reflexivity.
Qed.

(** C4. In a node that holds Silverwolf the list used for scoring is the
    required list followed by the distinct affinities of the node's
    characters that are not required, and [combat_type_not_need_cnt] is
    their number (1 when a single novel affinity occurs); without her the
    list is the required one and the count is 0; and the affinity tier is
    [(matched_original_attacker + matched_original_other) * 1e3] plus, for
    a positive count, [0.9 * (matched_extra_attacker + matched_extra_other)
    * 1e3 / extra_affinity_count]. *)
Theorem silverwolf_widening nt need :
  registry_coherent -> roles_disjoint ->
  let chars := node_character_list nt in
  let derived := (_cal_need_combat_type new_score chars need).2 in
  let score := node_team_score nt need in
  (id SILVERWOLF ∈ character_id_set nt ->
     (exists extras, derived = need ++ extras /\ extras ≡ₚ novel_affinities chars need) /\
     (forall ct, ct ∈ derived <->
                 ct ∈ need \/ exists c, c ∈ chars /\ combat_type c = ct) /\
     combat_type_not_need_cnt score = length (novel_affinities chars need) /\
     (forall ct, ct ∉ need ->
        (exists c, c ∈ chars /\ combat_type c = ct) ->
        (forall c, c ∈ chars -> combat_type c ∈ need \/ combat_type c = ct) ->
        combat_type_not_need_cnt score = 1)) /\
  (id SILVERWOLF ∉ character_id_set nt ->
     derived = need /\ combat_type_not_need_cnt score = 0) /\
  combat_type_not_need_cnt score = extra_affinity_count chars need /\
  (node_combat_type_score score == described_affinity_score chars need)%Q.
Proof.
  intros Hreg Hd chars derived score.
  destruct (node_team_score_tallies nt need Hd)
    as (_ & _ & _ & Hca & Hcas & Hco & Hcos & Hn).
  fold chars score in Hca, Hcas, Hco, Hcos, Hn.
  assert (extra_affinity_count chars need
          = if decide (SILVERWOLF ∈ chars)
            then length (novel_affinities chars need) else 0) as Hcount.
  { unfold extra_affinity_count, extra_affinities.
    destruct (decide (SILVERWOLF ∈ chars)) as [Hs|Hs].
    - by rewrite (bool_decide_eq_true_2 _ Hs).
    - by rewrite (bool_decide_eq_false_2 _ Hs). }
  assert (derived = if decide (SILVERWOLF ∈ chars)
                    then need ++ iter_combat_types
                                   (list_to_set (not_needed need chars)
                                    : gset CharacterCombatType)
                    else need) as Hder.
  { unfold derived. rewrite _cal_need_combat_type_unfold.
    by destruct (decide (SILVERWOLF ∈ chars)). }
  split; [| split; [| split]].
  - intros Hs. apply (SILVERWOLF_in_node nt Hreg) in Hs. fold chars in Hs.
    rewrite decide_True in Hcount by done. rewrite decide_True in Hder by done.
    split; [| split; [| split]].
    + eexists. split; [exact Hder |]. apply elements_list_to_set_remove_dups.
    + intros ct.
      rewrite Hder, elem_of_app, elem_of_iter_combat_types, elem_of_list_to_set.
      rewrite elem_of_not_needed. destruct (decide (ct ∈ need)); tauto.
    + by rewrite Hn.
    + intros ct Hct (c & Hc & Hcc) Hall. rewrite Hn, Hcount.
      unfold novel_affinities. fold (not_needed need chars).
      pose proof (NoDup_remove_dups (not_needed need chars)) as Hnd.
      assert (forall x, x ∈ remove_dups (not_needed need chars) -> x = ct) as Hone.
      { intros x. rewrite elem_of_remove_dups, elem_of_not_needed.
        intros (Hx & c' & Hc' & <-). by destruct (Hall c' Hc'). }
      assert (ct ∈ remove_dups (not_needed need chars)) as Hin.
      { rewrite elem_of_remove_dups, elem_of_not_needed. split; [done | by exists c]. }
      destruct (remove_dups (not_needed need chars)) as [|x [|y l]].
      * by apply elem_of_nil in Hin.
      * done.
      * exfalso. apply NoDup_cons in Hnd as [Hx _]. apply Hx.
        rewrite (Hone x) by left. rewrite (Hone y) by (right; left). left.
  - intros Hs. rewrite <- (SILVERWOLF_in_node nt Hreg) in Hs. fold chars in Hs.
    rewrite decide_False in Hcount by done. rewrite decide_False in Hder by done. split; [done | by rewrite Hn].
  - exact Hn.
  - apply (node_tier_described nt need AffinityTier Hd).
Qed.

(** ** The score of a mission team *)

Lemma all_nodes_filled_true (nts : list ForgottenHallNodeTeam) :
  all_nodes_filled nts = true <-> forall nt, nt ∈ nts -> character_id_set nt <> ∅.
Proof.
  induction nts as [|nt nts IH]; simpl.
  - split; [intros _ nt Hnt; by apply elem_of_nil in Hnt | done].
  - unfold node_character_cnt.
    destruct (Nat.eqb_spec (size (character_id_set nt)) 0) as [Hz|Hnz].
    + apply size_empty_iff, leibniz_equiv in Hz.
      split; [discriminate | intros Hall]. destruct (Hall nt); [left | done].
    + rewrite IH. split.
      * intros Hall nt' [-> | Hnt']%elem_of_cons; [| by apply Hall].
        intros Hempty. apply Hnz. by rewrite Hempty, size_empty.
      * intros Hall nt' Hnt'. apply Hall. by right.
Qed.

Lemma valid_mission_team_true mt :
  valid_mission_team mt = true <-> every_node_filled mt.
Proof. apply all_nodes_filled_true. Qed.

Lemma valid_mission_team_false mt :
  valid_mission_team mt = false <-> some_node_empty mt.
Proof.
  unfold valid_mission_team, some_node_empty.
  induction (node_team_list mt) as [|nt nts IH]; simpl.
  - split; [discriminate | intros (nt & Hnt & _); by apply elem_of_nil in Hnt].
  - unfold node_character_cnt.
    destruct (Nat.eqb_spec (size (character_id_set nt)) 0) as [Hz|Hnz].
    + apply size_empty_iff, leibniz_equiv in Hz.
      split; [intros _ | done]. exists nt. split; [left | done].
    + rewrite IH. split.
      * intros (nt' & Hnt' & He). exists nt'. split; [by right | done].
      * intros (nt' & [-> | Hnt']%elem_of_cons & He); [| by exists nt'].
        exfalso. apply Hnz. by rewrite He, size_empty.
Qed.

(** The part of a mission team that the search changes, and the part
    that scoring changes. *)
Lemma set_scores_of_team_tier c a s p t tot mt tier :
  mission_tier tier (set_scores_of_team c a s p t tot mt)
  = match tier with
    | CountTier => c | AttackTier => a | SurvivalTier => s
    | SupportTier => p | AffinityTier => t | Total => tot
    end.
Proof. by destruct tier. Qed.

Lemma same_nodes_refl mt : same_nodes mt mt.
Proof. done. Qed.

Lemma same_nodes_trans mt1 mt2 mt3 :
  same_nodes mt1 mt2 -> same_nodes mt2 mt3 -> same_nodes mt1 mt3.
Proof. unfold same_nodes. intuition congruence. Qed.

Lemma add_node_score_Return self i nt need :
  node_team_list self !! i = Some nt ->
  node_combat_types self !! i = Some need ->
  exists self', add_node_score self i = Return self' /\
    same_nodes self self' /\
    forall t, mission_tier t self'
              = (mission_tier t self + node_tier t (node_team_score nt need))%Q.
Proof.
  intros Hnt Hneed. unfold add_node_score.
  apply index_Return in Hnt, Hneed. rewrite Hnt, Hneed. simpl.
  eexists. split; [done |]. split; [done |]. by intros [].
Qed.

Lemma node_sum_step t k mt nt need :
  node_team_list mt !! k = Some nt ->
  node_combat_types mt !! k = Some need ->
  node_sum t k mt = (node_tier t (node_team_score nt need) + node_sum t (S k) mt)%Q.
Proof.
  intros Hnt Hneed. unfold node_sum.
  by rewrite (drop_S _ _ _ Hnt), (drop_S _ _ _ Hneed).
Qed.

Lemma node_sum_end t k mt :
  length (node_team_list mt) <= k -> node_sum t k mt = 0%Q.
Proof. intros Hk. unfold node_sum. by rewrite drop_ge. Qed.

Lemma for_each_add_node_score m : forall k self,
  well_formed self ->
  k + m = length (node_team_list self) ->
  exists self', for_each add_node_score (seq k m) self = Return self' /\
    same_nodes self self' /\
    forall t, (mission_tier t self' == mission_tier t self + node_sum t k self)%Q.
Proof.
  induction m as [|m IH]; intros k self Hwf Hk; simpl.
  - exists self. split; [done |]. split; [done |]. intros t.
    rewrite node_sum_end by lia. ring.
  - destruct (lookup_lt_is_Some_2 (node_team_list self) k) as [nt Hnt]; [lia |].
    destruct (lookup_lt_is_Some_2 (node_combat_types self) k) as [need Hneed].
    { unfold well_formed in Hwf. lia. }
    destruct (add_node_score_Return self k nt need Hnt Hneed)
      as (self1 & -> & Hsame & Htier).
    simpl. destruct Hsame as (Hn & Hc & Hl).
    destruct (IH (S k) self1) as (self' & -> & Hsame' & Htier').
    { unfold well_formed. by rewrite Hl, Hc. }
    { rewrite Hl. lia. }
    exists self'. split; [done |].
    split; [by apply (same_nodes_trans _ self1) |].
    intros t. rewrite Htier', Htier.
    rewrite (node_sum_step t k self nt need Hnt Hneed).
    assert (node_sum t (S k) self1 = node_sum t (S k) self) as ->
      by (unfold node_sum; by rewrite Hl, Hc).
    ring.
Qed.

Lemma update_score_Return mt :
  well_formed mt ->
  exists mt', update_score mt = Return mt' /\
    same_nodes mt mt' /\
    (valid_mission_team mt = true ->
     forall t, (mission_tier t mt' == node_sum t 0 mt)%Q) /\
    (valid_mission_team mt = false -> forall t, mission_tier t mt' = 0%Q).
Proof.
  intros Hwf. unfold update_score.
  set (reset := set_scores_of_team 0 0 0 0 0 0 mt).
  assert (valid_mission_team reset = valid_mission_team mt) as -> by done.
  destruct (valid_mission_team mt); simpl.
  - destruct (for_each_add_node_score (length (node_combat_types reset)) 0 reset)
      as (mt' & Hrun & Hsame & Htier);
      [done | unfold well_formed in Hwf; simpl; lia |].
    exists mt'. split; [exact Hrun |]. split; [exact Hsame |].
    split; [| done]. intros _ t. rewrite Htier.
    assert (mission_tier t reset = 0%Q) as -> by by destruct t.
    assert (node_sum t 0 reset = node_sum t 0 mt) as -> by done. ring.
  - exists reset. split; [done |]. split; [done |].
    split; [done |]. intros _ t. by destruct t.
Qed.

Lemma node_sum_described t mt :
  roles_disjoint -> (node_sum t 0 mt == sum_over_nodes (described_tier t) mt)%Q.
Proof.
  intros Hd. unfold node_sum, sum_over_nodes. rewrite !drop_0.
  generalize (node_combat_types mt).
  induction (node_team_list mt) as [|nt nts IH]; intros [|need needs]; simpl;
    try reflexivity.
  rewrite IH, (node_tier_described nt need t Hd). reflexivity.
Qed.

(** C3. The tiers of the score of a node are the described ones,
    [count_score = (attackers + survivors + supports) * 1e8], the attack
    tier with its 1e6, 1e7 and discounted [0.9 * 1e7 / extra] parts,
    [1e5] for a survivor, [1e4] per support, and the total is the sum of
    the five tiers; and the scores of a mission are the sums over its
    nodes when every node holds a character, and all 0 when some node is
    empty. *)
Theorem score_tiers :
  roles_disjoint ->
  (forall nt need,
     let chars := node_character_list nt in
     let score := node_team_score nt need in
     (node_cnt_score score
      == Qnat (attacker_count chars + survivor_count chars + support_count chars) * 1e8
      /\ node_attack_score score == described_attack_score chars need
      /\ node_survival_score score == (if 0 <? survivor_count chars then 1e5 else 0)
      /\ node_support_score score == Qnat (support_count chars) * 1e4
      /\ node_total_score score
         == node_cnt_score score + node_attack_score score + node_survival_score score
            + node_support_score score + node_combat_type_score score)%Q) /\
  (forall mt, well_formed mt ->
     exists mt', update_score mt = Return mt' /\
       same_nodes mt mt' /\
       (every_node_filled mt ->
        forall t, (mission_tier t mt' == sum_over_nodes (described_tier t) mt)%Q) /\
       (some_node_empty mt -> forall t, mission_tier t mt' = 0%Q)).
Proof.
  intros Hd. split.
  - intros nt need chars score.
    pose proof (fun t => node_tier_described nt need t Hd) as Htier.
    fold chars score in Htier.
    destruct (node_team_score_scores nt need) as (_ & _ & _ & _ & Htot).
    fold score in Htot.
    repeat split.
    + apply (Htier CountTier).
    + apply (Htier AttackTier).
    + apply (Htier SurvivalTier).
    + apply (Htier SupportTier).
    + by rewrite Htot.
  - intros mt Hwf.
    destruct (update_score_Return mt Hwf) as (mt' & Hrun & Hsame & Hvalid & Hinvalid).
    exists mt'. split; [exact Hrun |]. split; [exact Hsame |]. split.
    + intros Hfilled t. apply valid_mission_team_true in Hfilled.
      rewrite (Hvalid Hfilled t). by apply node_sum_described.
    + intros Hempty. apply valid_mission_team_false in Hempty. by apply Hinvalid.
Qed.

(** ** The pruning test *)

Lemma Qltb_lt (x y : Q) : Qltb x y = true <-> (x < y)%Q.
Proof.
  unfold Qltb. rewrite negb_true_iff. split.
  - intros Hle. apply Qnot_le_lt. intros Hyx.
    apply Qle_bool_iff in Hyx. congruence.
  - intros Hlt. destruct (Qle_bool y x) eqn:E; [| done].
    apply Qle_bool_iff in E. by apply Qlt_not_le in Hlt.
Qed.

Lemma Qltb_ge (x y : Q) : Qltb x y = false <-> ~ (x < y)%Q.
Proof. rewrite <- Qltb_lt. by destruct (Qltb x y). Qed.

Lemma check_node_phase_Return current f1 f2 k nt :
  node_team_list current !! k = Some nt ->
  check_node_phase current (f1, f2) k
  = Return (if node_dfs_phase nt <=? 1 then false else f1,
            if node_dfs_phase nt <=? 2 then false else f2).
Proof.
  intros Hnt. unfold check_node_phase.
  by rewrite (proj2 (index_Return _ _ _) Hnt).
Qed.

Lemma for_each_check_node_phase current m : forall k f1 f2,
  k + m = length (node_team_list current) ->
  for_each (check_node_phase current) (seq k m) (f1, f2)
  = Return (f1 && forallb (fun nt => negb (node_dfs_phase nt <=? 1))
                          (drop k (node_team_list current)),
            f2 && forallb (fun nt => negb (node_dfs_phase nt <=? 2))
                          (drop k (node_team_list current))).
Proof.
  induction m as [|m IH]; intros k f1 f2 Hk; simpl.
  - rewrite drop_ge by lia. simpl. by rewrite !andb_true_r.
  - destruct (lookup_lt_is_Some_2 (node_team_list current) k) as [nt Hnt]; [lia |].
    rewrite (check_node_phase_Return current f1 f2 k nt Hnt). simpl.
    rewrite IH by lia. rewrite (drop_S _ _ _ Hnt). simpl.
    destruct (node_dfs_phase nt <=? 1), (node_dfs_phase nt <=? 2), f1, f2; done.
Qed.

Lemma forallb_phases p (nts : list ForgottenHallNodeTeam) :
  forallb (fun nt => negb (node_dfs_phase nt <=? p)) nts = true
  <-> Forall (fun nt => S p <= node_dfs_phase nt) nts.
Proof.
  rewrite forallb_forall, Forall_forall. setoid_rewrite <- list_elem_of_In.
  split; intros Hall nt Hnt; specialize (Hall nt Hnt).
  - apply negb_true_iff, Nat.leb_gt in Hall. lia.
  - apply negb_true_iff, Nat.leb_gt. lia.
Qed.

(** C5. The pruning test answers false when some node is empty or there is
    no best team yet; otherwise it scores the current team and answers
    true exactly under the described condition: all phase markers at
    least 2 and the attack score below the best's, or all at least 3 and
    the survival score below, or the support bound below, or the support
    bound equal and the affinity bound below. *)
Theorem impossibly_greater_condition n best current :
  well_formed current ->
  n = length (node_team_list current) ->
  (some_node_empty current ->
   impossibly_greater n best current = Return (false, current)) /\
  (best = None -> impossibly_greater n best current = Return (false, current)) /\
  (forall b, every_node_filled current -> best = Some b ->
   exists verdict scored,
     update_score current = Return scored /\
     impossibly_greater n best current = Return (verdict, scored) /\
     (verdict = true <-> prune_condition b scored)).
Proof.
  intros Hwf Hn. unfold impossibly_greater. split; [| split].
  - intros Hempty. apply valid_mission_team_false in Hempty. by rewrite Hempty.
  - intros ->. by destruct (valid_mission_team current).
  - intros b Hfilled ->. apply valid_mission_team_true in Hfilled.
    rewrite Hfilled. simpl.
    destruct (update_score_Return current Hwf) as (scored & Hrun & Hsame & _).
    rewrite Hrun. simpl. destruct Hsame as (_ & _ & Hl).
    unfold range.
    rewrite (for_each_check_node_phase scored n 0 true true) by (rewrite Hl; lia).
    simpl. rewrite drop_0.
    unfold remaining_bound.
    pose proof (forallb_phases 1 (node_team_list scored)) as H2.
    pose proof (forallb_phases 2 (node_team_list scored)) as H3.
    revert H2 H3.
    set (all2 := forallb (fun nt => negb (node_dfs_phase nt <=? 1)) (node_team_list scored)).
    set (all3 := forallb (fun nt => negb (node_dfs_phase nt <=? 2)) (node_team_list scored)).
    intros H2 H3.
    unfold prune_condition, phases_at_least.
    set (bound4 := (support_score scored
                    + inject_Z (8 - Z.of_nat (character_cnt scored)) * 1e4)%Q).
    set (bound3 := (combat_type_score scored
                    + inject_Z (8 - Z.of_nat (character_cnt scored)) * 1e3)%Q).
    pose proof (Qltb_lt (attack_score scored) (attack_score b)) as Ha.
    pose proof (Qltb_lt (survival_score scored) (survival_score b)) as Hs.
    pose proof (Qltb_lt bound4 (support_score b)) as Hp.
    pose proof (Qltb_lt bound3 (combat_type_score b)) as Hc.
    pose proof (Qeq_bool_iff bound4 (support_score b)) as He.
    destruct all2, all3,
      (Qltb (attack_score scored) (attack_score b)),
      (Qltb (survival_score scored) (survival_score b)),
      (Qltb bound4 (support_score b)),
      (Qeq_bool bound4 (support_score b)),
      (Qltb bound3 (combat_type_score b)); simpl;
      eexists _, scored; (split; [done |]); (split; [done |]);
      intuition congruence.
Qed.

(** ** Teams within the constraints *)

Lemma sound_same_nodes n mt mt' : same_nodes mt mt' -> sound n mt -> sound n mt'.
Proof. intros (_ & Hc & Hl). unfold sound. by rewrite Hc, Hl. Qed.

Lemma phases_same_nodes mt mt' : same_nodes mt mt' -> phases mt' = phases mt.
Proof. intros (_ & _ & Hl). unfold phases. by rewrite Hl. Qed.

Lemma sound_well_formed n mt : sound n mt -> well_formed mt.
Proof. intros (Hl & Hc & _). unfold well_formed. congruence. Qed.

Lemma impossibly_greater_Return n best mt :
  sound n mt ->
  exists verdict mt',
    impossibly_greater n best mt = Return (verdict, mt') /\ same_nodes mt mt'.
Proof.
  intros Hs. unfold impossibly_greater.
  destruct (valid_mission_team mt); simpl; [| by exists false, mt].
  destruct best as [b|]; [| by exists false, mt].
  destruct (update_score_Return mt (sound_well_formed n mt Hs))
    as (scored & -> & Hsame & _).
  simpl. unfold range.
  rewrite (for_each_check_node_phase scored n 0 true true).
  2: { destruct Hsame as (_ & _ & ->). by destruct Hs as (-> & _). }
  simpl.
  repeat match goal with
         | |- context [if ?b then _ else _] => destruct b
         end; by eexists _, scored.
Qed.

Lemma add_module_character_id_set nt module :
  character_id_set (add_module nt module)
  = character_id_set nt ∪ list_to_set (character_id_list module).
Proof.
  unfold add_module. simpl.
  generalize (character_id_set nt).
  induction (character_id_list module) as [|i ids IH]; intros s; simpl.
  - by rewrite (right_id_L ∅ (∪)).
  - rewrite IH. by rewrite (assoc_L (∪)).
Qed.

Lemma size_list_to_set_le (ids : list string) :
  size (list_to_set ids : gset string) <= length ids.
Proof.
  induction ids as [|i ids IH].
  - change (size (∅ : gset string) <= 0). by rewrite size_empty.
  - change (size ({[i]} ∪ list_to_set ids : gset string) <= S (length ids)).
    pose proof (size_union_alt ({[i]} : gset string) (list_to_set ids)) as Hu.
    rewrite size_singleton in Hu.
    assert (size (list_to_set ids ∖ {[i]} : gset string)
            <= size (list_to_set ids : gset string))
      by (apply subseteq_size, subseteq_difference_l; done).
    lia.
Qed.

Lemma phases_lookup mt k nt :
  node_team_list mt !! k = Some nt -> phases mt !! k = Some (node_dfs_phase nt).
Proof. intros Hnt. unfold phases. by rewrite list_lookup_fmap, Hnt. Qed.

Lemma sound_shrinks n mt mt' : shrinks mt mt' -> sound n mt -> sound n mt'.
Proof.
  intros (Hc & Hf) (Hl & Hlc & Hcap & Hdis).
  split; [by rewrite <- (Forall2_length _ _ _ Hf) |].
  split; [by rewrite Hc |]. split.
  - apply Forall_forall. intros nt' Hnt'.
    apply list_elem_of_lookup in Hnt' as [k Hk].
    destruct (Forall2_lookup_r _ _ _ _ _ Hf Hk) as (nt & Hnt & _ & Hsub).
    apply list_elem_of_lookup_2 in Hnt.
    rewrite Forall_forall in Hcap. specialize (Hcap nt Hnt).
    apply subseteq_size in Hsub. lia.
  - intros i j nti' ntj' Hij Hi Hj.
    destruct (Forall2_lookup_r _ _ _ _ _ Hf Hi) as (nti & Hnti & _ & Hsi).
    destruct (Forall2_lookup_r _ _ _ _ _ Hf Hj) as (ntj & Hntj & _ & Hsj).
    specialize (Hdis i j nti ntj Hij Hnti Hntj). set_solver.
Qed.

Lemma phases_shrinks mt mt' : shrinks mt mt' -> phases mt' = phases mt.
Proof.
  intros (_ & Hf). unfold phases.
  induction Hf as [|nt nt' nts nts' [Hp _] _ IH]; simpl; [done |].
  by rewrite Hp, IH.
Qed.

Lemma remove_ids_subseteq ids : forall s, (remove_ids s ids).2 ⊆ s.
Proof.
  induction ids as [|i ids IH]; intros s; simpl; [done |].
  destruct (decide (i ∈ s)); [| done].
  etrans; [apply IH |]. apply subseteq_difference_l. done.
Qed.

Lemma pop_module_shrinks nt module :
  node_dfs_phase (pop_module nt module).2 = node_dfs_phase nt /\
  character_id_set (pop_module nt module).2 ⊆ character_id_set nt.
Proof.
  unfold pop_module. destruct (list_remove module (module_list nt)); [| done].
  pose proof (remove_ids_subseteq (character_id_list module) (character_id_set nt)).
  by destruct (remove_ids (character_id_set nt) (character_id_list module)).
Qed.

Lemma Forall2_insert_r_same {A} (R : A -> A -> Prop) (l : list A) k x y :
  (forall a, R a a) -> l !! k = Some x -> R x y -> Forall2 R l (<[k := y]> l).
Proof.
  intros Hrefl Hk Hxy. apply Forall2_same_length_lookup. split.
  - by rewrite length_insert.
  - intros i a b Ha Hb. destruct (decide (i = k)) as [-> | Hne].
    + rewrite list_lookup_insert_eq in Hb by (by apply lookup_lt_Some in Hk).
      congruence.
    + rewrite list_lookup_insert_ne in Hb by done.
      assert (a = b) as -> by congruence. apply Hrefl.
Qed.

Lemma pop_from_node_shrinks mt node_num module :
  shrinks mt (pop_from_node mt node_num module).2.
Proof.
  unfold pop_from_node, shrinks.
  destruct (node_team_list mt !! node_num) as [nt|] eqn:Hnt.
  - pose proof (pop_module_shrinks nt module) as Hp.
    destruct (pop_module nt module) as [ok nt']. simpl in *.
    split; [done |].
    apply (Forall2_insert_r_same _ _ _ nt); [done | done | done].
  - simpl. split; [done |]. apply Forall_Forall2_diag, Forall_forall. done.
Qed.

Lemma set_phase_at_phases mt k p :
  phases (set_phase_at k p mt) = <[k := p]> (phases mt).
Proof.
  unfold phases, set_phase_at. simpl.
  apply list_eq. intros i. rewrite list_lookup_fmap.
  destruct (decide (i = k)) as [-> | Hne].
  - destruct (node_team_list mt !! k) as [nt|] eqn:Hnt.
    + rewrite list_lookup_alter_eq, Hnt. simpl.
      rewrite list_lookup_insert_eq; [done |].
      rewrite length_fmap. by apply lookup_lt_Some in Hnt.
    + rewrite list_lookup_alter_eq, Hnt. simpl.
      apply lookup_ge_None in Hnt.
      rewrite list_insert_ge by (by rewrite length_fmap).
      rewrite list_lookup_fmap. apply lookup_ge_None in Hnt. by rewrite Hnt.
  - rewrite list_lookup_alter_ne by done.
    rewrite list_lookup_insert_ne by done. by rewrite list_lookup_fmap.
Qed.

Lemma set_phase_at_sound n mt k p : sound n mt -> sound n (set_phase_at k p mt).
Proof.
  intros (Hl & Hlc & Hcap & Hdis). unfold sound, set_phase_at. simpl.
  split; [by rewrite length_alter |]. split; [done |]. split.
  - apply Forall_forall. intros nt' Hnt'.
    apply list_elem_of_lookup in Hnt' as [i Hi].
    rewrite Forall_forall in Hcap.
    destruct (decide (i = k)) as [-> | Hne].
    + rewrite list_lookup_alter_eq in Hi.
      destruct (node_team_list mt !! k) as [nt|] eqn:Hnt; [| done].
      injection Hi as <-. simpl. apply Hcap. by apply list_elem_of_lookup_2 in Hnt.
    + rewrite list_lookup_alter_ne in Hi by done.
      apply Hcap. by apply list_elem_of_lookup_2 in Hi.
  - assert (forall i nt', alter (set_node_dfs_phase p) k (node_team_list mt) !! i = Some nt' ->
              exists nt, node_team_list mt !! i = Some nt /\
                         character_id_set nt' = character_id_set nt) as Hsame.
    { intros i nt' Hi. destruct (decide (i = k)) as [-> | Hne].
      - rewrite list_lookup_alter_eq in Hi.
        destruct (node_team_list mt !! k) as [nt|]; [| done].
        injection Hi as <-. by exists nt.
      - rewrite list_lookup_alter_ne in Hi by done. by exists nt'. }
    intros i j nti ntj Hij Hi Hj.
    destruct (Hsame i nti Hi) as (nti0 & Hi0 & ->).
    destruct (Hsame j ntj Hj) as (ntj0 & Hj0 & ->).
    by apply (Hdis i j).
Qed.

Lemma added_sound n mt k nt module :
  sound n mt ->
  node_team_list mt !! k = Some nt ->
  size (character_id_set nt) + length (character_id_list module) <= 4 ->
  unplaced mt (character_id_list module) ->
  sound n (added mt k nt module) /\ phases (added mt k nt module) = phases mt.
Proof.
  intros (Hl & Hlc & Hcap & Hdis) Hnt Hsize Hfree. split.
  - unfold sound, added. simpl.
    split; [by rewrite length_insert |]. split; [done |]. split.
    + apply Forall_forall. intros nt' Hnt'.
      apply list_elem_of_lookup in Hnt' as [i Hi].
      destruct (decide (i = k)) as [-> | Hne].
      * rewrite list_lookup_insert_eq in Hi by (by apply lookup_lt_Some in Hnt).
        injection Hi as <-. rewrite add_module_character_id_set.
        pose proof (size_union_alt (character_id_set nt)
                      (list_to_set (character_id_list module))) as Hu.
        pose proof (size_list_to_set_le (character_id_list module)).
        assert (size (list_to_set (character_id_list module) ∖ character_id_set nt)
                <= size (list_to_set (character_id_list module) : gset string))
          by (apply subseteq_size, subseteq_difference_l; done).
        lia.
      * rewrite list_lookup_insert_ne in Hi by done.
        rewrite Forall_forall in Hcap. apply Hcap. by apply list_elem_of_lookup_2 in Hi.
    + assert (forall i nt', i <> k -> node_team_list mt !! i = Some nt' ->
                character_id_set nt' ## character_id_set (add_module nt module)) as Hnew.
      { intros i nt' Hne Hi. rewrite add_module_character_id_set.
        specialize (Hdis i k nt' nt Hne Hi Hnt).
        assert (forall x, x ∈ character_id_list module -> x ∉ character_id_set nt') as Hx
          by (intros x Hx; apply (Hfree nt' x); [by apply list_elem_of_lookup_2 in Hi | done]).
        apply disjoint_union_r. split; [done |].
        apply elem_of_disjoint. intros x Hx1 Hx2.
        apply elem_of_list_to_set in Hx2. by apply (Hx x). }
      intros i j nti ntj Hij Hi Hj.
      destruct (decide (i = k)) as [-> | Hik], (decide (j = k)) as [-> | Hjk]; [done | | |].
      * rewrite list_lookup_insert_eq in Hi by (by apply lookup_lt_Some in Hnt).
        rewrite list_lookup_insert_ne in Hj by done.
        injection Hi as <-. symmetry. by apply (Hnew j).
      * rewrite list_lookup_insert_eq in Hj by (by apply lookup_lt_Some in Hnt).
        rewrite list_lookup_insert_ne in Hi by done.
        injection Hj as <-. by apply (Hnew i).
      * rewrite list_lookup_insert_ne in Hi, Hj by done. by apply (Hdis i j).
  - unfold phases, added. simpl. rewrite list_fmap_insert. simpl.
    apply list_insert_id. by rewrite list_lookup_fmap, Hnt.
Qed.

(** ** The run of the search *)

Lemma leaves_snoc (calls : list CallTree) (call : CallTree) :
  List.concat (List.map leaves (calls ++ [call]))
  = List.concat (List.map leaves calls) ++ leaves call.
Proof. rewrite List.map_app, List.concat_app. simpl. by rewrite app_nil_r. Qed.

Lemma loop_inv_snoc n modules idx module entered best0 current best calls
    current' best' call :
  loop_inv n modules idx module entered best0 (current, best, calls) ->
  sound n current' -> phases current' = phases entered ->
  root_idx call = idx + 1 ->
  placement (next_node_phase_of module) (phases entered) (phases (root_team call)) ->
  search_tree n modules call ->
  Forall (complete n) (leaves call) ->
  best' = foldl update_best best (leaves call) ->
  loop_inv n modules idx module entered best0 (current', best', calls ++ [call]).
Proof.
  intros (_ & _ & Hcalls & Hleaves & Hbest) Hs Hp Hidx Hpl Htree Hl ->.
  simpl in *. unfold loop_inv. simpl.
  split; [done |]. split; [done |]. split.
  - apply Forall_app. split; [done |]. by apply Forall_singleton.
  - rewrite leaves_snoc. split.
    + by apply Forall_app.
    + by rewrite foldl_app, <- Hbest.
Qed.

Lemma try_node_inv n modules idx module entered best0 recurse st node_idx :
  runs n modules (idx + 1) recurse ->
  node_idx < n ->
  loop_inv n modules idx module entered best0 st ->
  exists st', try_node recurse module (next_node_phase_of module) st node_idx = Return st' /\
              loop_inv n modules idx module entered best0 st'.
Proof.
  intros Hrec Hk Hinv. destruct st as [[current best] calls].
  pose proof Hinv as (Hs & Hp & Hcalls & Hleaves & Hbest). simpl in *.
  unfold try_node.
  destruct (lookup_lt_is_Some_2 (node_team_list current) node_idx) as [nt Hnt].
  { destruct Hs as (-> & _). done. }
  rewrite (proj2 (index_Return _ _ _) Hnt). simpl.
  destruct (Nat.leb_spec (node_dfs_phase nt) (next_node_phase_of module)) as [Hle|Hgt];
    [| by eexists].
  rewrite (add_to_node_cases _ _ _ _ Hnt).
  destruct (Nat.ltb_spec 4 (size (character_id_set nt) + length (character_id_list module)))
    as [Hover|Hfits]; [by eexists |].
  destruct (existed_characters current (character_id_list module)) eqn:Hex;
    [by eexists |].
  apply existed_characters_false in Hex. simpl.
  destruct (added_sound n current node_idx nt module Hs Hnt Hfits Hex) as [Hsa Hpa].
  set (placed := set_phase_at node_idx (next_node_phase_of module)
                   (added current node_idx nt module)).
  assert (sound n placed) as Hsp by by apply set_phase_at_sound.
  assert (phases placed = <[node_idx := next_node_phase_of module]> (phases entered)) as Hpp.
  { unfold placed. by rewrite set_phase_at_phases, Hpa, Hp. }
  destruct (Hrec placed best Hsp)
    as (mt' & best' & tree & Hrun & Hs' & Hp' & Hidx & Hroot & Htree & Hl & Hb).
  fold (added current node_idx nt module). fold placed. rewrite Hrun. simpl.
  eexists. split; [done |].
  pose proof (pop_from_node_shrinks mt' node_idx module) as Hshr.
  apply (loop_inv_snoc _ _ _ _ _ _ current best calls); try done.
  - apply set_phase_at_sound. by apply (sound_shrinks n mt').
  - rewrite set_phase_at_phases, (phases_shrinks _ _ Hshr), Hp', Hpp.
    rewrite list_insert_insert_eq. apply list_insert_id.
    rewrite <- Hp. by apply phases_lookup.
  - rewrite Hroot, Hpp. right. exists node_idx, (node_dfs_phase nt).
    split; [| done]. rewrite <- Hp. by apply phases_lookup.
Qed.

Lemma for_each_try_node n modules idx module entered best0 recurse (l : list nat) :
  runs n modules (idx + 1) recurse ->
  Forall (fun i => i < n) l ->
  forall st, loop_inv n modules idx module entered best0 st ->
  exists st', for_each (try_node recurse module (next_node_phase_of module)) l st
              = Return st' /\
              loop_inv n modules idx module entered best0 st'.
Proof.
  intros Hrec. induction l as [|i l IH]; intros Hl st Hinv; simpl.
  - by exists st.
  - apply Forall_cons in Hl as [Hi Hl].
    destruct (try_node_inv _ _ _ _ _ _ _ st i Hrec Hi Hinv) as (st1 & -> & Hinv1).
    simpl. by apply IH.
Qed.

Lemma range_lt n : Forall (fun i => i < n) (range n).
Proof.
  apply Forall_forall. intros i Hi. unfold range in Hi.
  apply list_elem_of_In, in_seq in Hi. lia.
Qed.

Lemma dfs_run n modules : forall rest idx,
  drop idx modules = rest -> idx <= length modules ->
  runs n modules idx (dfs n rest idx).
Proof.
  induction rest as [|module rest IH]; intros idx Hdrop Hidx mt best Hs.
  - assert (idx = length modules) as Hend.
    { apply (f_equal length) in Hdrop. rewrite length_drop in Hdrop. simpl in Hdrop. lia. }
    simpl. destruct (valid_mission_team mt) eqn:Hvalid.
    + destruct (update_score_Return mt (sound_well_formed n mt Hs))
        as (scored & Hrun & Hsame & _).
      rewrite Hrun. simpl. apply valid_mission_team_true in Hvalid.
      assert (complete n scored) as Hc.
      { split; [by apply (sound_same_nodes n mt) |].
        unfold every_node_filled. destruct Hsame as (_ & _ & ->). done. }
      eexists _, _, _. split; [done |].
      split; [apply Hc |]. split; [by apply phases_same_nodes |].
      split; [done |]. split; [done |].
      split; [by apply search_scored |].
      split; [by apply Forall_singleton | done].
    + apply valid_mission_team_false in Hvalid.
      eexists _, _, _. split; [done |]. split; [done |]. split; [done |].
      split; [done |]. split; [done |].
      split; [by apply search_unfilled |]. split; [by apply Forall_nil | done].
  - assert (modules !! idx = Some module) as Hmod.
    { rewrite <- (Nat.add_0_r idx), <- lookup_drop, Hdrop. done. }
    assert (drop (idx + 1) modules = rest) as Hdrop'.
    { rewrite Nat.add_1_r. by rewrite (drop_S _ _ _ Hmod) in Hdrop; injection Hdrop. }
    assert (idx + 1 <= length modules) as Hidx'.
    { apply lookup_lt_Some in Hmod. lia. }
    specialize (IH (idx + 1) Hdrop' Hidx').
    simpl.
    destruct (impossibly_greater_Return n best mt Hs) as (verdict & current & -> & Hsame).
    simpl. destruct verdict.
    + eexists _, _, _. split; [done |].
      split; [by apply (sound_same_nodes n mt) |].
      split; [by apply phases_same_nodes |].
      split; [done |]. split; [done |].
      split; [apply search_pruned; by apply lookup_lt_Some in Hmod |].
      split; [by apply Forall_nil | done].
    + destruct (for_each_try_node n modules idx module mt best
                  (dfs n rest (idx + 1)) (range n) IH (range_lt n)
                  (current, best, []))
        as ([[current1 best1] calls] & -> & Hinv).
      { unfold loop_inv. simpl.
        split; [by apply (sound_same_nodes n mt) |].
        split; [by apply phases_same_nodes |].
        split; [by apply Forall_nil |]. split; [by apply Forall_nil | done]. }
      simpl.
      pose proof Hinv as (Hs1 & Hp1 & _). simpl in Hs1, Hp1.
      destruct (IH current1 best1 Hs1)
        as (mt' & best' & call & -> & Hs' & Hp' & Hcidx & Hroot & Htree & Hl & Hb).
      simpl.
      assert (loop_inv n modules idx module mt best (mt', best', calls ++ [call]))
        as (_ & _ & Hcalls & Hleaves & Hbest).
      { apply (loop_inv_snoc _ _ _ _ _ _ current1 best1 calls); try done.
        - by rewrite Hp'.
        - left. by rewrite Hroot. }
      simpl in *.
      eexists _, _, _. split; [done |]. split; [done |].
      split; [by rewrite Hp' |]. split; [done |]. split; [done |].
      split; [by apply (search_branch n modules idx module) |]. done.
Qed.

(** ** The best team *)

Lemma Qltb_false_le (x y : Q) : Qltb x y = false <-> (y <= x)%Q.
Proof.
  unfold Qltb. rewrite negb_false_iff. apply Qle_bool_iff.
Qed.

Lemma update_best_keeps b c :
  (total_score c <= total_score b)%Q -> update_best (Some b) c = Some b.
Proof.
  intros Hle. unfold update_best.
  by rewrite (proj2 (Qltb_false_le (total_score b) (total_score c)) Hle).
Qed.

Lemma update_best_takes b c :
  (total_score b < total_score c)%Q -> update_best (Some b) c = Some c.
Proof.
  intros Hlt. unfold update_best.
  by rewrite (proj2 (Qltb_lt (total_score b) (total_score c)) Hlt).
Qed.

(** From a best team [b0], the scan of [l] keeps [b0] when nothing in [l]
    is strictly better, and otherwise ends with the first maximum of
    [l], which is strictly better than [b0]. *)
Lemma foldl_update_best_Some (l : list ForgottenHallMissionTeam) : forall b0,
  exists b, foldl update_best (Some b0) l = Some b /\
    ((b = b0 /\ forall x, x ∈ l -> (total_score x <= total_score b0)%Q) \/
     ((total_score b0 < total_score b)%Q /\ first_maximum l b)).
Proof.
  induction l as [|c l IH]; intros b0.
  - exists b0. split; [done |]. left. split; [done |].
    intros x Hx. by apply elem_of_nil in Hx.
  - change (foldl update_best (Some b0) (c :: l))
      with (foldl update_best (update_best (Some b0) c) l).
    destruct (Qlt_le_dec (total_score b0) (total_score c)) as [Hlt|Hle].
    + rewrite (update_best_takes _ _ Hlt).
      destruct (IH c) as (b & Hb & Hcases). exists b. split; [done |]. right.
      destruct Hcases as [[Heq Hall] | [Hbetter (before & after & Hl & Hbf & Haf)]].
      * subst b. split; [done |]. exists [], l. split; [done |].
        split; [intros x Hx; by apply elem_of_nil in Hx | done].
      * split; [lra |]. exists (c :: before), after. split; [by rewrite Hl |].
        split; [| done]. intros x [-> | Hx]%elem_of_cons; [done | by apply Hbf].
    + rewrite (update_best_keeps _ _ Hle).
      destruct (IH b0) as (b & Hb & Hcases). exists b. split; [done |].
      destruct Hcases as [[Heq Hall] | [Hbetter (before & after & Hl & Hbf & Haf)]].
      * left. split; [done |]. intros x [-> | Hx]%elem_of_cons; [done | by apply Hall].
      * right. split; [done |]. exists (c :: before), after. split; [by rewrite Hl |].
        split; [| done]. intros x [-> | Hx]%elem_of_cons; [lra | by apply Hbf].
Qed.

Lemma foldl_update_best_None (l : list ForgottenHallMissionTeam) :
  match foldl update_best None l with
  | None => l = []
  | Some b => first_maximum l b
  end.
Proof.
  destruct l as [|c l]; [done |].
  change (foldl update_best None (c :: l)) with (foldl update_best (Some c) l).
  destruct (foldl_update_best_Some l c) as (b & -> & Hcases).
  destruct Hcases as [[Heq Hall] | [Hbetter (before & after & Hl & Hbf & Haf)]].
  - subst b. exists [], l. split; [done |].
    split; [intros x Hx; by apply elem_of_nil in Hx | done].
  - exists (c :: before), after. split; [by rewrite Hl |]. split; [| done].
    intros x [-> | Hx]%elem_of_cons; [done | by apply Hbf].
Qed.

Lemma first_maximum_elem (l : list ForgottenHallMissionTeam) b :
  first_maximum l b -> b ∈ l.
Proof.
  intros (before & after & -> & _). apply elem_of_app. right. left.
Qed.

(** ** The search from the empty team *)

Lemma new_mission_team_sound (ncts : list (list CharacterCombatType)) :
  sound (length ncts) (new_mission_team ncts).
Proof.
  unfold sound, new_mission_team. simpl.
  split; [by rewrite length_replicate |]. split; [done |]. split.
  - apply Forall_forall. intros nt Hnt. apply elem_of_replicate in Hnt as [-> _].
    change (size (∅ : gset string) <= 4). rewrite size_empty. lia.
  - intros i j nti ntj _ Hi Hj.
    apply lookup_replicate in Hi as [-> _]. simpl.
    apply disjoint_empty_l.
Qed.

Lemma search_run (ncts : list (list CharacterCombatType))
    (modules : list ForgottenHallTeamModule) :
  exists final best tree,
    dfs (length ncts) modules 0 (new_mission_team ncts) None
    = Return (final, best, tree) /\
    search_best_mission_team ncts modules = Return (character_list <$> best) /\
    sound (length ncts) final /\
    phases final = phases (new_mission_team ncts) /\
    root_idx tree = 0 /\ root_team tree = new_mission_team ncts /\
    search_tree (length ncts) modules tree /\
    Forall (complete (length ncts)) (leaves tree) /\
    best = foldl update_best None (leaves tree).
Proof.
  destruct (dfs_run (length ncts) modules modules 0 (drop_0 _) (Nat.le_0_l _)
              (new_mission_team ncts) None (new_mission_team_sound ncts))
    as (final & best & tree & Hrun & H1 & H2 & H3 & H4 & H5 & H6 & H7).
  exists final, best, tree. split; [done |]. split; [| done].
  unfold search_best_mission_team. rewrite Hrun. simpl. by destruct best.
Qed.

Lemma search_tree_descends n modules a b :
  search_tree n modules a -> descends a b -> search_tree n modules b.
Proof.
  intros Ha Hd. induction Hd as [|idx entered calls c d Hc _ IH]; [done |].
  apply IH. inversion Ha as [| | |idx' module entered' calls' Hmod Hcalls]; subst.
  rewrite Forall_forall in Hcalls. by destruct (Hcalls c Hc) as (_ & _ & ?).
Qed.

Lemma placement_le cat (parent child : list nat) :
  placement cat parent child -> Forall2 le parent child.
Proof.
  intros [-> | (k & p & Hk & Hle & ->)].
  - apply Forall_Forall2_diag, Forall_forall. done.
  - apply (Forall2_insert_r_same _ _ _ p); [done | done | done].
Qed.

Lemma descends_phases n modules a b :
  search_tree n modules a -> descends a b ->
  Forall2 le (phases (root_team a)) (phases (root_team b)) /\
  root_idx a <= root_idx b.
Proof.
  intros Ha Hd. induction Hd as [|idx entered calls c d Hc _ IH].
  - split; [| done]. apply Forall_Forall2_diag, Forall_forall. done.
  - inversion Ha as [| | |idx' module entered' calls' Hmod Hcalls]; subst.
    rewrite Forall_forall in Hcalls.
    destruct (Hcalls c Hc) as (Hidx & Hpl & Htree).
    destruct (IH Htree) as [Hle Hi]. simpl. split; [| lia].
    apply placement_le in Hpl.
    apply (Forall2_trans le le le _ _ _ (fun x y z => Nat.le_trans x y z) Hpl Hle).
Qed.

(** ** The claims about the search *)

(** C2. In a result of the search every node has at least one character,
    no node has more than four, and no character id appears in the lists
    of two nodes. *)
Theorem search_result_valid (ncts : list (list CharacterCombatType))
    (modules : list ForgottenHallTeamModule) (result : list (list Character)) :
  (forall i, id (get_character_by_id i) = i) ->
  search_best_mission_team ncts modules = Return (Some result) ->
  length result = length ncts /\
  (forall chars, chars ∈ result -> chars <> [] /\ length chars <= 4) /\
  (forall i j chars_i chars_j c1 c2,
     i <> j -> result !! i = Some chars_i -> result !! j = Some chars_j ->
     c1 ∈ chars_i -> c2 ∈ chars_j -> id c1 <> id c2).
Proof.
  intros Hid Hsearch.
  destruct (search_run ncts modules)
    as (final & best & tree & _ & Hres & _ & _ & _ & _ & _ & Hleaves & Hbest).
  rewrite Hres in Hsearch. injection Hsearch as Hsearch.
  destruct best as [b|]; [| done]. injection Hsearch as <-.
  pose proof (foldl_update_best_None (leaves tree)) as Hmax.
  rewrite <- Hbest in Hmax. apply first_maximum_elem in Hmax.
  rewrite Forall_forall in Hleaves.
  destruct (Hleaves b Hmax) as ((Hl & _ & Hcap & Hdis) & Hfilled).
  unfold character_list. split; [by rewrite length_map |]. split.
  - intros chars Hchars. apply list_elem_of_fmap in Hchars as (nt & -> & Hnt).
    unfold node_character_list. split.
    + intros Hnil. apply fmap_nil_inv, (f_equal length) in Hnil.
      rewrite length_iter_ids in Hnil. simpl in Hnil.
      apply size_empty_inv, leibniz_equiv in Hnil. by apply (Hfilled nt).
    + rewrite length_map, length_iter_ids. rewrite Forall_forall in Hcap.
      apply (Hcap nt Hnt).
  - intros i j chars_i chars_j c1 c2 Hij Hi Hj Hc1 Hc2.
    rewrite list_lookup_fmap in Hi, Hj.
    destruct (node_team_list b !! i) as [nti|] eqn:Hnti; [| done].
    destruct (node_team_list b !! j) as [ntj|] eqn:Hntj; [| done].
    injection Hi as <-. injection Hj as <-.
    unfold node_character_list in Hc1, Hc2.
    apply list_elem_of_fmap in Hc1 as (i1 & -> & Hi1).
    apply list_elem_of_fmap in Hc2 as (i2 & -> & Hi2).
    rewrite !Hid. apply elem_of_iter_ids in Hi1, Hi2.
    specialize (Hdis i j nti ntj Hij Hnti Hntj).
    intros ->. rewrite elem_of_disjoint in Hdis. by apply (Hdis i2).
Qed.

(** C8. The search always returns, with a best assignment or with none:
    every call has a module index up to the module count, the base case
    is reached exactly at the module count, and each call made from
    index [idx] has index [idx + 1]; with three nodes and no module the
    result is none; and the result is none exactly when no complete team
    was reached, never an error. *)
Theorem search_total (ncts : list (list CharacterCombatType))
    (modules : list ForgottenHallTeamModule) :
  (exists result, search_best_mission_team ncts modules = Return result) /\
  (exists final best tree,
     dfs (length ncts) modules 0 (new_mission_team ncts) None
     = Return (final, best, tree) /\
     root_idx tree = 0 /\
     (forall t, descends tree t ->
        match t with
        | Scored idx _ _ | Unfilled idx _ => idx = length modules
        | Pruned idx _ => idx < length modules
        | Branch idx _ calls =>
            idx < length modules /\ Forall (fun c => root_idx c = idx + 1) calls
        end) /\
     (search_best_mission_team ncts modules = Return None <-> leaves tree = [])) /\
  (forall a b c, search_best_mission_team [a; b; c] [] = Return None).
Proof.
  destruct (search_run ncts modules)
    as (final & best & tree & Hrun & Hres & _ & _ & Hidx & _ & Htree & _ & Hbest).
  split; [by eexists |]. split.
  - exists final, best, tree. split; [done |]. split; [done |]. split.
    + intros t Hd. pose proof (search_tree_descends _ _ _ _ Htree Hd) as Ht.
      inversion Ht as [| | |idx module entered calls Hmod Hcalls]; subst; try done.
      split; [by apply lookup_lt_Some in Hmod |].
      eapply Forall_impl; [exact Hcalls |]. by intros c (? & _).
    + rewrite Hres. pose proof (foldl_update_best_None (leaves tree)) as Hmax.
      rewrite <- Hbest in Hmax. destruct best as [b|]; simpl.
      * split; [done |]. intros Hnil. apply first_maximum_elem in Hmax.
        rewrite Hnil in Hmax. by apply elem_of_nil in Hmax.
      * done.
  - intros a b c. reflexivity.
Qed.

End Properties.

(** * The search on the roster *)

Module RosterFacts.

Import Roster.

Lemma roster_coherent : registry_coherent.
Proof. split; [intros i |]; reflexivity. Qed.

Lemma roster_roles_disjoint : roles_disjoint.
Proof.
  intros p. unfold ATTACK_PATH_LIST, SURVIVAL_PATH_LIST, SUPPORT_PATH_LIST. simpl.
  repeat split; intros [H1 H2];
    repeat (apply elem_of_cons in H1 as [-> | H1]); try (by apply elem_of_nil in H1);
    repeat (apply elem_of_cons in H2 as [H2 | H2]); try done;
    by apply elem_of_nil in H2.
Qed.

(** C1, on the roster.  With one node that requires Fire and the modules
    attack (Himeko, Yanqing), survival (Gepard), support (Bronya, Tingyun,
    Asta), the search returns the three characters of attack and
    survival, total score 311101000.  It has pruned the call entered with
    Gepard alone in the node, at module index 2; from there the support
    module joins the node, and the team of four so reached respects the
    constraints and scores 400131000. *)
Theorem pruning_misses_better_team :
  exists final best tree entered better scored,
    dfs 1 teams 0 (new_mission_team fire_node) None = Return (final, Some best, tree) /\
    search_best_mission_team fire_node teams = Return (Some (character_list best)) /\
    map (map id) (character_list best) = [["gepard"; "yanqing"; "himeko"]] /\
    (total_score best == 311101000)%Q /\
    descends tree (Pruned 2 entered) /\
    node_team_list entered = node_team_list gepard_placed /\
    phases entered = [2] /\ next_node_phase_of support_team = 3 /\
    add_to_node entered 0 support_team = Return (true, better) /\
    sound 1 better /\ every_node_filled better /\
    update_score better = Return scored /\
    (total_score scored == 400131000)%Q /\
    (total_score best < total_score scored)%Q.
Proof.
  eexists _, _, _, _, _, _.
  split; [vm_compute; reflexivity |].
  split; [vm_compute; reflexivity |].
  split; [vm_compute; reflexivity |].
  split; [vm_compute; reflexivity |].
  split.
  { eapply descends_call; [eapply (list_elem_of_lookup_2 _ 1); reflexivity |].
    eapply descends_call; [eapply (list_elem_of_lookup_2 _ 0); reflexivity |].
    apply descends_here. }
  split; [vm_compute; reflexivity |].
  split; [reflexivity |]. split; [reflexivity |].
  split; [vm_compute; reflexivity |].
  split.
  { split; [reflexivity |]. split; [reflexivity |]. split.
    - apply Forall_singleton. vm_compute. lia.
    - intros i j nti ntj Hij Hi Hj.
      destruct i as [|i], j as [|j]; done. }
  split; [apply valid_mission_team_true; vm_compute; reflexivity |].
  split; [vm_compute; reflexivity |].
  split; [vm_compute; reflexivity |].
  vm_compute; reflexivity.
Qed.

(** The capacity boundary, at the node that holds Gepard and the support
    module of three. *)
Lemma add_to_node_capacity_boundary_witness :
  node_team_list gepard_placed !! 0 = Some gepard_node /\
  unplaced gepard_placed (character_id_list support_team) /\
  add_to_node gepard_placed 0 support_team
  = Return (true, added gepard_placed 0 gepard_node support_team).
Proof.
  assert (node_team_list gepard_placed !! 0 = Some gepard_node) as Hnt
    by reflexivity.
  assert (unplaced gepard_placed (character_id_list support_team)) as Hfree
    by (apply existed_characters_false; vm_compute; reflexivity).
  split; [exact Hnt |]. split; [exact Hfree |].
  apply (add_to_node_capacity_boundary gepard_placed 0 support_team gepard_node Hnt Hfree).
  vm_compute; reflexivity.
Defined.

(** A rejected call: Gepard already occupies the node. *)
Lemma add_to_node_rejected_unchanged_witness :
  node_team_list gepard_placed !! 0 = Some gepard_node /\
  forall mt', add_to_node gepard_placed 0 survival_team = Return (false, mt') ->
              mt' = gepard_placed.
Proof.
  assert (node_team_list gepard_placed !! 0 = Some gepard_node) as Hnt
    by reflexivity.
  split; [exact Hnt |].
  apply (add_to_node_rejected_unchanged gepard_placed 0 survival_team gepard_node Hnt).
Defined.

(** The attack tier of the node with Silverwolf and Yanqing under a Fire
    requirement. *)
Lemma score_tiers_witness :
  roles_disjoint /\
  (node_attack_score (node_team_score silverwolf_node [Fire])
   == described_attack_score (node_character_list silverwolf_node) [Fire])%Q.
Proof.
  split; [exact roster_roles_disjoint |].
  apply (proj1 (score_tiers roster_roles_disjoint) silverwolf_node
           ([Fire] : list (@CharacterCombatType types))).
Defined.

(** Silverwolf and Yanqing under a Quantum requirement: Ice is the one
    novel affinity. *)
Lemma silverwolf_widening_witness :
  registry_coherent /\ roles_disjoint /\
  combat_type_not_need_cnt (node_team_score silverwolf_node [Quantum]) = 1.
Proof.
  split; [exact roster_coherent |]. split; [exact roster_roles_disjoint |].
  pose proof (silverwolf_widening silverwolf_node
              ([Quantum] : list (@CharacterCombatType types))
              roster_coherent roster_roles_disjoint) as W.
  cbv zeta in W. destruct W as (Hwith & _).
  assert (id SILVERWOLF ∈ character_id_set silverwolf_node) as Hs
    by (vm_compute; reflexivity).
  destruct (Hwith Hs) as (_ & _ & _ & Hone).
  refine (Hone Ice _ _ _).
  - intros Hin; apply list_elem_of_singleton in Hin; discriminate.
  - exists (lookup_character "yanqing"). split; [| reflexivity].
    apply list_elem_of_fmap. exists "yanqing". split; [reflexivity |].
    apply elem_of_elements; vm_compute; reflexivity.
  - intros c Hc. apply list_elem_of_fmap in Hc as (i & -> & Hi).
    apply elem_of_elements in Hi.
    assert (i = "silverwolf" \/ i = "yanqing") as [-> | ->].
    { unfold silverwolf_node in Hi. rewrite add_module_character_id_set in Hi.
      cbn [character_id_list team character_id_set new_node_team list_to_set] in Hi.
      rewrite !elem_of_union, !elem_of_singleton in Hi. 
      destruct Hi as [Hi | [Hi | [Hi | Hi]]]; [by apply not_elem_of_empty in Hi | by left | by right | by apply not_elem_of_empty in Hi]. }
    + left. apply list_elem_of_singleton. reflexivity.
    + right. reflexivity.
Defined.

(** No best team yet: nothing is pruned. *)
Lemma impossibly_greater_condition_witness :
  well_formed gepard_placed /\
  1 = length (node_team_list gepard_placed) /\
  impossibly_greater 1 None gepard_placed = Return (false, gepard_placed).
Proof.
  assert (well_formed gepard_placed) as Hwf by reflexivity.
  assert (1 = length (node_team_list gepard_placed)) as Hn by reflexivity.
  split; [exact Hwf |]. split; [exact Hn |].
  by apply (impossibly_greater_condition 1 None gepard_placed Hwf Hn).
Defined.

(** The result of the search on the roster. *)
Lemma search_result_valid_witness :
  (forall i, id (get_character_by_id i) = i) /\
  search_best_mission_team fire_node teams
  = Return (Some [map lookup_character ["gepard"; "yanqing"; "himeko"]]) /\
  forall chars, chars ∈ [map lookup_character ["gepard"; "yanqing"; "himeko"]] ->
                chars <> [] /\ length chars <= 4.
Proof.
  assert (forall i, id (get_character_by_id i) = i) as Hid by reflexivity.
  assert (search_best_mission_team fire_node teams
          = Return (Some [map lookup_character ["gepard"; "yanqing"; "himeko"]]))
    as Hsearch by (vm_compute; reflexivity).
  split; [exact Hid |]. split; [exact Hsearch |].
  apply (search_result_valid fire_node teams _ Hid Hsearch).
Defined.

End RosterFacts.

(** * More properties of the team model and of the search *)

Section MoreProperties.

Context `{CharacterConst} {set_iteration : SetIteration}.

Implicit Types (mt : ForgottenHallMissionTeam) (nt : ForgottenHallNodeTeam).
Implicit Types (module : ForgottenHallTeamModule) (ids : list string).

(** ** Removing a module from a node *)

Lemma list_remove_None {A} `{EqDecision A} (x : A) (l : list A) :
  list_remove x l = None <-> x ∉ l.
Proof.
  induction l as [|y l IH]; simpl.
  - split; [intros _; apply not_elem_of_nil | done].
  - destruct (decide (y = x)) as [-> | Hne].
    + split; [done | intros Hx; destruct Hx; left].
    + rewrite not_elem_of_cons. destruct (list_remove x l); simpl.
      * split; [done |]. intros [_ Hx]. by apply IH in Hx.
      * split; [| done]. intros _. split; [done | by apply IH].
Qed.

Lemma list_remove_Some {A} `{EqDecision A} (x : A) (l l' : list A) :
  list_remove x l = Some l' <->
  exists l1 l2, l = l1 ++ x :: l2 /\ (x ∉ l1) /\ l' = l1 ++ l2.
Proof.
  revert l'. induction l as [|y l IH]; intros l'; simpl.
  - split; [done |]. intros (l1 & l2 & Hl & _). by destruct l1.
  - destruct (decide (y = x)) as [-> | Hne].
    + split.
      * intros [= <-]. exists [], l. split; [done |]. split; [apply not_elem_of_nil | done].
      * intros (l1 & l2 & Hl & Hx & ->). destruct l1 as [|z l1].
        -- by injection Hl as ->.
        -- injection Hl as -> _. destruct Hx. left.
    + split.
      * destruct (list_remove x l) as [l0|] eqn:E; [| done]. simpl. intros [= <-].
        destruct (proj1 (IH l0) eq_refl) as (l1 & l2 & -> & Hx & ->).
        exists (y :: l1), l2. split; [done |]. split; [| done].
        rewrite not_elem_of_cons. split; [congruence | done].
      * intros (l1 & l2 & Hl & Hx & ->). destruct l1 as [|z l1].
        -- injection Hl as -> _. done.
        -- injection Hl as <- ->. apply not_elem_of_cons in Hx as [_ Hx].
           rewrite (proj2 (IH (l1 ++ l2))); [done |]. by exists l1, l2.
Qed.

Lemma remove_ids_true ids : forall s : gset string,
  (remove_ids s ids).1 = true <-> NoDup ids /\ forall i, i ∈ ids -> i ∈ s.
Proof.
  induction ids as [|i ids IH]; intros s; simpl.
  - split; [intros _ | done]. split; [constructor |].
    intros i Hi. by apply elem_of_nil in Hi.
  - destruct (decide (i ∈ s)) as [Hin|Hout].
    + rewrite IH, NoDup_cons. split.
      * intros [Hnd Hall]. split.
        -- split; [| done]. intros Hi. specialize (Hall i Hi).
           apply elem_of_difference in Hall as [_ Hn]. apply Hn.
           by apply elem_of_singleton.
        -- intros j [-> | Hj]%elem_of_cons; [done |]. specialize (Hall j Hj).
           by apply elem_of_difference in Hall as [? _].
      * intros [[Hi Hnd] Hall]. split; [done |]. intros j Hj.
        apply elem_of_difference. split; [apply Hall; by right |].
        intros ->%elem_of_singleton. done.
    + simpl. split; [done |]. intros [_ Hall]. destruct Hout. apply Hall. left.
Qed.

Lemma remove_ids_difference ids : forall s : gset string,
  (remove_ids s ids).1 = true -> (remove_ids s ids).2 = s ∖ list_to_set ids.
Proof.
  induction ids as [|i ids IH]; intros s; simpl.
  - intros _. apply set_eq. intros x. rewrite elem_of_difference.
    split; [intros Hx; split; [done | apply not_elem_of_empty] | by intros [? _]].
  - destruct (decide (i ∈ s)); [| done]. intros Hok. rewrite (IH _ Hok).
    apply set_eq. intros x.
    rewrite !elem_of_difference, elem_of_union, elem_of_singleton. tauto.
Qed.

(** X1. [pop_module] returns [True] exactly when the module is in the
    node's module list, its ids are pairwise distinct and all in the
    node's id set; it then drops the first occurrence of the module and
    exactly its ids, and keeps the phase marker.  When the module is not
    in the list the node is left as it was; when it is in the list but
    the removal of the ids fails, the module is gone from the list all
    the same. *)
Theorem pop_module_outcome nt module :
  ((pop_module nt module).1 = true <->
   module ∈ module_list nt /\ NoDup (character_id_list module) /\
   forall i, i ∈ character_id_list module -> i ∈ character_id_set nt) /\
  ((pop_module nt module).1 = true ->
   character_id_set (pop_module nt module).2
   = character_id_set nt ∖ list_to_set (character_id_list module)) /\
  (module ∉ module_list nt -> pop_module nt module = (false, nt)) /\
  (module ∈ module_list nt ->
   exists l1 l2, module_list nt = l1 ++ module :: l2 /\ (module ∉ l1) /\
                 module_list (pop_module nt module).2 = l1 ++ l2) /\
  node_dfs_phase (pop_module nt module).2 = node_dfs_phase nt.
Proof.
  unfold pop_module.
  pose proof (remove_ids_true (character_id_list module) (character_id_set nt)) as Htrue.
  pose proof (remove_ids_difference (character_id_list module) (character_id_set nt)) as Hdiff.
  destruct (list_remove module (module_list nt)) as [ml|] eqn:E.
  - apply list_remove_Some in E as (l1 & l2 & Hl & Hx & ->).
    assert (module ∈ module_list nt) as Hin
      by (rewrite Hl; apply elem_of_app; right; left).
    destruct (remove_ids (character_id_set nt) (character_id_list module)) as [ok s].
    simpl in *. repeat split; try tauto.
    + intros _. by exists l1, l2.
  - apply list_remove_None in E. simpl. repeat split; try done.
    + intros (Hin & _). done.
Qed.

(** X2. Adding a module to a node and popping it again gives the node
    back, when the module was not yet in the node, its ids are pairwise
    distinct and none of them was in the node. *)
Theorem pop_module_add_module nt module :
  module ∉ module_list nt ->
  NoDup (character_id_list module) ->
  (forall i, i ∈ character_id_list module -> i ∉ character_id_set nt) ->
  pop_module (add_module nt module) module = (true, nt).
Proof.
  intros Hnew Hnd Hfree. unfold pop_module.
  assert (list_remove module (module_list (add_module nt module)) = Some (module_list nt))
    as ->.
  { apply list_remove_Some. exists (module_list nt), []. simpl.
    split; [done |]. split; [done | by rewrite app_nil_r]. }
  pose proof (remove_ids_true (character_id_list module)
                (character_id_set (add_module nt module))) as Htrue.
  pose proof (remove_ids_difference (character_id_list module)
                (character_id_set (add_module nt module))) as Hdiff.
  rewrite add_module_character_id_set in Htrue, Hdiff.
  rewrite add_module_character_id_set.
  destruct (remove_ids (character_id_set nt ∪ list_to_set (character_id_list module))
              (character_id_list module)) as [ok s].
  simpl in *.
  assert (ok = true) as ->.
  { apply Htrue. split; [done |]. intros i Hi.
    apply elem_of_union. right. by apply elem_of_list_to_set. }
  rewrite (Hdiff eq_refl). destruct nt as [ml set phase]. simpl in *.
  f_equal. f_equal. apply set_eq. intros i.
  rewrite elem_of_difference, elem_of_union, elem_of_list_to_set.
  specialize (Hfree i). tauto.
Qed.

(** ** Adding to and popping from a node of a mission team *)

Lemma add_to_node_true mt node_num module mt' :
  add_to_node mt node_num module = Return (true, mt') <->
  exists nt, node_team_list mt !! node_num = Some nt /\
    size (character_id_set nt) + length (character_id_list module) <= 4 /\
    unplaced mt (character_id_list module) /\
    mt' = added mt node_num nt module.
Proof.
  split.
  - intros Hadd. unfold add_to_node in Hadd.
    apply bind_Return in Hadd as (nt & Hnt & Hadd). apply index_Return in Hnt.
    exists nt. split; [done |].
    destruct (Nat.ltb_spec 4 (size (character_id_set nt)
                              + length (character_id_list module))); [done |].
    destruct (existed_characters mt (character_id_list module)) eqn:Hex; [done |].
    apply existed_characters_false in Hex. injection Hadd as <-. done.
  - intros (nt & Hnt & Hfit & Hfree & ->).
    rewrite (add_to_node_cases _ _ _ _ Hnt).
    destruct (Nat.ltb_spec 4 (size (character_id_set nt)
                              + length (character_id_list module))); [lia |].
    apply existed_characters_false in Hfree. by rewrite Hfree.
Qed.

(** X3. A module that [add_to_node] has just placed is taken out again by
    [pop_from_node], which gives the mission team back as it was, when
    the ids of the module are pairwise distinct and the module was not
    already in the node. *)
Theorem pop_from_node_add_to_node mt node_num module nt mt' :
  node_team_list mt !! node_num = Some nt ->
  module ∉ module_list nt ->
  NoDup (character_id_list module) ->
  add_to_node mt node_num module = Return (true, mt') ->
  pop_from_node mt' node_num module = (true, mt).
Proof.
  intros Hnt Hnew Hnd Hadd.
  apply add_to_node_true in Hadd as (nt' & Hnt' & _ & Hfree & ->).
  assert (nt' = nt) as -> by congruence.
  unfold pop_from_node, added. simpl.
  rewrite list_lookup_insert_eq by (by apply lookup_lt_Some in Hnt).
  rewrite pop_module_add_module; [| done | done |].
  2: { intros i Hi. apply (Hfree nt i); [by apply list_elem_of_lookup_2 in Hnt | done]. }
  rewrite list_insert_insert_eq, (list_insert_id _ _ _ Hnt).
  by destruct mt.
Qed.

Lemma character_cnt_sum mt :
  character_cnt mt = sum_list (map node_character_cnt (node_team_list mt)).
Proof.
  unfold character_cnt.
  assert (forall l a, foldl (fun total_cnt node_team =>
                               total_cnt + node_character_cnt node_team) a l
                      = a + sum_list (map node_character_cnt l)) as Hfold.
  { induction l as [|nt l IH]; intros a; simpl; [lia |]. rewrite IH. lia. }
  by rewrite Hfold.
Qed.

Lemma sum_list_insert (l : list ForgottenHallNodeTeam) k nt nt' :
  l !! k = Some nt ->
  sum_list (map node_character_cnt (<[k := nt']> l)) + node_character_cnt nt
  = sum_list (map node_character_cnt l) + node_character_cnt nt'.
Proof.
  revert k. induction l as [|x l IH]; intros [|k] Hk; simpl in *; try done.
  - injection Hk as ->. lia.
  - specialize (IH k Hk). lia.
Qed.

(** X4. A successful [add_to_node] changes the node it names and no other:
    the other nodes and all phase markers are as before, and the
    character count of the team grows by the number of ids of the module
    when these are pairwise distinct, and by no more in any case. *)
Theorem add_to_node_effect mt node_num module mt' :
  add_to_node mt node_num module = Return (true, mt') ->
  (forall j, j <> node_num -> node_team_list mt' !! j = node_team_list mt !! j) /\
  phases mt' = phases mt /\
  node_combat_types mt' = node_combat_types mt /\
  character_cnt mt' <= character_cnt mt + length (character_id_list module) /\
  (NoDup (character_id_list module) ->
   character_cnt mt' = character_cnt mt + length (character_id_list module)).
Proof.
  intros Hadd. apply add_to_node_true in Hadd as (nt & Hnt & _ & Hfree & ->).
  split; [| split; [| split; [done |]]].
  - intros j Hj. unfold added. simpl. by rewrite list_lookup_insert_ne.
  - unfold phases, added. simpl. rewrite list_fmap_insert. simpl.
    apply list_insert_id. by rewrite list_lookup_fmap, Hnt.
  - rewrite !character_cnt_sum. unfold added. simpl.
    pose proof (sum_list_insert _ _ _ (add_module nt module) Hnt) as Hsum.
    unfold node_character_cnt at 2 4 in Hsum.
    rewrite add_module_character_id_set in Hsum.
    assert (character_id_set nt ## list_to_set (character_id_list module)) as Hdis.
    { apply elem_of_disjoint. intros i Hi1 Hi2. apply elem_of_list_to_set in Hi2.
      apply (Hfree nt i); [by apply list_elem_of_lookup_2 in Hnt | done | done]. }
    rewrite (size_union _ _ Hdis) in Hsum.
    pose proof (size_list_to_set_le (character_id_list module)).
    split; [lia |]. intros Hnd.
    rewrite (size_list_to_set _ Hnd) in Hsum. lia.
Qed.

Lemma position_cases {A} (l : list A) (i : Z) :
  let len := Z.of_nat (length l) in
  ((0 <= i < len)%Z /\ position l i = Some (Z.to_nat i)) \/
  ((- len <= i < 0)%Z /\ position l i = Some (Z.to_nat (len + i))) \/
  (((i < - len)%Z \/ (len <= i)%Z) /\ position l i = None).
Proof.
  intros len. unfold position. fold len.
  destruct (Z.leb_spec 0 i), (Z.ltb_spec i len), (Z.leb_spec (- len) i);
    first [left; split; [lia | done]
          | right; left; split; [lia | done]
          | right; right; split; [lia | done]].
Qed.

Lemma add_to_node_not_IndexError mt k module :
  k < length (node_team_list mt) -> add_to_node mt k module <> IndexError.
Proof.
  intros Hk. destruct (lookup_lt_is_Some_2 _ _ Hk) as [nt Hnt].
  rewrite (add_to_node_cases _ _ _ _ Hnt).
  by repeat match goal with |- context [if ?b then _ else _] => destruct b end.
Qed.

(** X5. At a Python int [node_num], with [len] nodes: [add_to_node]
    indexes the node list unguarded and raises IndexError exactly when
    [node_num >= len] or [node_num < -len]; [pop_from_node] returns
    [False] and leaves the team as it was for [node_num >= len], which
    its guard stops, and raises IndexError for [node_num < -len], which
    the guard lets through.  From [-len] to [-1] both work on the node
    [len + node_num], and from 0 on they are the operations the search
    uses. *)
Theorem node_num_out_of_range mt (node_num : Z) module :
  let len := Z.of_nat (length (node_team_list mt)) in
  (add_to_node_int mt node_num module = IndexError
   <-> (len <= node_num)%Z \/ (node_num < - len)%Z) /\
  ((len <= node_num)%Z -> pop_from_node_int mt node_num module = Return (false, mt)) /\
  ((node_num < - len)%Z -> pop_from_node_int mt node_num module = IndexError) /\
  ((- len <= node_num < 0)%Z ->
   add_to_node_int mt node_num module
   = add_to_node mt (Z.to_nat (len + node_num)) module /\
   pop_from_node_int mt node_num module
   = Return (pop_from_node mt (Z.to_nat (len + node_num)) module)) /\
  (forall k : nat,
     add_to_node_int mt (Z.of_nat k) module = add_to_node mt k module /\
     pop_from_node_int mt (Z.of_nat k) module = Return (pop_from_node mt k module)).
Proof.
  intros len. subst len.
  assert (forall k : nat, k < length (node_team_list mt) ->
            add_to_node mt k module <> IndexError) as Hin
    by (intros k; apply add_to_node_not_IndexError).
  split; [| split; [| split; [| split]]].
  - unfold add_to_node_int.
    destruct (position_cases (node_team_list mt) node_num)
      as [[Hr ->] | [[Hr ->] | [Hr ->]]].
    + split; [| lia]. intros Herr. by apply Hin in Herr; [| lia].
    + split; [| lia]. intros Herr. by apply Hin in Herr; [| lia].
    + split; [lia | done].
  - intros Hge. unfold pop_from_node_int.
    by rewrite (proj2 (Z.leb_le _ node_num) Hge).
  - intros Hlt. unfold pop_from_node_int.
    rewrite (proj2 (Z.leb_gt _ node_num)) by lia.
    destruct (position_cases (node_team_list mt) node_num)
      as [[Hr _] | [[Hr _] | [_ ->]]]; [lia | lia | done].
  - intros Hneg. unfold add_to_node_int, pop_from_node_int.
    rewrite (proj2 (Z.leb_gt _ node_num)) by lia.
    destruct (position_cases (node_team_list mt) node_num)
      as [[Hr _] | [[_ ->] | [Hr _]]]; [lia | done | lia].
  - intros k. unfold add_to_node_int, pop_from_node_int.
    destruct (position_cases (node_team_list mt) (Z.of_nat k))
      as [[Hr ->] | [[Hr _] | [Hr ->]]]; [| lia |].
    + rewrite Nat2Z.id. rewrite (proj2 (Z.leb_gt _ (Z.of_nat k))) by lia. done.
    + assert (length (node_team_list mt) <= k) as Hge by lia.
      rewrite (proj2 (Z.leb_le _ (Z.of_nat k))) by lia.
      unfold add_to_node, index, pop_from_node.
      by rewrite (proj2 (lookup_ge_None _ _) Hge).
Qed.

(** ** The role predicates of a node *)

Lemma any_character_true (p : string -> bool) ids :
  any_character p ids = true <-> exists i, i ∈ ids /\ p i = true.
Proof.
  induction ids as [|i ids IH]; simpl.
  - split; [done | intros (i & Hi & _); by apply elem_of_nil in Hi].
  - destruct (p i) eqn:Hp.
    + split; [intros _; exists i; split; [left | done] | done].
    + rewrite IH. split.
      * intros (j & Hj & Hpj). exists j. split; [by right | done].
      * intros (j & [-> | Hj]%elem_of_cons & Hpj); [congruence | by exists j].
Qed.

Lemma any_module_character_true (p : string -> bool)
    (modules : list ForgottenHallTeamModule) :
  any_module_character p modules = true <->
  exists i, i ∈ concat (map character_id_list modules) /\ p i = true.
Proof.
  induction modules as [|module modules IH]; simpl.
  - split; [done | intros (i & Hi & _); by apply elem_of_nil in Hi].
  - destruct (any_character p (character_id_list module)) eqn:E.
    + apply any_character_true in E as (i & Hi & Hp).
      split; [intros _ | done]. exists i. split; [| done].
      apply elem_of_app. by left.
    + rewrite IH. split.
      * intros (i & Hi & Hp). exists i. split; [| done]. apply elem_of_app. by right.
      * intros (i & [Hi | Hi]%elem_of_app & Hp); [| by exists i].
        assert (any_character p (character_id_list module) = true) as E'
          by (apply any_character_true; by exists i).
        congruence.
Qed.

Lemma tidy_add_module nt module : tidy nt -> tidy (add_module nt module).
Proof.
  unfold tidy, module_ids. intros Ht. rewrite add_module_character_id_set, Ht.
  simpl. rewrite map_app, concat_app. simpl. rewrite app_nil_r.
  by rewrite list_to_set_app_L.
Qed.

Lemma tidy_new_node_team : tidy new_node_team.
Proof. done. Qed.

Lemma existsb_character_list (p : Character -> bool) nt :
  existsb p (node_character_list nt) = true <->
  exists i, i ∈ character_id_set nt /\ p (get_character_by_id i) = true.
Proof.
  unfold node_character_list. rewrite existsb_exists. split.
  - intros (c & Hc & Hp). apply in_map_iff in Hc as (i & <- & Hi).
    exists i. split; [| done]. by apply elem_of_iter_ids, list_elem_of_In.
  - intros (i & Hi & Hp). exists (get_character_by_id i). split; [| done].
    apply in_map_iff. exists i. split; [done |].
    by apply list_elem_of_In, elem_of_iter_ids.
Qed.

Lemma bool_eq_iff (a b : bool) : (a = true <-> b = true) -> a = b.
Proof. destruct a, b; intuition congruence. Qed.

(** X6. For a node whose id set is made of the ids of its modules, and
    disjoint role categories, [with_attack], [with_survival] and
    [with_support] of the node say exactly whether the score of the node
    counts an attacker, a survivor, a support; and [with_silver] says
    whether Silverwolf's id is in the id set, which under a coherent
    registry is the test [SILVERWOLF in character_list] of the score. *)
Theorem node_predicates_agree_with_score nt need :
  tidy nt -> roles_disjoint ->
  node_with_attack nt = (0 <? attack_cnt (node_team_score nt need)) /\
  node_with_survival nt = (0 <? survival_cnt (node_team_score nt need)) /\
  node_with_support nt = (0 <? support_cnt (node_team_score nt need)) /\
  (node_with_silver nt = true <-> id SILVERWOLF ∈ character_id_set nt) /\
  (registry_coherent ->
   node_with_silver nt = bool_decide (SILVERWOLF ∈ node_character_list nt)).
Proof.
  intros Htidy Hd.
  destruct (node_team_score_tallies nt need Hd) as (Ha & Hs & Hp & _).
  rewrite Ha, Hs, Hp. unfold attacker_count, survivor_count, support_count.
  rewrite !count_where_pos.
  assert (forall (p : string -> bool) (q : Character -> bool),
            (forall i, q (get_character_by_id i) = p i) ->
            any_module_character p (module_list nt)
            = existsb q (node_character_list nt)) as Hagree.
  { intros p q Hpq. apply bool_eq_iff.
    rewrite any_module_character_true, existsb_character_list. fold (module_ids nt).
    rewrite Htidy. setoid_rewrite elem_of_list_to_set. by setoid_rewrite Hpq. }
  assert (node_with_silver nt = true <-> id SILVERWOLF ∈ character_id_set nt) as Hsilver.
  { unfold node_with_silver. rewrite any_character_true.
    setoid_rewrite elem_of_iter_ids. split.
    - intros (i & Hi & Heq). apply bool_decide_eq_true in Heq. by subst.
    - intros Hi. exists (id SILVERWOLF). split; [done |]. by apply bool_decide_eq_true. }
  repeat split.
  - by apply Hagree.
  - by apply Hagree.
  - by apply Hagree.
  - apply Hsilver.
  - apply Hsilver.
  - intros Hreg. apply bool_eq_iff.
    rewrite Hsilver, bool_decide_eq_true. symmetry. by apply SILVERWOLF_in_node.
Qed.

(** ** Backtracking *)

Lemma sound_nodes n mt mt' :
  node_team_list mt' = node_team_list mt ->
  node_combat_types mt' = node_combat_types mt ->
  sound n mt -> sound n mt'.
Proof. intros Hl Hc. unfold sound. by rewrite Hl, Hc. Qed.

Lemma pop_module_set_node_dfs_phase p nt module :
  pop_module (set_node_dfs_phase p nt) module
  = ((pop_module nt module).1, set_node_dfs_phase p (pop_module nt module).2).
Proof.
  unfold pop_module. simpl.
  destruct (list_remove module (module_list nt)); [| done].
  by destruct (remove_ids (character_id_set nt) (character_id_list module)).
Qed.

Lemma set_node_dfs_phase_same nt p q :
  set_node_dfs_phase p (set_node_dfs_phase q nt) = set_node_dfs_phase p nt.
Proof. done. Qed.

Lemma set_node_dfs_phase_id nt : set_node_dfs_phase (node_dfs_phase nt) nt = nt.
Proof. by destruct nt. Qed.

Lemma alter_insert {A} (f : A -> A) (l : list A) k x :
  alter f k (<[k := x]> l) = <[k := f x]> l.
Proof.
  apply list_eq. intros i. destruct (decide (i = k)) as [-> | Hne].
  - rewrite list_lookup_alter_eq.
    destruct (decide (k < length l)) as [Hlt|Hge].
    + by rewrite !list_lookup_insert_eq.
    + rewrite !list_insert_ge by lia.
      by rewrite (proj2 (lookup_ge_None l k)) by lia.
  - rewrite list_lookup_alter_ne by done. by rewrite !list_lookup_insert_ne.
Qed.

Lemma module_not_in_node nt module :
  tidy nt -> character_id_list module <> [] ->
  (forall i, i ∈ character_id_list module -> i ∉ character_id_set nt) ->
  module ∉ module_list nt.
Proof.
  intros Htidy Hne Hfree Hin.
  destruct (character_id_list module) as [|i ids] eqn:E; [done |].
  apply (Hfree i); [left |]. rewrite Htidy. apply elem_of_list_to_set.
  unfold module_ids. apply list_elem_of_In, in_concat.
  exists (character_id_list module). split.
  - apply in_map. by apply list_elem_of_In.
  - rewrite E. by left.
Qed.

Lemma Sorted_snoc (l : list nat) (x : nat) :
  Sorted le l -> default 0 (last l) <= x -> Sorted le (l ++ [x]).
Proof.
  induction l as [|a l IH]; intros Hs Hx; simpl.
  - repeat constructor.
  - apply Sorted_inv in Hs as [Hs Hhd]. constructor.
    + apply IH; [done |]. destruct l; [simpl; lia | done].
    + destruct l as [|b l]; simpl in *.
      * constructor. done.
      * constructor. by apply HdRel_inv in Hhd.
Qed.

Lemma built_from_skip modules idx nt :
  built_from modules idx nt -> built_from modules (S idx) nt.
Proof.
  intros (Ht & Hsub & Hs & Hp). split; [done |]. split; [| done].
  etrans; [exact Hsub |].
  destruct (modules !! idx) as [m|] eqn:Hm.
  - rewrite (take_S_r _ _ _ Hm). by apply sublist_inserts_r.
  - apply lookup_ge_None in Hm. by rewrite !take_ge by lia.
Qed.

Lemma built_from_end modules idx nt :
  length modules <= idx -> built_from modules idx nt ->
  built_from modules (length modules) nt.
Proof.
  intros Hge (Ht & Hsub & Hs & Hp). split; [done |]. split; [| done].
  by rewrite take_ge in * by lia.
Qed.

Lemma built_from_add modules idx module nt :
  modules !! idx = Some module ->
  node_dfs_phase nt <= next_node_phase_of module ->
  built_from modules idx nt ->
  built_from modules (S idx)
    (set_node_dfs_phase (next_node_phase_of module) (add_module nt module)).
Proof.
  intros Hm Hle (Ht & Hsub & Hs & Hp). unfold built_from, last_category. simpl.
  split; [by apply (tidy_add_module nt module) |]. split; [| split].
  - rewrite (take_S_r _ _ _ Hm). by apply sublist_app.
  - rewrite map_app. simpl. apply Sorted_snoc; [done |].
    unfold last_category in Hp. rewrite Hp in Hle.
    by rewrite <- fmap_last in Hle.
  - by rewrite last_snoc.
Qed.

Lemma built_from_new modules : built_from modules 0 new_node_team.
Proof.
  split; [done |]. split; [apply sublist_nil_l |]. split; [constructor | done].
Qed.

Lemma leaves_built_snoc modules (calls : list CallTree) (call : CallTree) :
  Forall (fun scored => Forall (built_from modules (length modules))
                               (node_team_list scored))
         (List.concat (List.map leaves calls)) ->
  Forall (fun scored => Forall (built_from modules (length modules))
                               (node_team_list scored))
         (leaves call) ->
  Forall (fun scored => Forall (built_from modules (length modules))
                               (node_team_list scored))
         (List.concat (List.map leaves (calls ++ [call]))).
Proof. intros Hc Hl. rewrite leaves_snoc. by apply Forall_app. Qed.

Lemma try_node_restores n modules idx module entered recurse st node_idx :
  (forall m, m ∈ modules -> well_formed_module m) ->
  modules !! idx = Some module ->
  restores n modules (idx + 1) recurse ->
  sound n entered -> Forall (built_from modules idx) (node_team_list entered) ->
  node_idx < n ->
  loop_restores modules entered st ->
  exists st', try_node recurse module (next_node_phase_of module) st node_idx = Return st' /\
              loop_restores modules entered st'.
Proof.
  intros Hwf Hmod Hrec Hs Hbuilt Hk Hinv. destruct st as [[current best] calls].
  destruct Hinv as (Hl & Hc & Hleaves). simpl in *.
  assert (sound n current) as Hsc by by apply (sound_nodes n entered).
  unfold try_node.
  destruct (lookup_lt_is_Some_2 (node_team_list current) node_idx) as [nt Hnt].
  { destruct Hsc as (-> & _). done. }
  rewrite (proj2 (index_Return _ _ _) Hnt). simpl.
  destruct (Nat.leb_spec (node_dfs_phase nt) (next_node_phase_of module)) as [Hle|Hgt];
    [| by eexists].
  rewrite (add_to_node_cases _ _ _ _ Hnt).
  destruct (Nat.ltb_spec 4 (size (character_id_set nt) + length (character_id_list module)))
    as [Hover|Hfits]; [by eexists |].
  destruct (existed_characters current (character_id_list module)) eqn:Hex;
    [by eexists |].
  apply existed_characters_false in Hex. simpl.
  destruct (added_sound n current node_idx nt module Hsc Hnt Hfits Hex) as [Hsa _].
  fold (added current node_idx nt module).
  set (placed := set_phase_at node_idx (next_node_phase_of module)
                   (added current node_idx nt module)).
  assert (node_team_list placed
          = <[node_idx := set_node_dfs_phase (next_node_phase_of module)
                            (add_module nt module)]> (node_team_list current))
    as Hplaced by (unfold placed, set_phase_at, added; simpl; apply alter_insert).
  assert (built_from modules idx nt) as Hnt_built.
  { rewrite Forall_forall in Hbuilt. apply Hbuilt. rewrite <- Hl.
    by apply list_elem_of_lookup_2 in Hnt. }
  assert (Forall (built_from modules (idx + 1)) (node_team_list placed)) as Hpb.
  { rewrite Hplaced, Nat.add_1_r. apply Forall_insert.
    - rewrite Hl. eapply Forall_impl; [exact Hbuilt |]. apply built_from_skip.
    - by apply built_from_add. }
  destruct (Hrec placed best (set_phase_at_sound n _ _ _ Hsa) Hpb)
    as (mt' & best' & tree & Hrun & Hl' & Hc' & Hlv).
  rewrite Hrun. simpl. eexists. split; [done |].
  assert (well_formed_module module) as [Hne Hnd]
    by (apply Hwf; by apply list_elem_of_lookup_2 in Hmod).
  assert (module ∉ module_list nt) as Hnew.
  { apply module_not_in_node; [by destruct Hnt_built | done |].
    intros i Hi. apply (Hex nt i); [by apply list_elem_of_lookup_2 in Hnt | done]. }
  unfold loop_restores. simpl. split; [| split].
  - unfold pop_from_node. rewrite Hl', Hplaced.
    rewrite list_lookup_insert_eq by (by apply lookup_lt_Some in Hnt).
    rewrite pop_module_set_node_dfs_phase.
    rewrite pop_module_add_module; [| done | done |].
    2: { intros i Hi. apply (Hex nt i); [by apply list_elem_of_lookup_2 in Hnt | done]. }
    simpl. rewrite list_insert_insert_eq, alter_insert.
    rewrite set_node_dfs_phase_same, set_node_dfs_phase_id.
    by rewrite (list_insert_id _ _ _ Hnt).
  - unfold pop_from_node. rewrite Hl', Hplaced.
    rewrite list_lookup_insert_eq by (by apply lookup_lt_Some in Hnt).
    destruct (pop_module _ module). simpl. by rewrite Hc'.
  - by apply leaves_built_snoc.
Qed.

Lemma for_each_try_node_restores n modules idx module entered recurse (l : list nat) :
  (forall m, m ∈ modules -> well_formed_module m) ->
  modules !! idx = Some module ->
  restores n modules (idx + 1) recurse ->
  sound n entered -> Forall (built_from modules idx) (node_team_list entered) ->
  Forall (fun i => i < n) l ->
  forall st, loop_restores modules entered st ->
  exists st', for_each (try_node recurse module (next_node_phase_of module)) l st
              = Return st' /\
              loop_restores modules entered st'.
Proof.
  intros Hwf Hmod Hrec Hs Hbuilt.
  induction l as [|i l IH]; intros Hl st Hinv; simpl.
  - by exists st.
  - apply Forall_cons in Hl as [Hi Hl].
    destruct (try_node_restores _ _ _ _ _ _ st i Hwf Hmod Hrec Hs Hbuilt Hi Hinv)
      as (st1 & -> & Hinv1).
    simpl. by apply IH.
Qed.

Lemma dfs_restores n modules :
  (forall m, m ∈ modules -> well_formed_module m) ->
  forall rest idx,
    drop idx modules = rest -> idx <= length modules ->
    restores n modules idx (dfs n rest idx).
Proof.
  intros Hwf.
  induction rest as [|module rest IH]; intros idx Hdrop Hidx mt best Hs Hbuilt.
  - assert (idx = length modules) as Hend.
    { apply (f_equal length) in Hdrop. rewrite length_drop in Hdrop. simpl in Hdrop. lia. }
    simpl. destruct (valid_mission_team mt) eqn:Hvalid.
    + destruct (update_score_Return mt (sound_well_formed n mt Hs))
        as (scored & Hrun & (_ & Hc & Hl) & _).
      rewrite Hrun. simpl. eexists _, _, _. split; [done |].
      split; [done |]. split; [done |].
      apply Forall_singleton. rewrite Hl, <- Hend. done.
    + eexists _, _, _. split; [done |]. split; [done |]. split; [done |].
      by apply Forall_nil.
  - assert (modules !! idx = Some module) as Hmod.
    { rewrite <- (Nat.add_0_r idx), <- lookup_drop, Hdrop. done. }
    assert (drop (idx + 1) modules = rest) as Hdrop'.
    { rewrite Nat.add_1_r. by rewrite (drop_S _ _ _ Hmod) in Hdrop; injection Hdrop. }
    assert (idx + 1 <= length modules) as Hidx'.
    { apply lookup_lt_Some in Hmod. lia. }
    specialize (IH (idx + 1) Hdrop' Hidx').
    simpl.
    destruct (impossibly_greater_Return n best mt Hs)
      as (verdict & current & -> & (_ & Hc & Hl)).
    simpl. destruct verdict.
    + eexists _, _, _. split; [done |]. split; [done |]. split; [done |].
      by apply Forall_nil.
    + destruct (for_each_try_node_restores n modules idx module mt
                  (dfs n rest (idx + 1)) (range n) Hwf Hmod IH Hs Hbuilt (range_lt n)
                  (current, best, []))
        as ([[current1 best1] calls] & -> & (Hl1 & Hc1 & Hlv1)).
      { unfold loop_restores. simpl. split; [done |]. split; [done |].
        by apply Forall_nil. }
      simpl in *.
      destruct (IH current1 best1) as (mt' & best' & call & -> & Hl' & Hc' & Hlv').
      { by apply (sound_nodes n mt). }
      { rewrite Hl1, Nat.add_1_r. eapply Forall_impl; [exact Hbuilt |].
        apply built_from_skip. }
      simpl. eexists _, _, _. split; [done |].
      split; [congruence |]. split; [congruence |].
      by apply leaves_built_snoc.
Qed.

(** X7. For well-formed modules every call of [dfs] hands the mission
    team back with the nodes it was given: the module lists, id sets and
    phase markers of all nodes are what they were at the call, whatever
    was placed and scored in between. *)
Theorem dfs_gives_the_team_back n modules idx mt best :
  (forall m, m ∈ modules -> well_formed_module m) ->
  idx <= length modules ->
  sound n mt -> Forall (built_from modules idx) (node_team_list mt) ->
  exists mt' best' tree,
    dfs n (drop idx modules) idx mt best = Return (mt', best', tree) /\
    node_team_list mt' = node_team_list mt /\
    node_combat_types mt' = node_combat_types mt.
Proof.
  intros Hwf Hidx Hs Hbuilt.
  destruct (dfs_restores n modules Hwf (drop idx modules) idx eq_refl Hidx mt best Hs Hbuilt)
    as (mt' & best' & tree & Hrun & Hl & Hc & _).
  by exists mt', best', tree.
Qed.

Lemma new_mission_team_built modules (ncts : list (list CharacterCombatType)) :
  Forall (built_from modules 0) (node_team_list (new_mission_team ncts)).
Proof.
  apply Forall_forall. intros nt Hnt. simpl in Hnt.
  apply elem_of_replicate in Hnt as [-> _]. apply built_from_new.
Qed.

(** X8. For well-formed modules the team behind a result of the search
    holds in each node modules of the configuration, in the order of the
    configuration and with categories that do not decrease; the id set
    of the node is made of exactly their ids, so that every character of
    the result is registered under an id of a configured module. *)
Theorem search_result_built_from_modules (ncts : list (list CharacterCombatType))
    (modules : list ForgottenHallTeamModule) (result : list (list Character)) :
  (forall m, m ∈ modules -> well_formed_module m) ->
  search_best_mission_team ncts modules = Return (Some result) ->
  exists best,
    result = character_list best /\
    Forall (fun nt =>
              tidy nt /\ sublist (module_list nt) modules /\
              Sorted le (map next_node_phase_of (module_list nt)))
           (node_team_list best) /\
    forall chars c, chars ∈ result -> c ∈ chars ->
      exists m i, m ∈ modules /\ i ∈ character_id_list m /\ c = get_character_by_id i.
Proof.
  intros Hwf Hsearch.
  destruct (search_run ncts modules)
    as (final & best & tree & Hrun & Hres & _ & _ & _ & _ & _ & _ & Hbest).
  destruct (dfs_restores (length ncts) modules Hwf modules 0 (drop_0 _) (Nat.le_0_l _)
              (new_mission_team ncts) None (new_mission_team_sound ncts)
              (new_mission_team_built modules ncts))
    as (final' & best' & tree' & Hrun' & _ & _ & Hleaves).
  rewrite Hrun in Hrun'. injection Hrun' as <- <- <-.
  rewrite Hres in Hsearch. injection Hsearch as Hsearch.
  destruct best as [b|]; [| done]. injection Hsearch as <-.
  pose proof (foldl_update_best_None (leaves tree)) as Hmax.
  rewrite <- Hbest in Hmax. apply first_maximum_elem in Hmax.
  rewrite Forall_forall in Hleaves. specialize (Hleaves b Hmax).
  assert (Forall (fun nt =>
              tidy nt /\ sublist (module_list nt) modules /\
              Sorted le (map next_node_phase_of (module_list nt)))
           (node_team_list b)) as Hnodes.
  { eapply Forall_impl; [exact Hleaves |]. intros nt (Ht & Hsub & Hs & _).
    rewrite take_ge in Hsub by lia. done. }
  exists b. split; [done |]. split; [done |].
  intros chars c Hchars Hc. unfold character_list in Hchars.
  apply list_elem_of_fmap in Hchars as (nt & -> & Hnt).
  unfold node_character_list in Hc.
  apply list_elem_of_fmap in Hc as (i & -> & Hi). apply elem_of_iter_ids in Hi.
  rewrite Forall_forall in Hnodes. destruct (Hnodes nt Hnt) as (Ht & Hsub & _).
  rewrite Ht in Hi. apply elem_of_list_to_set in Hi.
  unfold module_ids in Hi. apply list_elem_of_In, in_concat in Hi as (ids & Hids & Hi).
  apply in_map_iff in Hids as (m & <- & Hm).
  exists m, i. split; [| split; [by apply list_elem_of_In | done]].
  apply (elem_of_sublist (module_list nt)); [by apply list_elem_of_In | done].
Qed.

(** ** A mission without nodes *)

Lemma update_best_cases best current :
  exists b', update_best best current = Some b' /\ (b' = current \/ best = Some b').
Proof.
  unfold update_best. destruct best as [b|]; [| by exists current; auto].
  destruct (Qltb (total_score b) (total_score current)); eexists; eauto.
Qed.

Lemma dfs_no_nodes (rest : list ForgottenHallTeamModule) : forall idx mt best,
  node_team_list mt = [] -> node_combat_types mt = [] ->
  (forall b, best = Some b -> node_team_list b = []) ->
  exists mt' b' tree,
    dfs 0 rest idx mt best = Return (mt', Some b', tree) /\
    node_team_list mt' = [] /\ node_combat_types mt' = [] /\
    node_team_list b' = [].
Proof.
  induction rest as [|module rest IH]; intros idx mt best Hl Hc Hbest.
  - assert (valid_mission_team mt = true) as Hvalid
      by (unfold valid_mission_team; by rewrite Hl).
    assert (update_score mt = Return (set_scores_of_team 0 0 0 0 0 0 mt)) as Hscore.
    { unfold update_score.
      assert (valid_mission_team (set_scores_of_team 0 0 0 0 0 0 mt) = true) as ->
        by exact Hvalid.
      simpl. by rewrite Hc. }
    cbn [dfs]. rewrite Hvalid, Hscore. cbn [mbind outcome_bind].
    destruct (update_best_cases best (set_scores_of_team 0 0 0 0 0 0 mt))
      as (b' & -> & [-> | Hb']).
    + eexists _, _, _. split; [done |]. simpl. auto.
    + eexists _, _, _. split; [done |]. simpl. split; [done |]. split; [done |].
      by apply Hbest.
  - assert (sound 0 mt) as Hs.
    { unfold sound. rewrite Hl, Hc. split; [done |]. split; [done |].
      split; [constructor |]. intros i j nti ntj _ Hi. done. }
    simpl.
    destruct (impossibly_greater_Return 0 best mt Hs)
      as (verdict & current & Himp & (_ & Hc1 & Hl1)).
    rewrite Himp. simpl. destruct verdict.
    + destruct best as [b|].
      * eexists _, _, _. split; [done |]. rewrite Hl1, Hc1. auto.
      * unfold impossibly_greater in Himp.
        by destruct (valid_mission_team mt).
    + destruct (IH (idx + 1) current best) as (mt' & b' & call & -> & Hl' & Hc' & Hb');
        [congruence | congruence | done |].
      simpl. eexists _, _, _. split; [done |]. auto.
Qed.

Lemma search_without_nodes (modules : list ForgottenHallTeamModule) :
  search_best_mission_team [] modules = Return (Some []).
Proof.
  unfold search_best_mission_team.
  destruct (dfs_no_nodes modules 0 (new_mission_team []) None)
    as (mt' & b' & tree & Hrun & _ & _ & Hb'); [done | done | done |].
  simpl in Hrun. simpl. rewrite Hrun. simpl.
  unfold character_list. by rewrite Hb'.
Qed.

(** X9. With no node at all the search does not answer none: the team
    without nodes counts as filled, so whatever the modules are the
    result is the assignment with no node list.  With nodes and no
    module it answers none. *)
Theorem search_without_nodes_or_modules :
  (forall modules : list ForgottenHallTeamModule,
     search_best_mission_team [] modules = Return (Some [])) /\
  (forall ncts : list (list CharacterCombatType),
     ncts <> [] -> search_best_mission_team ncts [] = Return None).
Proof.
  split; [apply search_without_nodes |].
  intros ncts Hne. destruct ncts as [|need ncts]; [done |]. reflexivity.
Qed.

(** ** More on the scores *)

Lemma for_each_add_node_score_same_nodes (l : list nat) : forall self self',
  for_each add_node_score l self = Return self' -> same_nodes self self'.
Proof.
  induction l as [|i l IH]; intros self self'; simpl.
  - by intros [= <-].
  - intros Hrun. apply bind_Return in Hrun as (self1 & Hstep & Hrun).
    apply IH in Hrun. apply (same_nodes_trans _ self1); [| done].
    unfold add_node_score in Hstep.
    apply bind_Return in Hstep as (nt & _ & Hstep).
    apply bind_Return in Hstep as (need & _ & Hstep).
    by injection Hstep as <-.
Qed.

Lemma update_score_same_nodes mt mt' :
  update_score mt = Return mt' -> same_nodes mt mt'.
Proof.
  unfold update_score.
  destruct (valid_mission_team (set_scores_of_team 0 0 0 0 0 0 mt)); simpl.
  - intros Hrun. by apply for_each_add_node_score_same_nodes in Hrun.
  - by intros [= <-].
Qed.

(** X10. [update_score] forgets the scores the team carried: two teams
    with the same nodes and requirements get the same result, and scoring
    a team that has just been scored changes nothing. *)
Theorem update_score_overwrites mt1 mt2 :
  same_nodes mt1 mt2 ->
  update_score mt1 = update_score mt2 /\
  (forall scored, update_score mt1 = Return scored ->
                  update_score scored = Return scored).
Proof.
  intros Hsame.
  assert (forall a b, same_nodes a b -> update_score a = update_score b) as Heq.
  { intros a b (Hn & Hc & Hl). unfold update_score.
    assert (set_scores_of_team 0 0 0 0 0 0 a = set_scores_of_team 0 0 0 0 0 0 b) as ->;
      [| done].
    unfold set_scores_of_team. by rewrite Hn, Hc, Hl. }
  split; [by apply Heq |].
  intros scored Hrun. rewrite <- Hrun. symmetry. apply Heq.
  by apply update_score_same_nodes.
Qed.

Lemma count_where_le_length (p : Character -> bool) chars :
  count_where p chars <= length chars.
Proof.
  induction chars as [|c chars IH]; [done |].
  rewrite count_where_cons. simpl. destruct (p c); lia.
Qed.

Lemma count_where_and_le (p q : Character -> bool) chars :
  count_where (fun c => p c && q c) chars <= count_where p chars.
Proof.
  induction chars as [|c chars IH]; [done |].
  rewrite !count_where_cons. destruct (p c), (q c); simpl; lia.
Qed.

Lemma node_team_score_tally nt need :
  tallies (node_team_score nt need)
  = tally_of need (_cal_need_combat_type new_score (node_character_list nt) need).2
             (node_character_list nt).
Proof.
  unfold node_team_score.
  destruct (_cal_need_combat_type new_score (node_character_list nt) need)
    as [self cal] eqn:E.
  destruct (_cal_total_score_fields
              (_cal_character_cnt self (node_character_list nt) need cal)) as (-> & _).
  destruct (_cal_character_cnt_tallies need cal (node_character_list nt) self) as (-> & _).
  assert (tallies self = [0; 0; 0; 0; 0; 0; 0]) as ->.
  { revert E. rewrite _cal_need_combat_type_unfold.
    destruct (decide (SILVERWOLF ∈ node_character_list nt)); by intros [= <- _]. }
  done.
Qed.

(** The tallies of a node are bounded by its number of characters, and the
    matches by the tallies of their role. *)
Lemma node_team_score_bounds nt need :
  let score := node_team_score nt need in
  attack_cnt score + survival_cnt score + support_cnt score
  <= size (character_id_set nt) /\
  combat_type_attack_cnt score <= attack_cnt score /\
  combat_type_attack_cnt_under_silver score <= attack_cnt score /\
  combat_type_attack_cnt score + combat_type_attack_cnt_under_silver score
  + combat_type_other_cnt score + combat_type_other_cnt_under_silver score
  <= size (character_id_set nt).
Proof.
  intros score. pose proof (node_team_score_tally nt need) as Ht.
  fold score in Ht. unfold tallies, tally_of in Ht.
  injection Ht as -> -> -> -> -> -> ->.
  set (chars := node_character_list nt).
  set (cal := (_cal_need_combat_type new_score chars need).2).
  assert (length chars = size (character_id_set nt)) as <-
    by (unfold chars, node_character_list; by rewrite length_map, length_iter_ids).
  split; [| split; [apply count_where_and_le | split; [apply count_where_and_le |]]].
  - clear. induction chars as [|c chars IH]; [done |].
    rewrite !count_where_cons. simpl length.
    unfold first_role_survivor, first_role_supporter in *.
    destruct (is_attacker c), (is_survivor c), (is_supporter c); simpl; lia.
  - clearbody cal. clear. induction chars as [|c chars IH]; [done |].
    rewrite !count_where_cons. simpl length.
    unfold first_role_other, in_derived in *.
    destruct (is_attacker c), (is_other c), (in_original need c),
      (bool_decide (combat_type c ∈ cal)); simpl; lia.
Qed.

Lemma Qnat_nonneg n : (0 <= Qnat n)%Q.
Proof. unfold Qnat, Qle. simpl. lia. Qed.

Lemma Qnat_le n m : n <= m -> (Qnat n <= Qnat m)%Q.
Proof. intros Hle. unfold Qnat, Qle. simpl. lia. Qed.

Lemma Qnat_lt n m : n < m -> (Qnat n + 1 <= Qnat m)%Q.
Proof. intros Hlt. unfold Qnat, Qle, Qplus. simpl. lia. Qed.

Lemma Qnat_pos n : 0 < n -> (1 <= Qnat n)%Q.
Proof. intros Hlt. unfold Qnat, Qle. simpl. lia. Qed.

Lemma Qdiv_Qnat_le (q : Q) n :
  (0 <= q)%Q -> 0 < n -> (0 <= q / Qnat n /\ q / Qnat n <= q)%Q.
Proof.
  intros Hq Hn. pose proof (Qnat_pos n Hn) as H1.
  assert (0 < Qnat n)%Q as Hpos by lra.
  split.
  - apply Qle_shift_div_l; [done |]. lra.
  - apply Qle_shift_div_r; [done |]. nra.
Qed.

Lemma Qnat_lt_inv n m : (Qnat n < Qnat m)%Q -> n < m.
Proof. unfold Qnat, Qlt. simpl. lia. Qed.

Lemma node_team_score_not_need nt need :
  combat_type_not_need_cnt (node_team_score nt need)
  = extra_affinity_count (node_character_list nt) need.
Proof.
  rewrite <- not_need_cnt_extra. unfold node_team_score.
  destruct (_cal_need_combat_type new_score (node_character_list nt) need)
    as [self cal].
  destruct (_cal_total_score_fields
              (_cal_character_cnt self (node_character_list nt) need cal))
    as (_ & -> & _).
  by destruct (_cal_character_cnt_tallies need cal (node_character_list nt) self)
    as (_ & -> & _).
Qed.

Lemma extra_affinity_count_le chars need :
  extra_affinity_count chars need <= length chars.
Proof.
  unfold extra_affinity_count, extra_affinities, novel_affinities.
  destruct (bool_decide (SILVERWOLF ∈ chars)); [| simpl; lia].
  fold (not_needed need chars).
  assert (forall l : list CharacterCombatType, length (remove_dups l) <= length l) as Hrd.
  { induction l as [|x l IH]; simpl; [done |].
    destruct (decide_rel elem_of x l); simpl; lia. }
  etrans; [apply Hrd |]. unfold not_needed.
  etrans; [apply filter_length_le |]. by rewrite length_map.
Qed.

Ltac try_value v :=
  exists v; split; [repeat first [by left | right] | vm_compute; reflexivity].

(** The values the attack tier of a node of at most four characters can
    take. *)
Lemma node_attack_score_values nt need :
  size (character_id_set nt) <= 4 ->
  exists v, v ∈ [0; 1e6; 1e7; 11e6; 9e6; 45e5; 3e6; 225e4; 55e5; 4e6; 325e4]%Q /\
            (node_attack_score (node_team_score nt need) == v)%Q.
Proof.
  intros Hsize.
  destruct (node_team_score_scores nt need) as (_ & -> & _).
  pose proof (node_team_score_not_need nt need) as Hn.
  pose proof (extra_affinity_count_le (node_character_list nt) need) as Hle.
  assert (length (node_character_list nt) = size (character_id_set nt)) as Hlen
    by (unfold node_character_list; by rewrite length_map, length_iter_ids).
  set (score := node_team_score nt need) in *.
  assert (combat_type_not_need_cnt score <= 4) as Hn4 by lia.
  cbv zeta.
  destruct (0 <? attack_cnt score), (0 <? combat_type_attack_cnt score),
    (0 <? combat_type_attack_cnt_under_silver score);
    destruct (combat_type_not_need_cnt score) as [|[|[|[|[|n]]]]]; try lia; simpl;
    first [ try_value 0%Q | try_value 1e6%Q | try_value 1e7%Q | try_value 11e6%Q
          | try_value 9e6%Q | try_value 45e5%Q | try_value 3e6%Q | try_value 225e4%Q
          | try_value 55e5%Q | try_value 4e6%Q | try_value 325e4%Q ].
Qed.

Lemma attack_values_gap (v1 v2 : Q) :
  v1 ∈ [0; 1e6; 1e7; 11e6; 9e6; 45e5; 3e6; 225e4; 55e5; 4e6; 325e4]%Q ->
  v2 ∈ [0; 1e6; 1e7; 11e6; 9e6; 45e5; 3e6; 225e4; 55e5; 4e6; 325e4]%Q ->
  (v1 < v2)%Q -> (v1 + 250000 <= v2)%Q.
Proof.
  intros H1 H2.
  repeat (apply elem_of_cons in H1 as [-> | H1]); [.. | by apply elem_of_nil in H1];
    repeat (apply elem_of_cons in H2 as [-> | H2]); try (by apply elem_of_nil in H2);
    intros Hlt;
    first [ apply Qle_bool_iff; vm_compute; reflexivity
          | exfalso; apply (Qlt_not_le _ _ Hlt), Qle_bool_iff; vm_compute; reflexivity ].
Qed.

Lemma attack_values_bounds (v : Q) :
  v ∈ [0; 1e6; 1e7; 11e6; 9e6; 45e5; 3e6; 225e4; 55e5; 4e6; 325e4]%Q ->
  (0 <= v /\ v <= 11000000)%Q.
Proof.
  intros Hv.
  repeat (apply elem_of_cons in Hv as [-> | Hv]); [.. | by apply elem_of_nil in Hv];
    split; apply Qle_bool_iff; vm_compute; reflexivity.
Qed.

Ltac plain_numerals :=
  change 1e8%Q with 100000000%Q in *;
  change 1e7%Q with 10000000%Q in *;
  change 1e6%Q with 1000000%Q in *;
  change 1e5%Q with 100000%Q in *;
  change 1e4%Q with 10000%Q in *;
  change 1e3%Q with 1000%Q in *.

(** The tiers of the score of a node of at most four characters, each
    within its own range. *)
Lemma node_score_ranges nt need :
  size (character_id_set nt) <= 4 ->
  let score := node_team_score nt need in
  exists N v p,
    N <= 4 /\ p <= 4 /\
    v ∈ [0; 1e6; 1e7; 11e6; 9e6; 45e5; 3e6; 225e4; 55e5; 4e6; 325e4]%Q /\
    (node_cnt_score score == Qnat N * 100000000)%Q /\
    (node_attack_score score == v)%Q /\
    (node_survival_score score == 0 \/ node_survival_score score == 100000)%Q /\
    (node_support_score score == Qnat p * 10000)%Q /\
    (0 <= node_combat_type_score score /\ node_combat_type_score score <= 7600)%Q /\
    (node_total_score score
     == node_cnt_score score + node_attack_score score + node_survival_score score
        + node_support_score score + node_combat_type_score score)%Q.
Proof.
  intros Hsize score.
  destruct (node_team_score_scores nt need) as (Hcnt & _ & Hsup & Haff & Htot).
  destruct (node_team_score_bounds nt need) as (HN & _ & _ & Hmatch).
  destruct (node_attack_score_values nt need Hsize) as (v & Hv & Hatt).
  pose proof (node_team_score_survival nt need) as Hsur.
  fold score in Hcnt, Hsup, Haff, Htot, HN, Hmatch, Hatt, Hsur.
  exists (attack_cnt score + survival_cnt score + support_cnt score), v,
    (support_cnt score).
  split; [lia |]. split; [lia |]. split; [done |].
  split; [by rewrite Hcnt |]. split; [done |]. split; [| split; [| split]].
  - rewrite Hsur. destruct (0 <? survival_cnt score); [right | left]; reflexivity.
  - by rewrite Hsup.
  - rewrite Haff. cbv zeta. plain_numerals.
    pose proof (Qnat_nonneg (combat_type_attack_cnt score + combat_type_other_cnt score)).
    pose proof (Qnat_le (combat_type_attack_cnt score + combat_type_other_cnt score) 4
                  ltac:(lia)) as Ho.
    pose proof (Qnat_nonneg (combat_type_attack_cnt_under_silver score
                             + combat_type_other_cnt_under_silver score)).
    pose proof (Qnat_le (combat_type_attack_cnt_under_silver score
                         + combat_type_other_cnt_under_silver score) 4
                  ltac:(lia)) as Hx.
    change (Qnat 4) with 4%Q in Ho, Hx.
    destruct (Nat.ltb_spec 0 (combat_type_not_need_cnt score)) as [Hpos|_]; [| lra].
    destruct (Qdiv_Qnat_le
                (0.9 * Qnat (combat_type_attack_cnt_under_silver score
                             + combat_type_other_cnt_under_silver score) * 1000)%Q
                (combat_type_not_need_cnt score)) as [Hd0 Hd1]; [lra | done |].
    lra.
  - by rewrite Htot.
Qed.

(** X11. For two nodes of at most four characters each, the total score
    compares the nodes tier by tier: the node with the greater count tier
    has the greater total; at equal count tiers the one with the greater
    attack tier; at equal count and attack tiers the one with the greater
    survival tier; then the support tier; then the affinity tier. *)
Theorem node_total_score_lexicographic nt1 nt2 need1 need2 :
  size (character_id_set nt1) <= 4 -> size (character_id_set nt2) <= 4 ->
  let s1 := node_team_score nt1 need1 in
  let s2 := node_team_score nt2 need2 in
  ((node_cnt_score s1 < node_cnt_score s2)%Q ->
   (node_total_score s1 < node_total_score s2)%Q) /\
  ((node_cnt_score s1 == node_cnt_score s2)%Q ->
   (node_attack_score s1 < node_attack_score s2)%Q ->
   (node_total_score s1 < node_total_score s2)%Q) /\
  ((node_cnt_score s1 == node_cnt_score s2)%Q ->
   (node_attack_score s1 == node_attack_score s2)%Q ->
   (node_survival_score s1 < node_survival_score s2)%Q ->
   (node_total_score s1 < node_total_score s2)%Q) /\
  ((node_cnt_score s1 == node_cnt_score s2)%Q ->
   (node_attack_score s1 == node_attack_score s2)%Q ->
   (node_survival_score s1 == node_survival_score s2)%Q ->
   (node_support_score s1 < node_support_score s2)%Q ->
   (node_total_score s1 < node_total_score s2)%Q) /\
  ((node_cnt_score s1 == node_cnt_score s2)%Q ->
   (node_attack_score s1 == node_attack_score s2)%Q ->
   (node_survival_score s1 == node_survival_score s2)%Q ->
   (node_support_score s1 == node_support_score s2)%Q ->
   (node_combat_type_score s1 < node_combat_type_score s2)%Q ->
   (node_total_score s1 < node_total_score s2)%Q).
Proof.
  intros Hsize1 Hsize2 s1 s2.
  destruct (node_score_ranges nt1 need1 Hsize1)
    as (N1 & v1 & p1 & HN1 & Hp1 & Hv1 & Hc1 & Ha1 & Hs1 & Hu1 & Hf1 & Ht1).
  destruct (node_score_ranges nt2 need2 Hsize2)
    as (N2 & v2 & p2 & HN2 & Hp2 & Hv2 & Hc2 & Ha2 & Hs2 & Hu2 & Hf2 & Ht2).
  fold s1 in Hc1, Ha1, Hs1, Hu1, Hf1, Ht1. fold s2 in Hc2, Ha2, Hs2, Hu2, Hf2, Ht2.
  destruct (attack_values_bounds v1 Hv1) as [Hv1a Hv1b].
  destruct (attack_values_bounds v2 Hv2) as [Hv2a Hv2b].
  pose proof (attack_values_gap v1 v2 Hv1 Hv2) as Hgap.
  pose proof (Qnat_nonneg p1). pose proof (Qnat_nonneg p2).
  pose proof (Qnat_le p1 4 Hp1) as Hp1'. pose proof (Qnat_le p2 4 Hp2) as Hp2'.
  change (Qnat 4) with 4%Q in Hp1', Hp2'.
  rewrite Ht1, Ht2, Hc1, Hc2, Ha1, Ha2, Hu1, Hu2.
  repeat split.
  - intros Hlt.
    assert (N1 < N2) as HN by (apply Qnat_lt_inv; lra).
    pose proof (Qnat_lt N1 N2 HN).
    destruct Hs1 as [-> | ->], Hs2 as [-> | ->]; lra.
  - intros Heq Hlt. specialize (Hgap Hlt).
    destruct Hs1 as [-> | ->], Hs2 as [-> | ->]; lra.
  - intros Heq Heqa Hlt.
    destruct Hs1 as [Hs1 | Hs1], Hs2 as [Hs2 | Hs2]; rewrite Hs1, Hs2 in *; lra.
  - intros Heq Heqa Heqs Hlt.
    assert (p1 < p2) as Hp by (apply Qnat_lt_inv; lra).
    pose proof (Qnat_lt p1 p2 Hp).
    destruct Hs1 as [Hs1 | Hs1], Hs2 as [Hs2 | Hs2]; rewrite Hs1, Hs2 in *; lra.
  - intros Heq Heqa Heqs Hequ Hlt. lra.
Qed.

(** X12. A node with an attacker of a required affinity has the full
    attack tier of 11000000; a node without one stays at 10000000 or
    below, whatever Silverwolf grants. *)
Theorem original_attacker_bonus nt need :
  let chars := node_character_list nt in
  let score := node_team_score nt need in
  ((exists c, c ∈ chars /\ is_attacker c = true /\ combat_type c ∈ need) ->
   (node_attack_score score == 11000000)%Q) /\
  (~ (exists c, c ∈ chars /\ is_attacker c = true /\ combat_type c ∈ need) ->
   (node_attack_score score <= 10000000)%Q).
Proof.
  intros chars score.
  destruct (node_team_score_scores nt need) as (_ & Hatt & _).
  destruct (node_team_score_bounds nt need) as (_ & Hca & _).
  pose proof (node_team_score_tally nt need) as Ht.
  fold score in Hatt, Hca, Ht. fold chars in Ht.
  unfold tallies, tally_of in Ht. injection Ht as _ _ _ Hcnt _ _ _.
  assert ((0 <? combat_type_attack_cnt score) = true
          <-> exists c, c ∈ chars /\ is_attacker c = true /\ combat_type c ∈ need) as Hiff.
  { rewrite Hcnt, count_where_pos, existsb_exists. split.
    - intros (c & Hc & Hp). apply andb_true_iff in Hp as [Ha Ho].
      exists c. split; [by apply list_elem_of_In |]. split; [done |].
      by apply bool_decide_eq_true in Ho.
    - intros (c & Hc & Ha & Ho). exists c. split; [by apply list_elem_of_In |].
      apply andb_true_iff. split; [done | by apply bool_decide_eq_true]. }
  rewrite Hatt. cbv zeta. plain_numerals. split.
  - intros Hex. apply Hiff in Hex. rewrite Hex.
    apply Nat.ltb_lt in Hex.
    destruct (Nat.ltb_spec 0 (attack_cnt score)); [| lia]. reflexivity.
  - intros Hno. destruct (0 <? combat_type_attack_cnt score) eqn:E.
    { destruct Hno. by apply Hiff. }
    generalize dependent (combat_type_not_need_cnt score). intros n.
    destruct (0 <? attack_cnt score);
      destruct (0 <? combat_type_attack_cnt_under_silver score);
      destruct (Nat.ltb_spec 0 n) as [Hpos|_]; cbn [andb]; try lra;
      destruct (Qdiv_Qnat_le (0.9 * 10000000)%Q n) as [_ Hd];
      try done; lra.
Qed.

(** ** The run record *)

Lemma total_of_insert (stars : gmap Z Z) (n s : Z) :
  total_of (<[n := s]> stars)
  = (total_of stars - default 0 (stars !! n) + s)%Z.
Proof.
  unfold total_of.
  assert (forall (m : gmap Z Z) j1 j2 z1 z2 y, j1 <> j2 ->
            m !! j1 = Some z1 -> m !! j2 = Some z2 ->
            (y + z2 + z1 = y + z1 + z2)%Z) as Hcomm by (intros; lia).
  rewrite <- insert_delete_eq.
  rewrite map_fold_insert_L; [| by eauto | apply lookup_delete_eq].
  destruct (stars !! n) as [v|] eqn:Hn; simpl.
  - rewrite (map_fold_delete_L _ _ n v stars); [lia | by eauto | done].
  - rewrite delete_id by done. lia.
Qed.

(** X13. After [update_mission_star] the star count of the mission is the
    one just written and the star counts of the other missions are as
    before; a mission never written has 0 stars. *)
Theorem update_mission_star_get_mission_star self mission_num star_value :
  get_mission_star (update_mission_star self mission_num star_value) mission_num
  = star_value /\
  (forall other, other <> mission_num ->
     get_mission_star (update_mission_star self mission_num star_value) other
     = get_mission_star self other) /\
  (forall other, mission_stars self !! other = None ->
     get_mission_star self other = 0%Z).
Proof.
  assert (mission_stars (update_mission_star self mission_num star_value)
          = <[mission_num := star_value]> (mission_stars self)) as Hstars.
  { unfold update_mission_star.
    destruct (data_mission_stars self) eqn:E; simpl;
      by destruct (_ <? _)%Z. }
  unfold get_mission_star. rewrite Hstars. split; [| split].
  - by rewrite lookup_insert_eq.
  - intros other Hne. by rewrite lookup_insert_ne.
  - by intros other ->.
Qed.

(** X14. [update_mission_star] leaves in [star] the greater of the old
    [star] and the new total of the missions, which is the old total with
    the old entry of the mission replaced by the new one: [star] never
    goes down, not even when a mission is rewritten with fewer stars. *)
Theorem update_mission_star_star self mission_num star_value :
  let self' := update_mission_star self mission_num star_value in
  star self' = Z.max (star self) (total_of (mission_stars self')) /\
  total_of (mission_stars self')
  = (total_of (mission_stars self) - get_mission_star self mission_num + star_value)%Z /\
  (star self <= star self')%Z /\
  (total_of (mission_stars self') <= star self')%Z.
Proof.
  intros self'.
  assert (mission_stars self'
          = <[mission_num := star_value]> (mission_stars self)) as Hstars.
  { unfold self', update_mission_star.
    destruct (data_mission_stars self) eqn:E; simpl;
      by destruct (_ <? _)%Z. }
  assert (star self' = Z.max (star self) (total_of (mission_stars self'))) as Hstar.
  { rewrite Hstars. unfold self', update_mission_star.
    assert (star (match data_mission_stars self with
                  | Some _ | None =>
                      update_mission_stars
                        (<[mission_num := star_value]> (mission_stars self)) self
                  end) = star self) as Hsame
      by by destruct (data_mission_stars self).
    cbv zeta. rewrite Hsame.
    set (total := total_of (<[mission_num := star_value]> (mission_stars self))).
    destruct (Z.ltb_spec (star self) total).
    + unfold set_star, update_star, star, get_star in *. simpl. lia.
    + rewrite Hsame. lia. }
  split; [done |]. split; [| lia].
  rewrite Hstars, total_of_insert. unfold get_mission_star.
  by destruct (mission_stars self !! mission_num).
Qed.

(** X15. [_should_reset_by_dt] compares the fortnights, counted from the
    base Sunday, in which the Sunday of the record and the Sunday of the
    current date lie: it answers true exactly when the current one is
    later.  So it never resets for a current Sunday that is not after the
    recorded one, always resets from 14 days on, and, when the recorded
    Sunday opens a fortnight, not before. *)
Theorem should_reset_by_fortnight (get_sunday_dt : string -> string)
    (dt_day_diff : string -> string -> Z) (self_dt current_dt : string) :
  let old_diff := dt_day_diff (get_sunday_dt self_dt) "20231126"%string in
  let current_diff := dt_day_diff (get_sunday_dt current_dt) "20231126"%string in
  let reset := _should_reset_by_dt get_sunday_dt dt_day_diff self_dt current_dt in
  reset = (old_diff / 14 <? current_diff / 14)%Z /\
  ((current_diff <= old_diff)%Z -> reset = false) /\
  ((old_diff + 14 <= current_diff)%Z -> reset = true) /\
  ((old_diff mod 14 = 0)%Z -> (current_diff < old_diff + 14)%Z -> reset = false).
Proof.
  intros old_diff current_diff reset.
  assert (reset = (old_diff / 14 <? current_diff / 14)%Z) as Hreset.
  { unfold reset, _should_reset_by_dt. fold old_diff current_diff.
    by rewrite !Z.div_div by lia. }
  split; [done |]. rewrite Hreset. split; [| split].
  - intros Hle. apply Z.ltb_ge. by apply Z.div_le_mono.
  - intros Hge. apply Z.ltb_lt.
    assert (old_diff / 14 + 1 <= current_diff / 14)%Z; [| lia].
    rewrite <- (Z.div_add old_diff 1 14) by lia. apply Z.div_le_mono; lia.
  - intros Hmod Hlt. apply Z.ltb_ge.
    pose proof (Z.div_mod old_diff 14 ltac:(lia)) as Hdm. rewrite Hmod in Hdm.
    assert (current_diff / 14 < old_diff / 14 + 1)%Z as Hq
      by (apply Z.div_lt_upper_bound; lia).
    lia.
Qed.

(** ** The controls of the application card *)

Lemma handle_all_snoc (self : SrAppView) (events : list ViewEvent) (e : ViewEvent) :
  handle_all self (events ++ [e])
  = ((handle (handle_all self events).1 e).1,
     (handle_all self events).2 ++ (handle (handle_all self events).1 e).2).
Proof.
  unfold handle_all. rewrite foldl_app. simpl.
  by destruct (handle _ e).
Qed.

(** X16. Whatever calls reach the view, in whatever order, its controls
    are in one of three settings: not started (only the start button
    shown, stop disabled, no progress ring), running (only the pause
    button shown, stop enabled, progress ring shown) or paused (only the
    resume button shown, stop enabled, no progress ring). *)
Theorem view_controls_invariant (events : list ViewEvent) :
  let view := (handle_all new_view events).1 in
  (running_status view = NotStarted /\ running_visible view = false /\
   start_btn_visible view = true /\ pause_btn_visible view = false /\
   resume_btn_visible view = false /\ stop_btn_disabled view = true) \/
  (running_status view = Running /\ running_visible view = true /\
   start_btn_visible view = false /\ pause_btn_visible view = true /\
   resume_btn_visible view = false /\ stop_btn_disabled view = false) \/
  (running_status view = Paused /\ running_visible view = false /\
   start_btn_visible view = false /\ pause_btn_visible view = false /\
   resume_btn_visible view = true /\ stop_btn_disabled view = false).
Proof.
  induction events as [|e events IH] using rev_ind.
  - left. done.
  - rewrite handle_all_snoc. cbv zeta in *. simpl.
    destruct e as [ctx_running| | | |value]; simpl.
    + unfold view_start. destruct (ctx_running =? 0)%Z; simpl; [right; left; done | exact IH].
    + right. right. done.
    + right. left. done.
    + left. done.
    + unfold view_on_shutdown_changed. simpl. destruct value; simpl; exact IH.
Qed.

(** ** The largest circle *)

Lemma largest_circle_from (circles : list (Z * Z * Z)) : forall tx ty tr x y r,
  foldl (fun '(tx, ty, tr) '(x, y, r) =>
           if (tr <? r)%Z then (x, y, r) else (tx, ty, tr))
        (tx, ty, tr) circles = (x, y, r) ->
  ((x, y, r) = (tx, ty, tr) /\ forall c, c ∈ circles -> (c.2 <= tr)%Z) \/
  ((tr < r)%Z /\
   exists before after,
     circles = before ++ (x, y, r) :: after /\
     (forall c, c ∈ before -> (c.2 < r)%Z) /\
     (forall c, c ∈ after -> (c.2 <= r)%Z)).
Proof.
  induction circles as [|[[cx cy] cr] circles IH]; intros tx ty tr x y r; simpl.
  - intros [= <- <- <-]. left. split; [done |]. intros c Hc. by apply elem_of_nil in Hc.
  - destruct (Z.ltb_spec tr cr) as [Hlt|Hge]; intros Hfold.
    + apply IH in Hfold as [[[= -> -> ->] Hall] | [Hlt' (before & after & -> & Hb & Ha)]].
      * right. split; [done |]. exists [], circles. split; [done |].
        split; [intros c Hc; by apply elem_of_nil in Hc | done].
      * right. split; [lia |]. exists ((cx, cy, cr) :: before), after.
        split; [done |]. split; [| done].
        intros c [-> | Hc]%elem_of_cons; [simpl; lia | by apply Hb].
    + apply IH in Hfold as [[Heq Hall] | [Hlt' (before & after & -> & Hb & Ha)]].
      * left. split; [done |].
        intros c [-> | Hc]%elem_of_cons; [simpl; lia | by apply Hall].
      * right. split; [done |]. exists ((cx, cy, cr) :: before), after.
        split; [done |]. split; [| done].
        intros c [-> | Hc]%elem_of_cons; [simpl; lia | by apply Hb].
Qed.

(** X17. [cal_little_map_pos] answers nothing exactly when no circle was
    detected.  Otherwise its position is the first of the detected
    circles with the greatest radius, when some radius is positive, and
    the position (0, 0, 0) when none is. *)
Theorem cal_little_map_pos_largest (circles : option (list (Z * Z * Z))) :
  (cal_little_map_pos circles = None <-> circles = None) /\
  (forall cs pos, circles = Some cs -> cal_little_map_pos circles = Some pos ->
     (pos = {| mm_x := 0; mm_y := 0; mm_r := 0 |} /\
      forall c, c ∈ cs -> (c.2 <= 0)%Z) \/
     ((0 < mm_r pos)%Z /\
      exists before after,
        cs = before ++ (mm_x pos, mm_y pos, mm_r pos) :: after /\
        (forall c, c ∈ before -> (c.2 < mm_r pos)%Z) /\
        (forall c, c ∈ after -> (c.2 <= mm_r pos)%Z))).
Proof.
  split.
  - destruct circles as [cs|]; simpl; [| done].
    by destruct (largest_circle cs) as [[tx ty] tr].
  - intros cs pos -> Hpos. simpl in Hpos.
    destruct (largest_circle cs) as [[x y] r] eqn:E. injection Hpos as <-. simpl.
    unfold largest_circle in E.
    apply largest_circle_from in E as [[[= -> -> ->] Hall] | [Hlt Hex]].
    + by left.
    + by right.
Qed.

(** ** What the search keeps and what it needs *)

(** X18. A call of [dfs] never trades the best team for a worse one: from
    a team within the constraints and a best team [b0], it returns a best
    team, which is [b0] itself or has a strictly greater total score. *)
Theorem dfs_best_only_improves n modules idx mt b0 :
  idx <= length modules -> sound n mt ->
  exists mt' b tree,
    dfs n (drop idx modules) idx mt (Some b0) = Return (mt', Some b, tree) /\
    (b = b0 \/ (total_score b0 < total_score b)%Q).
Proof.
  intros Hidx Hs.
  destruct (dfs_run n modules (drop idx modules) idx eq_refl Hidx mt (Some b0) Hs)
    as (mt' & best' & tree & Hrun & _ & _ & _ & _ & _ & _ & ->).
  destruct (foldl_update_best_Some (leaves tree) b0) as (b & Hb & Hcases).
  exists mt', b, tree. rewrite Hrun, Hb. split; [done |].
  destruct Hcases as [[-> _] | [Hlt _]]; [by left | by right].
Qed.

Lemma module_of_node modules nt :
  (forall m, m ∈ modules -> well_formed_module m) ->
  tidy nt -> sublist (module_list nt) modules ->
  character_id_set nt <> ∅ ->
  exists m i, head (module_list nt) = Some m /\ m ∈ modules /\
              i ∈ character_id_list m /\ i ∈ character_id_set nt.
Proof.
  intros Hwf Htidy Hsub Hfilled.
  destruct (module_list nt) as [|m ml] eqn:E.
  { destruct Hfilled. rewrite Htidy. unfold module_ids. by rewrite E. }
  assert (m ∈ modules) as Hm.
  { apply (elem_of_sublist (m :: ml)); [left | done]. }
  destruct (Hwf m Hm) as [Hne _].
  destruct (character_id_list m) as [|i ids] eqn:Ei; [done |].
  exists m, i. split; [done |]. split; [done |]. rewrite Ei. split; [left |].
  rewrite Htidy. apply elem_of_list_to_set. unfold module_ids. rewrite E. simpl.
  rewrite Ei. left.
Qed.

(** X19. For well-formed modules the search has a result only when there
    are at least as many modules as nodes: every node of the result
    holds a module of its own. *)
Theorem search_needs_a_module_per_node (ncts : list (list CharacterCombatType))
    (modules : list ForgottenHallTeamModule) (result : list (list Character)) :
  (forall m, m ∈ modules -> well_formed_module m) ->
  search_best_mission_team ncts modules = Return (Some result) ->
  length ncts <= length modules.
Proof.
  intros Hwf Hsearch.
  destruct (search_run ncts modules)
    as (final & best & tree & Hrun & Hres & _ & _ & _ & _ & _ & Hcomplete & Hbest).
  destruct (dfs_restores (length ncts) modules Hwf modules 0 (drop_0 _) (Nat.le_0_l _)
              (new_mission_team ncts) None (new_mission_team_sound ncts)
              (new_mission_team_built modules ncts))
    as (final' & best' & tree' & Hrun' & _ & _ & Hleaves).
  rewrite Hrun in Hrun'. injection Hrun' as <- <- <-.
  rewrite Hres in Hsearch. injection Hsearch as Hsearch.
  destruct best as [b|]; [| done]. clear Hsearch.
  pose proof (foldl_update_best_None (leaves tree)) as Hmax.
  rewrite <- Hbest in Hmax. apply first_maximum_elem in Hmax.
  rewrite Forall_forall in Hleaves, Hcomplete.
  specialize (Hleaves b Hmax).
  destruct (Hcomplete b Hmax) as ((Hlen & _ & _ & Hdis) & Hfilled).
  rewrite Forall_forall in Hleaves.
  assert (forall nt, nt ∈ node_team_list b ->
            exists m i, head (module_list nt) = Some m /\ m ∈ modules /\
                        i ∈ character_id_list m /\ i ∈ character_id_set nt) as Hhead.
  { intros nt Hnt. destruct (Hleaves nt Hnt) as (Ht & Hsub & _).
    rewrite take_ge in Hsub by lia.
    by apply (module_of_node modules nt Hwf Ht Hsub), Hfilled. }
  set (dummy := {| module_name := ""; module_combat_type := ""; module_type := "";
                   character_id_list := [] |}).
  set (firsts := (fun nt => default dummy (head (module_list nt)))
                   <$> node_team_list b).
  assert (length firsts = length ncts) as <- by (unfold firsts; by rewrite length_fmap).
  apply submseteq_length, NoDup_submseteq.
  - apply NoDup_alt. intros i j m Hi Hj. unfold firsts in Hi, Hj.
    rewrite list_lookup_fmap in Hi, Hj.
    destruct (node_team_list b !! i) as [nti|] eqn:Hnti; [| done].
    destruct (node_team_list b !! j) as [ntj|] eqn:Hntj; [| done].
    simpl in Hi, Hj. injection Hi as Hi. injection Hj as Hj.
    destruct (Hhead nti (list_elem_of_lookup_2 _ _ _ Hnti)) as (mi & x & Hmi & _ & Hx & Hxi).
    destruct (Hhead ntj (list_elem_of_lookup_2 _ _ _ Hntj)) as (mj & y & Hmj & _ & Hy & Hyj).
    rewrite Hmi in Hi. rewrite Hmj in Hj. simpl in Hi, Hj. subst mi mj.
    destruct (decide (i = j)) as [| Hne]; [done |]. exfalso.
    specialize (Hdis i j nti ntj Hne Hnti Hntj).
    rewrite elem_of_disjoint in Hdis. apply (Hdis x); [done |].
    destruct (Hleaves ntj (list_elem_of_lookup_2 _ _ _ Hntj)) as (Ht & _).
    rewrite Ht. apply elem_of_list_to_set. unfold module_ids.
    apply list_elem_of_In, in_concat. exists (character_id_list m).
    split; [| by apply list_elem_of_In].
    apply in_map. destruct (module_list ntj); [done |].
    simpl in Hmj. injection Hmj as ->. by left.
  - intros m Hm. unfold firsts in Hm.
    apply list_elem_of_fmap in Hm as (nt & -> & Hnt).
    destruct (Hhead nt Hnt) as (m & _ & -> & Hmod & _). done.
Qed.

(** ** The calls of the search *)

Lemma visits_calls_snoc n modules best calls best1 call best2 :
  visits_calls n modules best calls best1 ->
  visits n modules best1 call best2 ->
  visits_calls n modules best (calls ++ [call]) best2.
Proof.
  revert best. induction calls as [|c calls IH]; intros best Hcalls Hcall; simpl.
  - inversion Hcalls; subst. eapply visits_calls_cons; [done | constructor].
  - inversion Hcalls; subst. eapply visits_calls_cons; [done |]. by apply IH.
Qed.

Lemma visits_calls_elem n modules best calls best' c :
  visits_calls n modules best calls best' -> c ∈ calls ->
  exists b1 b2, visits n modules b1 c b2.
Proof.
  revert best. induction calls as [|c' calls IH]; intros best Hcalls Hc.
  - by apply elem_of_nil in Hc.
  - inversion Hcalls; subst. apply elem_of_cons in Hc as [-> | Hc].
    + by eexists _, _.
    + by eapply IH.
Qed.

Lemma visits_descends n modules best t best' d :
  visits n modules best t best' -> descends t d ->
  exists b1 b2, visits n modules b1 d b2.
Proof.
  intros Hv Hd. revert best best' Hv.
  induction Hd as [|idx entered calls c d Hc _ IH]; intros best best' Hv.
  - by eexists _, _.
  - inversion Hv; subst.
    destruct (visits_calls_elem _ _ _ _ _ c ltac:(eassumption) Hc) as (b1 & b2 & Hvc).
    by eapply IH.
Qed.

Lemma placed_nodes_insert module entered k nt :
  node_team_list entered !! k = Some nt ->
  placed_nodes module entered k
  = <[k := set_node_dfs_phase (next_node_phase_of module) (add_module nt module)]>
      (node_team_list entered).
Proof.
  intros Hnt. unfold placed_nodes.
  rewrite <- (list_insert_id _ _ _ Hnt) at 1. rewrite alter_insert.
  f_equal. unfold set_node_dfs_phase. simpl.
  by rewrite <- add_module_character_id_set.
Qed.

Lemma existed_characters_nodes mt mt' ids :
  node_team_list mt' = node_team_list mt ->
  existed_characters mt' ids = existed_characters mt ids.
Proof. intros Hl. unfold existed_characters. by rewrite Hl. Qed.

Lemma loop_explores_skip n modules idx module entered best0 j st :
  ~ placeable module entered j ->
  loop_explores n modules idx module entered best0 j st ->
  loop_explores n modules idx module entered best0 (S j) st.
Proof.
  intros Hno ((ks & Hsub & Hks & Hmap) & Hcalls & Hv).
  split; [| done]. exists ks. split; [| split; [| done]].
  - rewrite seq_S. simpl. by apply sublist_inserts_r.
  - intros k. rewrite Hks. split.
    + intros [Hk Hp]. split; [lia | done].
    + intros [Hk Hp]. split; [| done].
      destruct (decide (k = j)) as [-> | Hne]; [done | lia].
Qed.

Lemma try_node_explores n modules idx module entered best0 recurse st j :
  (forall m, m ∈ modules -> well_formed_module m) ->
  modules !! idx = Some module ->
  restores n modules (idx + 1) recurse ->
  runs n modules (idx + 1) recurse ->
  explores n modules (idx + 1) recurse ->
  sound n entered -> Forall (built_from modules idx) (node_team_list entered) ->
  j < n ->
  loop_restores modules entered st ->
  loop_explores n modules idx module entered best0 j st ->
  forall st',
    try_node recurse module (next_node_phase_of module) st j = Return st' ->
    loop_explores n modules idx module entered best0 (S j) st'.
Proof.
  intros Hwf Hmod Hres Hruns Hexp Hs Hbuilt Hj Hinv Hloop st' Hrun.
  destruct st as [[current best] calls].
  pose proof Hinv as (Hl & Hc & _). simpl in Hl, Hc.
  assert (sound n current) as Hsc by by apply (sound_nodes n entered).
  unfold try_node in Hrun.
  destruct (lookup_lt_is_Some_2 (node_team_list current) j) as [nt Hnt].
  { destruct Hsc as (-> & _). done. }
  rewrite (proj2 (index_Return _ _ _) Hnt) in Hrun. simpl in Hrun.
  assert (node_team_list entered !! j = Some nt) as Hnte by by rewrite <- Hl.
  destruct (Nat.leb_spec (node_dfs_phase nt) (next_node_phase_of module)) as [Hle|Hgt].
  2: { injection Hrun as <-. apply loop_explores_skip; [| done].
       intros (nt' & Hnt' & Hle' & _). rewrite Hnte in Hnt'. injection Hnt' as <-. lia. }
  rewrite (add_to_node_cases _ _ _ _ Hnt) in Hrun.
  destruct (Nat.ltb_spec 4 (size (character_id_set nt) + length (character_id_list module)))
    as [Hover|Hfits].
  { injection Hrun as <-. apply loop_explores_skip; [| done].
    intros (nt' & Hnt' & _ & Hfit' & _). rewrite Hnte in Hnt'. injection Hnt' as <-. lia. }
  destruct (existed_characters current (character_id_list module)) eqn:Hex.
  { injection Hrun as <-. apply loop_explores_skip; [| done].
    intros (_ & _ & _ & _ & Hun). apply existed_characters_false in Hun.
    rewrite (existed_characters_nodes entered current) in Hex by done. congruence. }
  apply existed_characters_false in Hex. simpl in Hrun.
  destruct (added_sound n current j nt module Hsc Hnt Hfits Hex) as [Hsa _].
  fold (added current j nt module) in Hrun.
  set (placed := set_phase_at j (next_node_phase_of module)
                   (added current j nt module)) in *.
  assert (node_team_list placed
          = <[j := set_node_dfs_phase (next_node_phase_of module)
                     (add_module nt module)]> (node_team_list current))
    as Hplaced by (unfold placed, set_phase_at, added; simpl; apply alter_insert).
  assert (sound n placed) as Hsp by by apply set_phase_at_sound.
  assert (built_from modules idx nt) as Hnt_built.
  { rewrite Forall_forall in Hbuilt. apply Hbuilt.
    by apply list_elem_of_lookup_2 in Hnte. }
  assert (Forall (built_from modules (idx + 1)) (node_team_list placed)) as Hpb.
  { rewrite Hplaced, Nat.add_1_r. apply Forall_insert.
    - rewrite Hl. eapply Forall_impl; [exact Hbuilt |]. apply built_from_skip.
    - by apply built_from_add. }
  destruct (Hruns placed best Hsp)
    as (mt' & best' & tree & Hrec & _ & _ & Hidx & Hroot & _).
  rewrite Hrec in Hrun. simpl in Hrun. injection Hrun as <-.
  pose proof (Hexp placed best mt' best' tree Hsp Hpb Hrec) as Hvisit.
  destruct Hloop as ((ks & Hsub & Hks & Hmap) & Hcalls & Hv).
  cbn [fst snd] in Hmap, Hcalls, Hv.
  assert (placeable module entered j) as Hplaceable.
  { exists nt. split; [done |]. split; [done |]. split; [done |].
    intros nt' i Hnt' Hi. apply (Hex nt' i); [by rewrite Hl | done]. }
  split; [| split]; cbn [fst snd].
  - exists (ks ++ [j]). split; [| split].
    + rewrite seq_S. simpl. by apply sublist_app.
    + intros k. rewrite elem_of_app, list_elem_of_singleton, Hks. split.
      * intros [[Hk Hp] | ->]; [split; [lia | done] | split; [lia | done]].
      * intros [Hk Hp]. destruct (decide (k = j)) as [-> | Hne]; [by right | left].
        split; [lia | done].
    + rewrite !map_app, Hmap. simpl. f_equal. f_equal.
      rewrite Hroot, Hplaced, Hl. symmetry. by apply placed_nodes_insert.
  - apply Forall_app. split; [done |]. apply Forall_singleton.
    split; [done |]. rewrite Hroot. unfold placed. simpl. done.
  - by apply (visits_calls_snoc _ _ _ _ best).
Qed.

Lemma for_each_try_node_explores n modules idx module entered best0 recurse :
  (forall m, m ∈ modules -> well_formed_module m) ->
  modules !! idx = Some module ->
  restores n modules (idx + 1) recurse ->
  runs n modules (idx + 1) recurse ->
  explores n modules (idx + 1) recurse ->
  sound n entered -> Forall (built_from modules idx) (node_team_list entered) ->
  forall m j st st',
    j + m <= n ->
    loop_restores modules entered st ->
    loop_explores n modules idx module entered best0 j st ->
    for_each (try_node recurse module (next_node_phase_of module)) (seq j m) st
    = Return st' ->
    loop_restores modules entered st' /\
    loop_explores n modules idx module entered best0 (j + m) st'.
Proof.
  intros Hwf Hmod Hres Hruns Hexp Hs Hbuilt.
  induction m as [|m IH]; intros j st st' Hjm Hinv Hloop Hrun; simpl in Hrun.
  - injection Hrun as <-. by rewrite Nat.add_0_r.
  - destruct (try_node_restores n modules idx module entered recurse st j
                Hwf Hmod Hres Hs Hbuilt ltac:(lia) Hinv) as (st1 & Hrun1 & Hinv1).
    rewrite Hrun1 in Hrun. simpl in Hrun.
    pose proof (try_node_explores n modules idx module entered best0 recurse st j
                  Hwf Hmod Hres Hruns Hexp Hs Hbuilt ltac:(lia) Hinv Hloop st1 Hrun1)
      as Hloop1.
    rewrite <- Nat.add_succ_comm. apply (IH (S j) st1); [lia | done | done | done].
Qed.

Lemma dfs_explores n modules :
  (forall m, m ∈ modules -> well_formed_module m) ->
  forall rest idx,
    drop idx modules = rest -> idx <= length modules ->
    explores n modules idx (dfs n rest idx).
Proof.
  intros Hwf.
  induction rest as [|module rest IH];
    intros idx Hdrop Hidx mt best mt' best' tree Hs Hbuilt Hrun.
  - assert (idx = length modules) as Hend.
    { apply (f_equal length) in Hdrop. rewrite length_drop in Hdrop. simpl in Hdrop. lia. }
    simpl in Hrun. destruct (valid_mission_team mt) eqn:Hvalid.
    + destruct (update_score_Return mt (sound_well_formed n mt Hs))
        as (scored & Hscore & _).
      rewrite Hscore in Hrun. simpl in Hrun. injection Hrun as <- <- <-.
      apply visits_scored; [done | by apply valid_mission_team_true | done].
    + injection Hrun as <- <- <-.
      apply visits_unfilled; [done | by apply valid_mission_team_false].
  - assert (modules !! idx = Some module) as Hmod.
    { rewrite <- (Nat.add_0_r idx), <- lookup_drop, Hdrop. done. }
    assert (drop (idx + 1) modules = rest) as Hdrop'.
    { rewrite Nat.add_1_r. by rewrite (drop_S _ _ _ Hmod) in Hdrop; injection Hdrop. }
    assert (idx + 1 <= length modules) as Hidx'.
    { apply lookup_lt_Some in Hmod. lia. }
    specialize (IH (idx + 1) Hdrop' Hidx').
    pose proof (dfs_restores n modules Hwf rest (idx + 1) Hdrop' Hidx') as Hres.
    pose proof (dfs_run n modules rest (idx + 1) Hdrop' Hidx') as Hruns.
    simpl in Hrun.
    destruct (impossibly_greater_Return n best mt Hs)
      as (verdict & current & Hig & (_ & Hc & Hl)).
    rewrite Hig in Hrun. simpl in Hrun. destruct verdict.
    + injection Hrun as <- <- <-.
      eapply visits_pruned; [by apply lookup_lt_Some in Hmod | done].
    + destruct (for_each (try_node (dfs n rest (idx + 1)) module
                                   (next_node_phase_of module))
                         (range n) (current, best, []))
        as [[[current1 best1] calls]|] eqn:Hloop; simpl in Hrun; [| done].
      destruct (for_each_try_node_explores n modules idx module mt best
                  (dfs n rest (idx + 1)) Hwf Hmod Hres Hruns IH Hs Hbuilt
                  n 0 (current, best, []) (current1, best1, calls))
        as ((Hl1 & Hc1 & _) & ((ks & Hsub & Hks & Hmap) & Hcalls & Hv)).
      { lia. }
      { unfold loop_restores. simpl. split; [done |]. split; [done |].
        by apply Forall_nil. }
      { split; [| split]; simpl.
        - exists []. split; [done |]. split; [| done].
          intros k. split; [by intros ?%elem_of_nil | lia].
        - by apply Forall_nil.
        - constructor. }
      { exact Hloop. }
      simpl in *.
      assert (sound n current1) as Hs1 by by apply (sound_nodes n mt).
      destruct (Hruns current1 best1 Hs1)
        as (mt1 & best1' & call & Hrec & _ & _ & Hidx1 & Hroot & _).
      rewrite Hrec in Hrun. simpl in Hrun. injection Hrun as <- <- <-.
      assert (Forall (built_from modules (idx + 1)) (node_team_list current1)) as Hb1.
      { rewrite Hl1, Nat.add_1_r. eapply Forall_impl; [exact Hbuilt |].
        apply built_from_skip. }
      pose proof (IH current1 best1 mt1 best1' call Hs1 Hb1 Hrec) as Hvisit.
      eapply visits_branch; [done | done | | |].
      * exists ks. split; [done |]. split.
        -- intros k. rewrite Hks. split; [by intros [_ ?] |].
           intros Hp. split; [| done]. destruct Hp as (nt & Hnt & _).
           apply lookup_lt_Some in Hnt. destruct Hs as (Hlen & _). lia.
        -- rewrite map_app, Hmap. simpl. by rewrite Hroot, Hl1.
      * apply Forall_app. split; [done |]. apply Forall_singleton.
        split; [done |]. by rewrite Hroot.
      * by apply (visits_calls_snoc _ _ _ _ best1).
Qed.

(** ** The claims about the phases and about the best team *)

(** C7. The category of a module is 0 with an attacker, else 1 with
    Silverwolf, else 2 with a survivor, else 3.  In the search every call
    made from a call at module index [idx] either leaves the phase
    markers as they are or has overwritten the marker of one node, which
    was not above the category of the module at [idx], with that
    category; the markers are back to what they were when the search
    returns; and from any call to any call made within it no phase marker
    decreases.  For well-formed modules the calls made from a call are
    exactly these: for each node, in turn, whose marker is not above the
    category of the module and which can take the module, a call with
    the module placed in that node and the marker of that node
    overwritten with the category, all other nodes and markers being
    those of the entry; and a last call that skips the module, with the
    nodes and markers of the entry, as the search has them again when it
    returns. *)
Theorem phase_discipline (ncts : list (list CharacterCombatType))
    (modules : list ForgottenHallTeamModule) :
  (forall module,
     next_node_phase_of module
     = if with_attack module then 0
       else if with_silver module then 1
       else if with_survival module then 2 else 3) /\
  exists final best tree,
    dfs (length ncts) modules 0 (new_mission_team ncts) None
    = Return (final, best, tree) /\
    phases final = phases (new_mission_team ncts) /\
    (forall idx entered calls c,
       descends tree (Branch idx entered calls) -> c ∈ calls ->
       exists module,
         modules !! idx = Some module /\
         placement (next_node_phase_of module)
                   (phases entered) (phases (root_team c))) /\
    (forall a b,
       descends tree a -> descends a b ->
       Forall2 le (phases (root_team a)) (phases (root_team b))) /\
    ((forall m, m ∈ modules -> well_formed_module m) ->
     node_team_list final = node_team_list (new_mission_team ncts) /\
     forall idx entered calls,
       descends tree (Branch idx entered calls) ->
       exists module,
         modules !! idx = Some module /\
         calls_as_described (length ncts) module entered calls).
Proof.
  split.
  - intros module. unfold next_node_phase_of.
    by destruct (with_attack module), (with_silver module), (with_survival module).
  - destruct (search_run ncts modules)
      as (final & best & tree & Hrun & _ & _ & Hp & _ & _ & Htree & _).
    exists final, best, tree. split; [done |]. split; [done |].
    split; [| split].
    + intros idx entered calls c Hd Hc.
      pose proof (search_tree_descends _ _ _ _ Htree Hd) as Hb.
      inversion Hb as [| | |idx' module entered' calls' Hmod Hcalls]; subst.
      exists module. split; [done |].
      rewrite Forall_forall in Hcalls. by destruct (Hcalls c Hc) as (_ & ? & _).
    + intros a b Ha Hab.
      pose proof (search_tree_descends _ _ _ _ Htree Ha) as Hta.
      by destruct (descends_phases _ _ _ _ Hta Hab).
    + intros Hwf.
      pose proof (new_mission_team_sound ncts) as Hs.
      pose proof (new_mission_team_built modules ncts) as Hbuilt.
      destruct (dfs_restores (length ncts) modules Hwf modules 0 (drop_0 _)
                  (Nat.le_0_l _) (new_mission_team ncts) None Hs Hbuilt)
        as (final' & best' & tree' & Hrun' & Hl & _).
      rewrite Hrun in Hrun'. injection Hrun' as <- <- <-.
      split; [done |].
      pose proof (dfs_explores (length ncts) modules Hwf modules 0 (drop_0 _)
                    (Nat.le_0_l _) (new_mission_team ncts) None final best tree
                    Hs Hbuilt Hrun) as Hv.
      intros idx entered calls Hd.
      destruct (visits_descends _ _ _ _ _ _ Hv Hd) as (b1 & b2 & Hvb).
      inversion Hvb; subst. by eexists.
Qed.

End MoreProperties.

(** * The order of iteration *)

Section Iteration.

Context `{CharacterConst} (o1 o2 : SetIteration).

Lemma count_where_Permutation (p : Character -> bool) (l1 l2 : list Character) :
  l1 ≡ₚ l2 -> count_where p l1 = count_where p l2.
Proof.
  induction 1 as [|c l1 l2 _ IH|c1 c2 l|l1 l2 l3 _ IH1 _ IH2].
  - done.
  - by rewrite !count_where_cons, IH.
  - rewrite !count_where_cons. lia.
  - by rewrite IH1.
Qed.

Lemma count_where_agree (p q : Character -> bool) (l1 l2 : list Character) :
  l1 ≡ₚ l2 -> (forall c, c ∈ l1 -> p c = q c) ->
  count_where p l1 = count_where q l2.
Proof.
  intros Hperm Hpq. rewrite <- (count_where_Permutation q l1 l2 Hperm).
  by apply count_where_ext.
Qed.

Lemma node_character_list_Permutation nt :
  node_character_list (set_iteration := o1) nt
  ≡ₚ node_character_list (set_iteration := o2) nt.
Proof.
  unfold node_character_list. apply fmap_Permutation.
  by rewrite (iter_ids_elements (SetIteration := o1)),
             (iter_ids_elements (SetIteration := o2)).
Qed.

Lemma not_needed_Permutation need (l1 l2 : list Character) :
  l1 ≡ₚ l2 ->
  (list_to_set (not_needed need l1) : gset CharacterCombatType)
  = list_to_set (not_needed need l2).
Proof.
  intros Hperm. apply set_eq. intros ct.
  rewrite !elem_of_list_to_set, !elem_of_not_needed.
  by setoid_rewrite Hperm.
Qed.

(** Fed with the characters of a node in two orders, and iterating its
    own set in two orders, [_cal_need_combat_type] leaves the same score
    object and returns lists with the same elements. *)
Lemma _cal_need_combat_type_order self need (l1 l2 : list Character) :
  l1 ≡ₚ l2 ->
  (_cal_need_combat_type (set_iteration := o1) self l1 need).1
  = (_cal_need_combat_type (set_iteration := o2) self l2 need).1 /\
  forall ct,
    ct ∈ (_cal_need_combat_type (set_iteration := o1) self l1 need).2 <->
    ct ∈ (_cal_need_combat_type (set_iteration := o2) self l2 need).2.
Proof.
  intros Hperm. rewrite !_cal_need_combat_type_unfold.
  rewrite (not_needed_Permutation need l1 l2 Hperm).
  destruct (decide (SILVERWOLF ∈ l1)) as [Hs|Hs].
  - rewrite decide_True by (by rewrite <- Hperm). simpl. split; [done |].
    intros ct. rewrite !elem_of_app.
    by rewrite (elem_of_iter_combat_types (set_iteration := o1)),
               (elem_of_iter_combat_types (set_iteration := o2)).
  - rewrite decide_False by (by rewrite <- Hperm). done.
Qed.

Lemma tally_of_order need (cal1 cal2 : list CharacterCombatType)
    (l1 l2 : list Character) :
  l1 ≡ₚ l2 -> (forall ct, ct ∈ cal1 <-> ct ∈ cal2) ->
  tally_of need cal1 l1 = tally_of need cal2 l2.
Proof.
  intros Hperm Hcal. unfold tally_of.
  assert (forall c, in_derived need cal1 c = in_derived need cal2 c) as Hd.
  { intros c. unfold in_derived. f_equal. apply bool_decide_ext, Hcal. }
  repeat (apply (f_equal2 cons);
          [apply count_where_agree; [done | intros c _; by rewrite ?Hd] |]).
  done.
Qed.

Lemma _cal_total_score_determined (s1 s2 : ForgottenHallNodeTeamScore) :
  tallies s1 = tallies s2 ->
  combat_type_not_need_cnt s1 = combat_type_not_need_cnt s2 ->
  node_survival_score s1 = node_survival_score s2 ->
  _cal_total_score s1 = _cal_total_score s2.
Proof.
  destruct s1, s2. unfold tallies. simpl.
  intros [= -> -> -> -> -> -> ->] -> ->. reflexivity.
Qed.

(** The score object of a node does not depend on the order in which the
    sets are iterated. *)
Lemma node_team_score_order nt need :
  node_team_score (set_iteration := o1) nt need
  = node_team_score (set_iteration := o2) nt need.
Proof.
  unfold node_team_score.
  pose proof (node_character_list_Permutation nt) as Hperm.
  destruct (_cal_need_combat_type_order new_score need _ _ Hperm) as [Hself Hcal].
  destruct (_cal_need_combat_type (set_iteration := o1) new_score
              (node_character_list (set_iteration := o1) nt) need) as [self1 cal1].
  destruct (_cal_need_combat_type (set_iteration := o2) new_score
              (node_character_list (set_iteration := o2) nt) need) as [self2 cal2].
  simpl in Hself, Hcal. subst self2.
  destruct (_cal_character_cnt_tallies need cal1
              (node_character_list (set_iteration := o1) nt) self1)
    as (Ht1 & Hn1 & _ & _ & Hs1 & _).
  destruct (_cal_character_cnt_tallies need cal2
              (node_character_list (set_iteration := o2) nt) self1)
    as (Ht2 & Hn2 & _ & _ & Hs2 & _).
  apply _cal_total_score_determined.
  - rewrite Ht1, Ht2. f_equal. by apply tally_of_order.
  - by rewrite Hn1, Hn2.
  - by rewrite Hs1, Hs2.
Qed.

Lemma for_each_ext {A S : Type} (f g : S -> A -> outcome S) (l : list A) :
  (forall s a, f s a = g s a) -> forall s, for_each f l s = for_each g l s.
Proof.
  intros Hfg. induction l as [|a l IH]; intros s; simpl; [done |].
  rewrite Hfg. destruct (g s a); simpl; [apply IH | done].
Qed.

Lemma add_node_score_order self i :
  add_node_score (set_iteration := o1) self i
  = add_node_score (set_iteration := o2) self i.
Proof.
  unfold add_node_score.
  destruct (index (node_team_list self) i) as [nt|]; simpl; [| done].
  destruct (index (node_combat_types self) i) as [need|]; simpl; [| done].
  by rewrite node_team_score_order.
Qed.

Lemma update_score_order mt :
  update_score (set_iteration := o1) mt = update_score (set_iteration := o2) mt.
Proof.
  unfold update_score.
  destruct (negb (valid_mission_team (set_scores_of_team 0 0 0 0 0 0 mt))); [done |].
  apply for_each_ext, add_node_score_order.
Qed.

Lemma impossibly_greater_order n best mt :
  impossibly_greater (set_iteration := o1) n best mt
  = impossibly_greater (set_iteration := o2) n best mt.
Proof.
  unfold impossibly_greater. by rewrite update_score_order.
Qed.

Lemma try_node_ext
    (r1 r2 : ForgottenHallMissionTeam -> option ForgottenHallMissionTeam ->
             outcome (ForgottenHallMissionTeam * option ForgottenHallMissionTeam * CallTree))
    module next_node_phase st node_idx :
  (forall mt best, r1 mt best = r2 mt best) ->
  try_node r1 module next_node_phase st node_idx
  = try_node r2 module next_node_phase st node_idx.
Proof.
  intros Hr. unfold try_node. destruct st as [[current best] calls].
  destruct (index (node_team_list current) node_idx) as [nt|]; simpl; [| done].
  destruct (node_dfs_phase nt <=? next_node_phase); [| done].
  destruct (add_to_node current node_idx module) as [[[] current']|]; simpl; try done.
  by rewrite Hr.
Qed.

(** The search makes the same calls, scores the same teams and keeps the
    same best team whatever the order in which the sets are iterated. *)
Lemma dfs_order n rest : forall idx mt best,
  dfs (set_iteration := o1) n rest idx mt best
  = dfs (set_iteration := o2) n rest idx mt best.
Proof.
  induction rest as [|module rest IH]; intros idx mt best; simpl.
  - by rewrite update_score_order.
  - rewrite impossibly_greater_order.
    destruct (impossibly_greater (set_iteration := o2) n best mt)
      as [[[] current]|]; simpl; try done.
    rewrite (for_each_ext
               (try_node (dfs (set_iteration := o1) n rest (idx + 1)) module
                         (next_node_phase_of module))
               (try_node (dfs (set_iteration := o2) n rest (idx + 1)) module
                         (next_node_phase_of module))
               (range n)
               (fun st k => try_node_ext _ _ module _ st k (IH (idx + 1)))).
    match goal with
    | |- context [for_each ?f ?l ?s] =>
        destruct (for_each f l s) as [[[c b] calls]|]; simpl; [| done]
    end.
    by rewrite IH.
Qed.

Lemma character_list_Permutation mt :
  Forall2 (≡ₚ) (character_list (set_iteration := o1) mt)
               (character_list (set_iteration := o2) mt).
Proof.
  unfold character_list. apply Forall2_fmap, Forall_Forall2_diag, Forall_forall.
  intros nt _. apply node_character_list_Permutation.
Qed.

(** C9. The search chooses the same team whatever the order in which
    Python iterates the sets: under two orders [o1] and [o2] it returns
    the character lists of one and the same team, which agree up to the
    order of the characters inside a node, and are identical when the id
    sets are iterated in the same order, as they are in two calls with
    identical inputs.  The best team is replaced only by a team of
    strictly greater total score, so the team returned is the first, in
    the order the search scores them, of the teams with the greatest
    total score; and for well-formed modules the teams the search
    scores, and their order, are those of the calls described by
    [visits]: every team that fills all nodes at the module count is
    scored when it is reached. *)
Theorem search_first_maximum (ncts : list (list CharacterCombatType))
    (modules : list ForgottenHallTeamModule) :
  (exists best : option ForgottenHallMissionTeam,
     search_best_mission_team (set_iteration := o1) ncts modules
     = Return (character_list (set_iteration := o1) <$> best) /\
     search_best_mission_team (set_iteration := o2) ncts modules
     = Return (character_list (set_iteration := o2) <$> best)) /\
  (forall r1 r2,
     search_best_mission_team (set_iteration := o1) ncts modules = Return (Some r1) ->
     search_best_mission_team (set_iteration := o2) ncts modules = Return (Some r2) ->
     Forall2 (≡ₚ) r1 r2) /\
  ((forall s, iter_ids (SetIteration := o1) s = iter_ids (SetIteration := o2) s) ->
   search_best_mission_team (set_iteration := o1) ncts modules
   = search_best_mission_team (set_iteration := o2) ncts modules) /\
  (forall b c, (total_score c <= total_score b)%Q -> update_best (Some b) c = Some b) /\
  (forall b c, (total_score b < total_score c)%Q -> update_best (Some b) c = Some c) /\
  exists final best tree,
    dfs (set_iteration := o1) (length ncts) modules 0 (new_mission_team ncts) None
    = Return (final, best, tree) /\
    search_best_mission_team (set_iteration := o1) ncts modules
    = Return (character_list (set_iteration := o1) <$> best) /\
    best = foldl update_best None (leaves tree) /\
    (forall b, best = Some b -> first_maximum (leaves tree) b) /\
    ((forall m, m ∈ modules -> well_formed_module m) ->
     visits (set_iteration := o1) (length ncts) modules None tree best).
Proof.
  destruct (search_run (set_iteration := o1) ncts modules)
    as (final & best & tree & Hrun & Hres & _ & _ & _ & _ & _ & _ & Hbest).
  destruct (search_run (set_iteration := o2) ncts modules)
    as (final' & best' & tree' & Hrun' & Hres' & _).
  rewrite <- dfs_order in Hrun'.
  rewrite Hrun in Hrun'. injection Hrun' as <- <- <-.
  split; [by exists best |].
  split; [| split; [| split; [| split]]].
  - intros r1 r2. rewrite Hres, Hres'. destruct best as [b|]; [| done].
    simpl. intros [= <-] [= <-]. apply character_list_Permutation.
  - intros Hsame. rewrite Hres, Hres'.
    destruct best as [b|]; [| done]. simpl. do 2 f_equal.
    unfold character_list, node_character_list.
    apply map_ext. intros nt. by rewrite Hsame.
  - apply update_best_keeps.
  - apply update_best_takes.
  - exists final, best, tree. split; [done |]. split; [done |]. split; [done |].
    split.
    + intros b ->. pose proof (foldl_update_best_None (leaves tree)) as Hmax.
      by rewrite <- Hbest in Hmax.
    + intros Hwf.
      apply (dfs_explores (set_iteration := o1) (length ncts) modules Hwf modules 0
               (drop_0 _) (Nat.le_0_l _) (new_mission_team ncts) None final best tree);
        [apply new_mission_team_sound | apply new_mission_team_built | done].
Qed.

End Iteration.


(** * The further properties on the roster *)

Module MoreRosterFacts.

Import Roster.

Lemma roster_teams_well_formed : forall m, m ∈ teams -> well_formed_module m.
Proof.
  intros m Hm. unfold teams in Hm.
  repeat (apply elem_of_cons in Hm as [-> | Hm]); [.. | by apply elem_of_nil in Hm];
    (split; [done |]); simpl; apply (bool_decide_unpack _); vm_compute; exact I.
Qed.

Lemma pop_module_add_module_witness :
  (survival_team ∉ module_list new_node_team) /\
  NoDup (character_id_list survival_team) /\
  (forall i, i ∈ character_id_list survival_team -> i ∉ character_id_set new_node_team) /\
  pop_module (add_module new_node_team survival_team) survival_team
  = (true, new_node_team).
Proof.
  assert (survival_team ∉ module_list new_node_team) as H1 by apply not_elem_of_nil.
  assert (NoDup (character_id_list survival_team)) as H2
    by (apply NoDup_singleton).
  assert (forall i, i ∈ character_id_list survival_team ->
                    i ∉ character_id_set new_node_team) as H3
    by (intros i _; apply not_elem_of_empty).
  split; [exact H1 |]. split; [exact H2 |]. split; [exact H3 |].
  exact (pop_module_add_module new_node_team survival_team H1 H2 H3).
Defined.

Lemma pop_from_node_add_to_node_witness :
  node_team_list (new_mission_team fire_node) !! 0 = Some new_node_team /\
  (survival_team ∉ module_list new_node_team) /\
  NoDup (character_id_list survival_team) /\
  add_to_node (new_mission_team fire_node) 0 survival_team
  = Return (true, added (new_mission_team fire_node) 0 new_node_team survival_team) /\
  pop_from_node (added (new_mission_team fire_node) 0 new_node_team survival_team)
                0 survival_team
  = (true, new_mission_team fire_node).
Proof.
  assert (node_team_list (new_mission_team fire_node) !! 0 = Some new_node_team) as H1
    by reflexivity.
  assert (survival_team ∉ module_list new_node_team) as H2 by apply not_elem_of_nil.
  assert (NoDup (character_id_list survival_team)) as H3 by apply NoDup_singleton.
  assert (add_to_node (new_mission_team fire_node) 0 survival_team
          = Return (true, added (new_mission_team fire_node) 0 new_node_team
                            survival_team)) as H4 by (vm_compute; reflexivity).
  split; [exact H1 |]. split; [exact H2 |]. split; [exact H3 |]. split; [exact H4 |].
  exact (pop_from_node_add_to_node _ _ _ _ _ H1 H2 H3 H4).
Defined.

Lemma add_to_node_effect_witness :
  add_to_node (new_mission_team fire_node) 0 survival_team
  = Return (true, added (new_mission_team fire_node) 0 new_node_team survival_team) /\
  phases (added (new_mission_team fire_node) 0 new_node_team survival_team)
  = phases (new_mission_team fire_node).
Proof.
  assert (add_to_node (new_mission_team fire_node) 0 survival_team
          = Return (true, added (new_mission_team fire_node) 0 new_node_team
                            survival_team)) as H1 by (vm_compute; reflexivity).
  split; [exact H1 |].
  exact (proj1 (proj2 (add_to_node_effect _ _ _ _ H1))).
Defined.

Lemma node_predicates_agree_with_score_witness :
  tidy silverwolf_node /\ roles_disjoint /\
  node_with_attack silverwolf_node
  = (0 <? attack_cnt (node_team_score silverwolf_node [Fire])).
Proof.
  assert (tidy silverwolf_node) as H1.
  { unfold silverwolf_node. apply tidy_add_module. exact tidy_new_node_team. }
  split; [exact H1 |]. split; [exact RosterFacts.roster_roles_disjoint |].
  exact (proj1 (node_predicates_agree_with_score silverwolf_node
                  ([Fire] : list (@CharacterCombatType types))
                  H1 RosterFacts.roster_roles_disjoint)).
Defined.

Lemma dfs_gives_the_team_back_witness :
  (forall m, m ∈ teams -> well_formed_module m) /\
  0 <= length teams /\
  sound 1 (new_mission_team fire_node) /\
  Forall (built_from teams 0) (node_team_list (new_mission_team fire_node)) /\
  exists mt' best' tree,
    dfs 1 (drop 0 teams) 0 (new_mission_team fire_node) None
    = Return (mt', best', tree) /\
    node_team_list mt' = node_team_list (new_mission_team fire_node) /\
    node_combat_types mt' = node_combat_types (new_mission_team fire_node).
Proof.
  assert (0 <= length teams) as H2 by (simpl; lia).
  split; [exact roster_teams_well_formed |]. split; [exact H2 |].
  split; [exact (new_mission_team_sound fire_node) |].
  split; [exact (new_mission_team_built teams fire_node) |].
  exact (dfs_gives_the_team_back 1 teams 0 (new_mission_team fire_node) None
           roster_teams_well_formed H2 (new_mission_team_sound fire_node)
           (new_mission_team_built teams fire_node)).
Defined.

Lemma search_result_built_from_modules_witness :
  (forall m, m ∈ teams -> well_formed_module m) /\
  search_best_mission_team fire_node teams
  = Return (Some [map lookup_character ["gepard"; "yanqing"; "himeko"]]) /\
  exists best,
    [map lookup_character ["gepard"; "yanqing"; "himeko"]] = character_list best /\
    Forall (fun nt =>
              tidy nt /\ sublist (module_list nt) teams /\
              Sorted le (map next_node_phase_of (module_list nt)))
           (node_team_list best) /\
    forall chars c,
      chars ∈ [map lookup_character ["gepard"; "yanqing"; "himeko"]] -> c ∈ chars ->
      exists m i, m ∈ teams /\ i ∈ character_id_list m /\ c = get_character_by_id i.
Proof.
  assert (search_best_mission_team fire_node teams
          = Return (Some [map lookup_character ["gepard"; "yanqing"; "himeko"]]))
    as H2 by (vm_compute; reflexivity).
  split; [exact roster_teams_well_formed |]. split; [exact H2 |].
  exact (search_result_built_from_modules fire_node teams _
           roster_teams_well_formed H2).
Defined.

Lemma update_score_overwrites_witness :
  same_nodes gepard_placed (set_scores_of_team 1 2 3 4 5 6 gepard_placed) /\
  update_score gepard_placed
  = update_score (set_scores_of_team 1 2 3 4 5 6 gepard_placed).
Proof.
  assert (same_nodes gepard_placed (set_scores_of_team 1 2 3 4 5 6 gepard_placed))
    as H1 by (repeat split).
  split; [exact H1 |].
  exact (proj1 (update_score_overwrites _ _ H1)).
Defined.

Lemma node_total_score_lexicographic_witness :
  size (character_id_set gepard_node) <= 4 /\
  size (character_id_set silverwolf_node) <= 4 /\
  ((node_cnt_score (node_team_score gepard_node [Fire])
    < node_cnt_score (node_team_score silverwolf_node [Fire]))%Q ->
   (node_total_score (node_team_score gepard_node [Fire])
    < node_total_score (node_team_score silverwolf_node [Fire]))%Q).
Proof.
  assert (size (character_id_set gepard_node) <= 4) as H1 by (vm_compute; lia).
  assert (size (character_id_set silverwolf_node) <= 4) as H2 by (vm_compute; lia).
  split; [exact H1 |]. split; [exact H2 |].
  pose proof (node_total_score_lexicographic gepard_node silverwolf_node
                ([Fire] : list (@CharacterCombatType types))
                ([Fire] : list (@CharacterCombatType types)) H1 H2) as W.
  cbv zeta in W. exact (proj1 W).
Defined.

Lemma dfs_best_only_improves_witness :
  0 <= length teams /\
  sound 1 (new_mission_team fire_node) /\
  exists mt' b tree,
    dfs 1 (drop 0 teams) 0 (new_mission_team fire_node)
        (Some (new_mission_team fire_node)) = Return (mt', Some b, tree) /\
    (b = new_mission_team fire_node \/
     (total_score (new_mission_team fire_node) < total_score b)%Q).
Proof.
  assert (0 <= length teams) as H1 by (simpl; lia).
  split; [exact H1 |]. split; [exact (new_mission_team_sound fire_node) |].
  exact (dfs_best_only_improves 1 teams 0 (new_mission_team fire_node)
           (new_mission_team fire_node) H1 (new_mission_team_sound fire_node)).
Defined.

Lemma search_needs_a_module_per_node_witness :
  (forall m, m ∈ teams -> well_formed_module m) /\
  search_best_mission_team fire_node teams
  = Return (Some [map lookup_character ["gepard"; "yanqing"; "himeko"]]) /\
  length fire_node <= length teams.
Proof.
  assert (search_best_mission_team fire_node teams
          = Return (Some [map lookup_character ["gepard"; "yanqing"; "himeko"]]))
    as H2 by (vm_compute; reflexivity).
  split; [exact roster_teams_well_formed |]. split; [exact H2 |].
  exact (search_needs_a_module_per_node fire_node teams _
           roster_teams_well_formed H2).
Defined.

Lemma phase_discipline_witness :
  (forall m, m ∈ teams -> well_formed_module m) /\
  exists final best tree,
    dfs (length fire_node) teams 0 (new_mission_team fire_node) None
    = Return (final, best, tree) /\
    node_team_list final = node_team_list (new_mission_team fire_node) /\
    forall idx entered calls,
      descends tree (Branch idx entered calls) ->
      exists module,
        teams !! idx = Some module /\
        calls_as_described (length fire_node) module entered calls.
Proof.
  split; [exact roster_teams_well_formed |].
  destruct (phase_discipline fire_node teams)
    as (_ & final & best & tree & Hrun & _ & _ & _ & Hwf).
  exists final, best, tree. split; [exact Hrun |].
  exact (Hwf roster_teams_well_formed).
Defined.

Lemma search_first_maximum_witness :
  (forall m, m ∈ teams -> well_formed_module m) /\
  search_best_mission_team (set_iteration := iteration) fire_node teams
  = Return (Some [map lookup_character ["gepard"; "yanqing"; "himeko"]]) /\
  search_best_mission_team (set_iteration := reversed) fire_node teams
  = Return (Some [map lookup_character ["himeko"; "yanqing"; "gepard"]]) /\
  Forall2 (≡ₚ) [map lookup_character ["gepard"; "yanqing"; "himeko"]]
               [map lookup_character ["himeko"; "yanqing"; "gepard"]] /\
  exists final best tree,
    dfs (set_iteration := iteration) (length fire_node) teams 0
        (new_mission_team fire_node) None
    = Return (final, best, tree) /\
    visits (set_iteration := iteration) (length fire_node) teams None tree best.
Proof.
  assert (search_best_mission_team (set_iteration := iteration) fire_node teams
          = Return (Some [map lookup_character ["gepard"; "yanqing"; "himeko"]]))
    as H1 by (vm_compute; reflexivity).
  assert (search_best_mission_team (set_iteration := reversed) fire_node teams
          = Return (Some [map lookup_character ["himeko"; "yanqing"; "gepard"]]))
    as H2 by (vm_compute; reflexivity).
  destruct (search_first_maximum iteration reversed fire_node teams)
    as (_ & Hperm & _ & _ & _ & final & best & tree & Hrun & _ & _ & _ & Hwf).
  split; [exact roster_teams_well_formed |]. split; [exact H1 |].
  split; [exact H2 |]. split; [exact (Hperm _ _ H1 H2) |].
  exists final, best, tree. split; [exact Hrun |].
  exact (Hwf roster_teams_well_formed).
Defined.

End MoreRosterFacts.
